(** * ai-factory: extension lifecycle reconciler and marker codec

    A shallow embedding of
      - core/injections.ts  (marker codec and injection engine),
      - cli/commands/extension.ts (extensionAddCommand, extensionRemoveCommand),
      - cli/commands/update.ts (updateCommand),
    and the properties of the specification that are stated about them.

    Strings are JavaScript strings: sequences of UTF-16 code units.  A code
    unit is a number [N]; a string is a [list N].  String literals of the
    source are written [lit "..."]. *)

From stdpp Require Import base list strings gmap.
From Stdlib Require Import NArith Lia.

Local Open Scope N_scope.
Local Open Scope nat_scope.

(** ** Strings *)

Definition char := N.
Definition text := list char.

Definition lit (s : String.string) : text :=
  map Ascii.N_of_ascii (String.list_ascii_of_string s).
Arguments lit s%_string_scope.

Definition nl : char := 10%N.
Definition colon : char := 58%N.

(** [s.startsWith(p)] *)
Fixpoint startsWith (p s : text) : bool :=
  match p, s with
  | [], _ => true
  | a :: p', b :: s' => N.eqb a b && startsWith p' s'
  | _ :: _, [] => false
  end.

(** [s.includes(p)] *)
Fixpoint includes (p s : text) : bool :=
  startsWith p s ||
  match s with
  | [] => false
  | _ :: t => includes p t
  end.

(** The code units removed by [String.prototype.trimEnd]: ECMAScript
    WhiteSpace and LineTerminator. *)
Definition isWhiteSpace (c : char) : bool :=
  (N.leb 9 c && N.leb c 13) || N.eqb c 32 || N.eqb c 160 || N.eqb c 5760
  || (N.leb 8192 c && N.leb c 8202) || N.eqb c 8232 || N.eqb c 8233
  || N.eqb c 8239 || N.eqb c 8287 || N.eqb c 12288 || N.eqb c 65279.

(** [s.trimEnd()] *)
Fixpoint trimEnd (s : text) : text :=
  match s with
  | [] => []
  | c :: t =>
      match trimEnd t with
      | [] => if isWhiteSpace c then [] else [c]
      | t' => c :: t'
      end
  end.

(** ** Regular expressions of the marker codec

    Both regular expressions of injections.ts have the shape

      \n? START \n [\s\S]*? \n END \n?

    with the global flag, where START and END are sub-patterns that match in
    at most one way at a given position (a literal, or a literal with
    [[^:]+] fields each closed by a colon).  A sub-pattern is given by the
    number of code units it consumes at the front of a string. *)

Section Regex.
Variables ps pe : text -> option nat.

(** [[\s\S]*?\n END]: the lazy quantifier takes the fewest code units [k]
    after which a line feed and END follow; the result is [(k, n)] with
    [n] the length END consumed. *)
Fixpoint lazyToEnd (s : text) : option (nat * nat) :=
  match s with
  | [] => None
  | c :: t =>
      match (if N.eqb c nl then pe t else None) with
      | Some n => Some (0, n)
      | None =>
          match lazyToEnd t with
          | Some (k, n) => Some (S k, n)
          | None => None
          end
      end
  end.

(** [\n?]: greedy, one line feed when there is one. *)
Definition optNl (s : text) : nat :=
  match s with
  | c :: _ => if N.eqb c nl then 1 else 0
  | [] => 0
  end.

(** [START \n [\s\S]*? \n END \n?] at the front of [s]: the length of the
    match. *)
Definition matchBody (s : text) : option nat :=
  match ps s with
  | None => None
  | Some n1 =>
      match drop n1 s with
      | c :: r =>
          if N.eqb c nl then
            match lazyToEnd r with
            | Some (k, n2) =>
                Some (n1 + 1 + k + 1 + n2 + optNl (drop (k + 1 + n2) r))
            | None => None
            end
          else None
      | [] => None
      end
  end.

(** The whole expression at the front of [s]: the leading [\n?] first
    tries to take a line feed and gives it back when the rest fails. *)
Definition matchAt (s : text) : option nat :=
  match s with
  | c :: t =>
      if N.eqb c nl then
        match matchBody t with
        | Some n => Some (S n)
        | None => matchBody s
        end
      else matchBody s
  | [] => matchBody s
  end.

(** [s.replace(re, '')] with the global flag: matches are searched from
    left to right, each search starting where the previous match ended;
    [skip] counts the code units of the current match still to drop. *)
Fixpoint replaceGo (skip : nat) (s : text) : text :=
  match s with
  | [] => []
  | c :: t =>
      match skip with
      | S k => replaceGo k t
      | 0 =>
          match matchAt s with
          | Some (S n) => replaceGo n t
          | _ => c :: replaceGo 0 t
          end
      end
  end.

Definition replaceAll (s : text) : text := replaceGo 0 s.

(** The expression matches somewhere in [s]. *)
Fixpoint hasMatch (s : text) : bool :=
  match matchAt s with
  | Some _ => true
  | None =>
      match s with
      | [] => false
      | _ :: t => hasMatch t
      end
  end.
End Regex.

(** A literal sub-pattern (the source escapes every regex metacharacter of
    the marker before building the expression). *)
Definition literal (p : text) (s : text) : option nat :=
  if startsWith p s then Some (length p) else None.

(** ** injections.ts *)

Definition startMarker (extensionName skillName position : text) : text :=
  lit "<!-- aif-ext:" ++ extensionName ++ lit ":" ++ skillName ++ lit ":"
    ++ position ++ lit ":start -->".

Definition endMarker (extensionName skillName position : text) : text :=
  lit "<!-- aif-ext:" ++ extensionName ++ lit ":" ++ skillName ++ lit ":"
    ++ position ++ lit ":end -->".

Definition stripInjection (content extensionName skillName position : text) : text :=
  replaceAll (literal (startMarker extensionName skillName position))
             (literal (endMarker extensionName skillName position)) content.

Inductive Position := append | prepend.

Definition positionText (p : Position) : text :=
  match p with
  | append => lit "append"
  | prepend => lit "prepend"
  end.

(** First index at which [p] occurs in [s]. *)
Fixpoint indexOf (p s : text) : option nat :=
  if startsWith p s then Some 0
  else match s with
       | [] => None
       | _ :: t => S <$> indexOf p t
       end.

(** [content.match(/^---\n[\s\S]*?\n---\n/)]: the length of the match. *)
Definition frontMatter (content : text) : option nat :=
  let open := lit "---" ++ [nl] in
  let close := nl :: lit "---" ++ [nl] in
  if startsWith open content then
    match indexOf close (drop (length open) content) with
    | Some k => Some (length open + k + length close)
    | None => None
    end
  else None.

Definition applyInjection (skillContent injectionContent : text)
    (position : Position) (extensionName skillName : text) : text :=
  let pos := positionText position in
  let content := stripInjection skillContent extensionName skillName pos in
  let block :=
    startMarker extensionName skillName pos ++ [nl]
      ++ trimEnd injectionContent ++ [nl]
      ++ endMarker extensionName skillName pos in
  match position with
  | append => trimEnd content ++ [nl; nl] ++ block ++ [nl]
  | prepend =>
      match frontMatter content with
      | Some afterFm =>
          take afterFm content ++ [nl] ++ block ++ [nl] ++ drop afterFm content
      | None => block ++ [nl; nl] ++ content
      end
  end.

(** [extensionMarkerRegex]: the markers of an extension whatever the target
    and the position.  A field [[^:]+] is followed by a colon, so it is the
    longest run of code units other than a colon, and it is not empty. *)
Fixpoint fieldLength (s : text) : nat :=
  match s with
  | c :: t => if N.eqb c colon then 0 else S (fieldLength t)
  | [] => 0
  end.

(** [<!-- aif-ext:NAME:[^:]+:[^:]+:TAIL] at the front of [s], where TAIL is
    [start -->] or [end -->]. *)
Definition markerOf (extensionName tail : text) (s : text) : option nat :=
  let head := lit "<!-- aif-ext:" ++ extensionName ++ lit ":" in
  if startsWith head s then
    let s1 := drop (length head) s in
    let n1 := fieldLength s1 in
    let s2 := drop (n1 + 1) s1 in
    let n2 := fieldLength s2 in
    if (0 <? n1) && startsWith [colon] (drop n1 s1)
       && (0 <? n2) && startsWith (colon :: tail) (drop n2 s2)
    then Some (length head + n1 + 1 + n2 + length (colon :: tail))
    else None
  else None.

Definition stripAllMarkersForExtension (content extensionName : text) : text :=
  replaceAll (markerOf extensionName (lit "start -->"))
             (markerOf extensionName (lit "end -->")) content.

(** The name token [stripInjectionsByExtensionName] looks for in a file. *)
Definition markerToken (extensionName : text) : text :=
  lit "aif-ext:" ++ extensionName ++ lit ":".

(** A marker block of the extension is somewhere in [content]: the
    expression of [extensionMarkerRegex] matches there. *)
Definition hasMarkerBlock (extensionName content : text) : bool :=
  hasMatch (markerOf extensionName (lit "start -->"))
           (markerOf extensionName (lit "end -->")) content.

(** ** Files that hold injections

    A text as [applyInjection] lays it out: stretches without the name
    token of the extension and, between them, marker blocks of the
    extension. *)

#[global] Instance Position_eq_dec : EqDecision Position.
Proof. solve_decision. Defined.

(** The target, the position and the text between the markers of a
    block. *)
Record MarkerBlock := {
  b_skill : text;
  b_position : Position;
  b_body : text;
}.

Definition blockText (extensionName : text) (b : MarkerBlock) : text :=
  startMarker extensionName (b_skill b) (positionText (b_position b)) ++ [nl]
    ++ b_body b ++ [nl]
    ++ endMarker extensionName (b_skill b) (positionText (b_position b)).

(** The text [first], then every block with the text that follows it. *)
Fixpoint render (extensionName : text) (first : text)
    (rest : list (MarkerBlock * text)) : text :=
  match rest with
  | [] => first
  | (b, after) :: rest' =>
      first ++ blockText extensionName b ++ render extensionName after rest'
  end.

(** [s] is without the name token of the extension. *)
Definition clean (extensionName s : text) : bool :=
  negb (includes (markerToken extensionName) s).

(** [s] ends with an empty line. *)
Definition endsBlank (s : text) : bool :=
  match rev s with
  | c :: d :: _ => N.eqb c nl && N.eqb d nl
  | _ => false
  end.

(** The text before a block: nothing or one line feed, where the block
    starts the file, or a text that ends with an empty line. *)
Definition leads (s : text) : bool :=
  bool_decide (s = []) || bool_decide (s = [nl]) || endsBlank s.

(** The text after a block: nothing, or a text that starts with a line
    feed. *)
Definition follows (s : text) : bool :=
  match s with
  | [] => true
  | c :: _ => N.eqb c nl
  end.

Fixpoint tidyRest (extensionName : text) (rest : list (MarkerBlock * text)) : bool :=
  match rest with
  | [] => true
  | (b, after) :: rest' =>
      negb (includes [nl] (b_skill b)) && clean extensionName (b_body b)
      && clean extensionName after && follows after
      && match rest' with
         | [] => true
         | _ :: _ => endsBlank after
         end
      && tidyRest extensionName rest'
  end.

(** The layout [applyInjection] keeps: the texts between the blocks and
    the bodies of the blocks are without the name token, every block is at
    the start of the file or after an empty line, and its end marker is
    followed by a line feed or ends the file. *)
Definition tidy (extensionName : text) (first : text)
    (rest : list (MarkerBlock * text)) : bool :=
  clean extensionName first
  && match rest with
     | [] => true
     | _ :: _ => leads first
     end
  && tidyRest extensionName rest.

(** [s] without its last code unit when that is a line feed, and without
    its first one when that is a line feed: the line feeds the expression
    takes around a block. *)
Fixpoint chopEnd (s : text) : text :=
  match s with
  | [] => []
  | [c] => if N.eqb c nl then [] else [c]
  | c :: t => c :: chopEnd t
  end.

Definition chopStart (s : text) : text := drop (optNl s) s.

(** The layout that is left when the blocks [hit] selects are taken out
    with the line feeds around them. *)
Fixpoint prune (hit : MarkerBlock -> bool) (first : text)
    (rest : list (MarkerBlock * text)) : text * list (MarkerBlock * text) :=
  match rest with
  | [] => (first, [])
  | (b, after) :: rest' =>
      if hit b then
        let left := prune hit (chopStart after) rest' in
        (chopEnd first ++ left.1, left.2)
      else
        let left := prune hit after rest' in
        (first, (b, left.1) :: left.2)
  end.

(** The block [b] is the block of the triple of [skillName] and
    [position]. *)
Definition sameTriple (skillName : text) (position : Position) (b : MarkerBlock)
    : bool :=
  bool_decide (b_skill b = skillName /\ b_position b = position).

(** The start marker of the triple of [skillName] and [position] is no part
    of the markers of [b]. *)
Definition markersApart (extensionName skillName : text) (position : Position)
    (b : MarkerBlock) : bool :=
  let start := startMarker extensionName skillName (positionText position) in
  negb (includes start
          (startMarker extensionName (b_skill b) (positionText (b_position b))))
  && negb (includes start
             (endMarker extensionName (b_skill b) (positionText (b_position b)))).

(** ** The file tree of the project

    A path is the list of its segments below the project directory;
    [path.join] is concatenation. *)

Definition path := list text.

#[local] Set Warnings "-register-all".
Inductive Node :=
| File (name : text) (content : text)
| Directory (name : text) (entries : list Node).

Definition nodeName (n : Node) : text :=
  match n with
  | File name _ => name
  | Directory name _ => name
  end.

Fixpoint lookupEntry (name : text) (entries : list Node) : option Node :=
  match entries with
  | [] => None
  | child :: rest =>
      if bool_decide (nodeName child = name) then Some child
      else lookupEntry name rest
  end.

Fixpoint updateEntry (name : text) (f : Node -> Node) (entries : list Node)
    : list Node :=
  match entries with
  | [] => []
  | child :: rest =>
      if bool_decide (nodeName child = name) then f child :: rest
      else child :: updateEntry name f rest
  end.

Fixpoint nodeAt (p : path) (n : Node) : option Node :=
  match p with
  | [] => Some n
  | s :: p' =>
      match n with
      | Directory _ entries =>
          match lookupEntry s entries with
          | Some child => nodeAt p' child
          | None => None
          end
      | File _ _ => None
      end
  end.

(** [readTextFile]: [None] is the [null] returned for a path that is not a
    readable file. *)
Definition readAt (p : path) (n : Node) : option text :=
  match nodeAt p n with
  | Some (File _ content) => Some content
  | _ => None
  end.

(** [writeTextFile] on a path that holds a file (the commands write only
    files they have just read). *)
Fixpoint writeAt (p : path) (content : text) (n : Node) : Node :=
  match p with
  | [] =>
      match n with
      | File name _ => File name content
      | Directory _ _ => n
      end
  | s :: p' =>
      match n with
      | Directory name entries =>
          Directory name (updateEntry s (writeAt p' content) entries)
      | File _ _ => n
      end
  end.

(** [entry.name.endsWith('.md')] *)
Definition endsWith (suffix s : text) : bool :=
  startsWith (rev suffix) (rev s).

(** [findMarkdownFiles(dir)] where [n] is what [dir] holds; the [catch]
    gives the empty list when [dir] cannot be read as a directory. *)
Fixpoint markdownFilesOf (dir : path) (n : Node) : list path :=
  match n with
  | File _ _ => []
  | Directory _ entries =>
      flat_map (fun entry =>
                  let fullPath := dir ++ [nodeName entry] in
                  match entry with
                  | Directory _ _ => markdownFilesOf fullPath entry
                  | File name _ =>
                      if endsWith (lit ".md") name then [fullPath] else []
                  end) entries
  end.

Definition findMarkdownFiles (root : Node) (dir : path) : list path :=
  match nodeAt dir root with
  | Some n => markdownFilesOf dir n
  | None => []
  end.

(** ** Configuration and manifests (core/config.ts, core/extensions.ts) *)

Record ExtensionRecord := {
  ext_name : text;
  ext_source : text;
  ext_version : text;
  replacedSkills : option (list text);
}.

Record AgentInstallation := {
  agent_id : text;
  skillsDir : path;
  installedSkills : list text;
}.

#[global] Instance ExtensionRecord_eq_dec : EqDecision ExtensionRecord.
Proof. solve_decision. Defined.

#[global] Instance AgentInstallation_eq_dec : EqDecision AgentInstallation.
Proof. solve_decision. Defined.

Record AiFactoryConfig := {
  cfg_version : text;
  agents : list AgentInstallation;
  extensions : option (list ExtensionRecord);
}.

#[global] Instance AiFactoryConfig_eq_dec : EqDecision AiFactoryConfig.
Proof. solve_decision. Defined.

Record Injection := {
  target : text;
  position : Position;
  file : path;
}.

Record McpServer := {
  key : text;
  template : path;
}.

(** [replaces] is a JavaScript object: its entries in property order. *)
Record ExtensionManifest := {
  m_name : text;
  m_version : text;
  skills : option (list text);
  replaces : option (list (text * text));
  injections : option (list Injection);
  mcpServers : option (list McpServer);
}.

Record TransformResult := {
  flat : bool;
  targetDir : path;
  targetName : text;
}.

Record AgentConfig := {
  configDir : path;
  supportsMcp : bool;
}.

(** [xs?.length] as a condition: defined and not empty. *)
Definition hasLength {A : Type} (xs : option (list A)) : bool :=
  match xs with
  | Some (_ :: _) => true
  | _ => false
  end.

(** [xs ?? []] *)
Definition orEmpty {A : Type} (xs : option (list A)) : list A := default [] xs.

(** [extensions.findIndex(e => e.name === name)] *)
Fixpoint findIndex (name : text) (extensions : list ExtensionRecord) : option nat :=
  match extensions with
  | [] => None
  | e :: rest =>
      if bool_decide (ext_name e = name) then Some 0
      else S <$> findIndex name rest
  end.

(** [new Set(xs)] spread into an array: the elements in order of first
    occurrence. *)
Fixpoint distinct (xs : list text) : list text :=
  match xs with
  | [] => []
  | x :: rest => x :: filter (fun y => y <> x) (distinct rest)
  end.

(** ** What the commands do to the project, in order *)

Inductive Event :=
| CommitInstall (name : text)
| RemoveFiles (name : text)
| WriteFile (p : path) (content : text)
| InstallExtensionSkills (agent : text) (paths : list text)
    (nameOverrides : option (list (text * text))) (installed : list text)
| RemoveExtensionSkills (agent : text) (names : list text)
| InstallSkills (agent : text) (names : list text)
| UpdateSkills (agent : text) (excluded : list text)
| ConfigureMcp (agent : text) (key : text)
| RemoveMcp (agent : text) (keys : list text)
| SaveConfig (config : AiFactoryConfig).

#[global] Instance Event_eq_dec : EqDecision Event.
Proof. solve_decision. Defined.

Definition isSaveConfig (e : Event) : bool :=
  match e with
  | SaveConfig _ => true
  | _ => false
  end.

Definition isWriteFile (e : Event) : bool :=
  match e with
  | WriteFile _ _ => true
  | _ => false
  end.

(** The effects on installed skills and on the extension storage. *)
Definition isSkillStep (e : Event) : bool :=
  match e with
  | CommitInstall _ | RemoveFiles _ | InstallExtensionSkills _ _ _ _
  | RemoveExtensionSkills _ _ | InstallSkills _ _ | UpdateSkills _ _ => true
  | _ => false
  end.

(** The effects of the injection engine and of the MCP configuration. *)
Definition isInjectionOrMcp (e : Event) : bool :=
  match e with
  | WriteFile _ _ | ConfigureMcp _ _ | RemoveMcp _ _ => true
  | _ => false
  end.

Definition isInstallSkills (e : Event) : bool :=
  match e with
  | InstallSkills _ _ => true
  | _ => false
  end.

(** An installation of replacement skills: [installExtensionSkills] called
    with name overrides. *)
Definition isReplacementInstall (e : Event) : bool :=
  match e with
  | InstallExtensionSkills _ _ (Some _) _ => true
  | _ => false
  end.

(** Neither the write of the store nor an installation of replacement
    skills. *)
Definition isOtherStep (e : Event) : bool :=
  negb (isSaveConfig e) && negb (isReplacementInstall e).

(** The calls for the agents returned [results], one list for each agent:
    the replacement of [baseSkillName] was installed for every agent, for
    at least one agent. *)
Definition installedOnAll (results : list (list text)) (baseSkillName : text) : bool :=
  forallb (fun installed => bool_decide (baseSkillName ∈ installed)) results.

Definition installedOnSome (results : list (list text)) (baseSkillName : text) : bool :=
  existsb (fun installed => bool_decide (baseSkillName ∈ installed)) results.

Definition isNotSave (e : Event) : bool := negb (isSaveConfig e).

Definition isUpdateSkills (e : Event) : bool :=
  match e with
  | UpdateSkills _ _ => true
  | _ => false
  end.

Definition isConfigureMcp (e : Event) : bool :=
  match e with
  | ConfigureMcp _ _ => true
  | _ => false
  end.

(** Neither the write of the store nor a call of [installSkills]. *)
Definition isQuietStep (e : Event) : bool :=
  negb (isSaveConfig e) && negb (isInstallSkills e).

(** The effects after the first [SaveConfig]. *)
Fixpoint afterSave (l : list Event) : list Event :=
  match l with
  | [] => []
  | SaveConfig _ :: rest => rest
  | _ :: rest => afterSave rest
  end.

(** How often [x] occurs in [l]. *)
Definition occurrences (x : text) (l : list text) : nat :=
  length (filter (fun y => y = x) l).

(** The skills a record owns. *)
Definition owned (r : ExtensionRecord) : list text := orEmpty (replacedSkills r).

(** The store is well formed: a name identifies a record, and no base
    skill is owned by two records. *)
Definition exclusive (exts : list ExtensionRecord) : Prop :=
  NoDup (map ext_name exts) /\
  forall i j r1 r2 s,
    i <> j -> exts !! i = Some r1 -> exts !! j = Some r2 ->
    s ∈ owned r1 -> s ∈ owned r2 -> False.

Definition storeExclusive (d : option AiFactoryConfig) : Prop :=
  match d with
  | Some config => exclusive (orEmpty (extensions config))
  | None => True
  end.

(** [exts'] holds the records of [exts] with the same names, each owning
    no more than before. *)
Definition shrunk (exts exts' : list ExtensionRecord) : Prop :=
  Forall2 (fun e e' => ext_name e' = ext_name e /\ owned e' ⊆ owned e) exts exts'.

(** The names in the store, each with the skills its record owns. *)
Definition ownedInStore (d : option AiFactoryConfig) : list (text * list text) :=
  match d with
  | Some config =>
      map (fun e => (ext_name e, owned e)) (orEmpty (extensions config))
  | None => []
  end.

(** How a command ends: normally, or through [process.exit(1)]. *)
Inductive Failure :=
| NoConfig
| ResolveFailed
| NotInstalled (name : text)
| Conflict (baseSkillName other : text).

Inductive Outcome :=
| Done
| Exit (reason : Failure).

Section Reconciler.
(** [X]: what the project holds besides the text files (installed skill
    directories, the extension storage, agent settings); [R]: the files of
    a resolved extension; [J]: an MCP template. *)
Context {X R J : Type}.

Record World := {
  tree : Node;
  aux : X;
}.

(** The functions of core/extensions.ts, core/installer.ts, core/mcp.ts,
    core/agents.ts and core/transformer.ts that the commands call.  Their
    sources are not part of the embedding: the properties below hold for
    every behaviour of them.  An exception thrown by one of them ends the
    command through its [catch] and [process.exit(1)]; only the exceptions
    the commands raise themselves are embedded. *)
Record Collaborators := {
  resolveExtension : World -> text -> option (ExtensionManifest * R);
  commitExtensionInstall : ExtensionManifest * R -> World -> World;
  loadExtensionManifest : World -> path -> option ExtensionManifest;
  loadAllExtensions : World -> list text -> list (path * ExtensionManifest);
  removeExtensionFiles : text -> World -> World;
  installExtensionSkills :
    AgentInstallation -> path -> list text -> option (list (text * text)) ->
    World -> list text * World;
  removeExtensionSkills :
    AgentInstallation -> list text -> World -> list text * World;
  installSkills : AgentInstallation -> list text -> World -> World;
  updateSkills : AgentInstallation -> list text -> World -> list text * World;
  getAvailableSkills : list text;
  getCurrentVersion : text;
  transform : text -> text -> TransformResult;
  getAgentConfig : text -> AgentConfig;
  readJsonFile : World -> path -> option J;
  configureExtensionMcpServers : text -> text -> J -> World -> list text * World;
  removeExtensionMcpServers : text -> list text -> World -> World;
}.

Variable C : Collaborators.

(** The state a command runs in: the project, the persisted
    [.ai-factory.json] ([None] when the file is missing) and the effects
    performed so far. *)
Record State := {
  world : World;
  disk : option AiFactoryConfig;
  log : list Event;
}.

Definition M (A : Type) : Type := State -> A * State.

Definition ret {A : Type} (a : A) : M A := fun st => (a, st).

Definition bind {A B : Type} (m : M A) (k : A -> M B) : M B :=
  fun st => let (a, st') := m st in k a st'.

(** The result and the final state of running [m] from [st]. *)
Definition eval {A : Type} (m : M A) (st : State) : A := (m st).1.
Definition exec {A : Type} (m : M A) (st : State) : State := (m st).2.

(** [m] leaves the persisted configuration as it is and performs only
    effects of the class [P]. *)
Definition emits {A : Type} (P : Event -> bool) (m : M A) : Prop :=
  forall st, disk (exec m st) = disk st /\
             exists l, log (exec m st) = log st ++ l /\ forallb P l = true.

Notation "x <- m ;; k" := (bind m (fun x => k))
  (at level 100, m at next level, right associativity).
Notation "m ;;; k" := (bind m (fun _ => k))
  (at level 100, right associativity).

(** [for (const x of xs) body(x)] *)
Fixpoint forEach {A : Type} (xs : list A) (body : A -> M unit) : M unit :=
  match xs with
  | [] => ret tt
  | x :: rest => body x ;;; forEach rest body
  end.

(** A loop that updates local variables [b]. *)
Fixpoint foldM {A B : Type} (body : B -> A -> M B) (b : B) (xs : list A) : M B :=
  match xs with
  | [] => ret b
  | x :: rest => b' <- body b x ;; foldM body b' rest
  end.

Definition when (b : bool) (m : M unit) : M unit := if b then m else ret tt.

Definition emit (e : Event) : M unit :=
  fun st => (tt, {| world := world st; disk := disk st; log := log st ++ [e] |}).

Definition ask {A : Type} (f : World -> A) : M A := fun st => (f (world st), st).

Definition act {A : Type} (f : World -> A * World) : M A :=
  fun st => let (a, w) := f (world st) in
            (a, {| world := w; disk := disk st; log := log st |}).

Definition loadConfig : M (option AiFactoryConfig) := fun st => (disk st, st).

Definition saveConfig (config : AiFactoryConfig) : M unit :=
  fun st => (tt, {| world := world st; disk := Some config;
                    log := log st ++ [SaveConfig config] |}).

Definition readTextFile (p : path) : M (option text) :=
  ask (fun w => readAt p (tree w)).

Definition writeTextFile (p : path) (content : text) : M unit :=
  act (fun w => (tt, {| tree := writeAt p content (tree w); aux := aux w |})) ;;;
  emit (WriteFile p content).

Definition doCommitExtensionInstall (resolved : ExtensionManifest * R) : M unit :=
  act (fun w => (tt, commitExtensionInstall C resolved w)) ;;;
  emit (CommitInstall (m_name resolved.1)).

Definition doRemoveExtensionFiles (name : text) : M unit :=
  act (fun w => (tt, removeExtensionFiles C name w)) ;;;
  emit (RemoveFiles name).

Definition doInstallExtensionSkills (agent : AgentInstallation)
    (extensionDir : path) (paths : list text)
    (nameOverrides : option (list (text * text))) : M (list text) :=
  installed <- act (installExtensionSkills C agent extensionDir paths nameOverrides) ;;
  emit (InstallExtensionSkills (agent_id agent) paths nameOverrides installed) ;;;
  ret installed.

Definition doRemoveExtensionSkills (agent : AgentInstallation)
    (names : list text) : M (list text) :=
  removed <- act (removeExtensionSkills C agent names) ;;
  emit (RemoveExtensionSkills (agent_id agent) names) ;;;
  ret removed.

Definition doInstallSkills (agent : AgentInstallation) (names : list text) : M unit :=
  act (fun w => (tt, installSkills C agent names w)) ;;;
  emit (InstallSkills (agent_id agent) names).

Definition doUpdateSkills (agent : AgentInstallation) (excluded : list text)
    : M (list text) :=
  installed <- act (updateSkills C agent excluded) ;;
  emit (UpdateSkills (agent_id agent) excluded) ;;;
  ret installed.

(** The loops [for (const agent of config.agents)] around one call, on
    the project: the calls are made in the order of the agents, each on
    the project the previous one left. *)
Definition removeFromAgents (agentList : list AgentInstallation)
    (names : list text) (w : World) : World :=
  foldl (fun w agent => (removeExtensionSkills C agent names w).2) w agentList.

Definition installOnAgents (agentList : list AgentInstallation)
    (names : list text) (w : World) : World :=
  foldl (fun w agent => installSkills C agent names w) w agentList.

Definition removeMcpFromAgents (agentList : list AgentInstallation)
    (keys : list text) (w : World) : World :=
  foldl (fun w agent => removeExtensionMcpServers C (agent_id agent) keys w)
    w agentList.

(** [.ai-factory/extensions/<name>] *)
Definition getExtensionsDir : path := [lit ".ai-factory"; lit "extensions"].
Definition extensionDirOf (name : text) : path := getExtensionsDir ++ [name].

(** *** injections.ts: the injection engine *)

Definition getSkillFilePath (agent : AgentInstallation) (skillName : text) : path :=
  let result := transform C (agent_id agent) skillName in
  let agentConfig := getAgentConfig C (agent_id agent) in
  if flat result
  then configDir agentConfig ++ targetDir result ++ [targetName result]
  else skillsDir agent ++ targetDir result ++ [lit "SKILL.md"].

(** The body of the loop over [manifest.injections] in
    [applyExtensionInjections] and [applySingleExtensionInjections]. *)
Definition applyOneInjection (agent : AgentInstallation) (dir : path)
    (extensionName : text) (count : nat) (injection : Injection) : M nat :=
  let skillFilePath := getSkillFilePath agent (target injection) in
  skillContent <- readTextFile skillFilePath ;;
  match skillContent with
  | Some (c :: s) =>
      injectionContent <- readTextFile (dir ++ file injection) ;;
      match injectionContent with
      | Some (d :: b) =>
          writeTextFile skillFilePath
            (applyInjection (c :: s) (d :: b) (position injection)
               extensionName (target injection)) ;;;
          ret (S count)
      | _ => ret count
      end
  | _ => ret count
  end.

Definition applySingleExtensionInjections (agent : AgentInstallation)
    (extensionDir : path) (manifest : ExtensionManifest) : M nat :=
  if hasLength (injections manifest) then
    foldM (applyOneInjection agent extensionDir (m_name manifest)) 0
      (orEmpty (injections manifest))
  else ret 0.

Definition applyExtensionInjections (agent : AgentInstallation)
    (registeredExtensions : list ExtensionRecord) : M nat :=
  let names := map ext_name registeredExtensions in
  loaded <- ask (fun w => loadAllExtensions C w names) ;;
  foldM (fun count (e : path * ExtensionManifest) =>
           if hasLength (injections e.2) then
             foldM (applyOneInjection agent e.1 (m_name e.2)) count
               (orEmpty (injections e.2))
           else ret count) 0 loaded.

(** The body of the loop over [manifest.injections] in
    [stripAllExtensionInjections]. *)
Definition stripOneInjection (agent : AgentInstallation)
    (extensionName : text) (injection : Injection) : M unit :=
  let skillFilePath := getSkillFilePath agent (target injection) in
  skillContent <- readTextFile skillFilePath ;;
  match skillContent with
  | Some (c :: s) =>
      let updated :=
        stripInjection (c :: s) extensionName (target injection)
          (positionText (position injection)) in
      when (bool_decide (updated <> c :: s))
        (writeTextFile skillFilePath updated)
  | _ => ret tt
  end.

Definition stripAllExtensionInjections (agent : AgentInstallation)
    (extensionName : text) (manifest : ExtensionManifest) : M unit :=
  if hasLength (injections manifest) then
    forEach (orEmpty (injections manifest))
      (stripOneInjection agent extensionName)
  else ret tt.

(** The body of the loop over the files in
    [stripInjectionsByExtensionName]. *)
Definition stripMarkersInFile (extensionName : text) (filePath : path) : M unit :=
  content <- readTextFile filePath ;;
  match content with
  | Some (c :: s) =>
      if includes (markerToken extensionName) (c :: s) then
        let updated := stripAllMarkersForExtension (c :: s) extensionName in
        when (bool_decide (updated <> c :: s)) (writeTextFile filePath updated)
      else ret tt
  | _ => ret tt
  end.

Definition stripInjectionsByExtensionName (agent : AgentInstallation)
    (extensionName : text) : M unit :=
  let agentConfig := getAgentConfig C (agent_id agent) in
  files <- ask (fun w => findMarkdownFiles (tree w) (configDir agentConfig)) ;;
  forEach files (stripMarkersInFile extensionName).

(** *** extension.ts: extensionAddCommand *)

(** The first extension other than [name] whose record lists
    [baseSkillName] (the inner loop of the conflict check). *)
Fixpoint firstOwner (name baseSkillName : text)
    (exts : list ExtensionRecord) : option text :=
  match exts with
  | [] => None
  | other :: rest =>
      if bool_decide (ext_name other = name) then firstOwner name baseSkillName rest
      else if bool_decide (baseSkillName ∈ orEmpty (replacedSkills other))
           then Some (ext_name other)
           else firstOwner name baseSkillName rest
  end.

(** "Block conflicting replacements BEFORE copying any files": the base
    skill and the owner named by the error that is thrown. *)
Fixpoint findConflict (name : text) (entries : list (text * text))
    (exts : list ExtensionRecord) : option (text * text) :=
  match entries with
  | [] => None
  | (_, baseSkillName) :: rest =>
      match firstOwner name baseSkillName exts with
      | Some other => Some (baseSkillName, other)
      | None => findConflict name rest exts
      end
  end.

(** "Clean up old state on re-install" *)
Definition cleanUpOldState (agentList : list AgentInstallation)
    (manifest : ExtensionManifest) (oldRecord : ExtensionRecord)
    (oldManifest : option ExtensionManifest) : M unit :=
  forEach agentList (fun agent =>
    stripInjectionsByExtensionName agent (m_name manifest)) ;;;
  (if hasLength (replacedSkills oldRecord) then
     let old := orEmpty (replacedSkills oldRecord) in
     forEach agentList (fun agent =>
       doRemoveExtensionSkills agent old ;;; ret tt) ;;;
     let available := getAvailableSkills C in
     let toRestore := filter (fun s => s ∈ available) old in
     when (0 <? length toRestore)
       (forEach agentList (fun agent => doInstallSkills agent toRestore))
   else ret tt) ;;;
  match oldManifest with
  | Some om =>
      if hasLength (skills om) then
        let oldReplacesPaths := map fst (orEmpty (replaces om)) in
        let oldCustomSkills :=
          filter (fun s => s ∉ oldReplacesPaths) (orEmpty (skills om)) in
        when (0 <? length oldCustomSkills)
          (forEach agentList (fun agent =>
             doRemoveExtensionSkills agent oldCustomSkills ;;; ret tt))
      else ret tt
  | None => ret tt
  end.

(** [perAgentResults.set(name, (perAgentResults.get(name) ?? 0) + 1)] *)
Definition bump (perAgentResults : gmap text nat) (name : text) : gmap text nat :=
  <[name := default 0 (perAgentResults !! name) + 1]> perAgentResults.

(** The loop over the agents that fills [perAgentResults]. *)
Definition countInstalled (agentList : list AgentInstallation)
    (extensionDir : path) (replacePaths : list text)
    (nameOverrides : list (text * text)) : M (gmap text nat) :=
  foldM (fun perAgentResults agent =>
           installed <- doInstallExtensionSkills agent extensionDir
                          replacePaths (Some nameOverrides) ;;
           ret (foldl bump perAgentResults installed))
        ∅ agentList.

(** The body of the loop over [Object.entries(manifest.replaces)]; the
    local variables are [replacedSkills] and [replacesPaths]. *)
Definition settleReplacement (agentList : list AgentInstallation)
    (perAgentResults : gmap text nat) (acc : list text * list text)
    (entry : text * text) : M (list text * list text) :=
  let extSkillPath := entry.1 in
  let baseSkillName := entry.2 in
  let replacesPaths := acc.2 ++ [extSkillPath] in
  let agentCount := length agentList in
  let successCount := default 0 (perAgentResults !! baseSkillName) in
  if bool_decide (successCount = agentCount) then
    ret (acc.1 ++ [baseSkillName], replacesPaths)
  else if 0 <? successCount then
    forEach agentList (fun agent =>
      doRemoveExtensionSkills agent [baseSkillName] ;;; ret tt) ;;;
    when (bool_decide (baseSkillName ∈ getAvailableSkills C))
      (forEach agentList (fun agent => doInstallSkills agent [baseSkillName])) ;;;
    ret (acc.1, replacesPaths)
  else ret (acc.1, replacesPaths).

(** "Install replacement skills — only track successfully installed
    ones": the result is [(replacedSkills, replacesPaths)]. *)
Definition installReplacementSkills (agentList : list AgentInstallation)
    (extensionDir : path) (manifest : ExtensionManifest)
    : M (list text * list text) :=
  match replaces manifest with
  | Some (e :: es) =>
      let entries := e :: es in
      perAgentResults <- countInstalled agentList extensionDir
                           (map fst entries) entries ;;
      foldM (settleReplacement agentList perAgentResults) ([], []) entries
  | _ => ret ([], [])
  end.

(** "Install extension custom skills (excluding replacements)" *)
Definition installCustomSkills (agentList : list AgentInstallation)
    (extensionDir : path) (manifest : ExtensionManifest)
    (replacesPaths : list text) : M unit :=
  if hasLength (skills manifest) then
    let nonReplacementSkills :=
      filter (fun s => s ∉ replacesPaths) (orEmpty (skills manifest)) in
    when (0 <? length nonReplacementSkills)
      (forEach agentList (fun agent =>
         doInstallExtensionSkills agent extensionDir nonReplacementSkills None ;;;
         ret tt))
  else ret tt.

(** "Save config AFTER all installations succeed" *)
Definition makeRecord (manifest : ExtensionManifest) (source : text)
    (replaced : list text) : ExtensionRecord := {|
  ext_name := m_name manifest;
  ext_source := source;
  ext_version := m_version manifest;
  replacedSkills := if 0 <? length replaced then Some replaced else None;
|}.

(** [extensions[existIdx] = record] or [extensions.push(record)] *)
Definition putRecord (exts : list ExtensionRecord) (existIdx : option nat)
    (record : ExtensionRecord) : list ExtensionRecord :=
  match existIdx with
  | Some i => <[i := record]> exts
  | None => exts ++ [record]
  end.

Definition withExtensions (config : AiFactoryConfig)
    (exts : list ExtensionRecord) : AiFactoryConfig :=
  {| cfg_version := cfg_version config;
     agents := agents config;
     extensions := Some exts |}.

Definition saveRecord (config : AiFactoryConfig) (exts : list ExtensionRecord)
    (existIdx : option nat) (manifest : ExtensionManifest) (source : text)
    (replaced : list text) : M unit :=
  let record := makeRecord manifest source replaced in
  saveConfig (withExtensions config (putRecord exts existIdx record)).

Definition applyExtensionMcp (agentIds : list text) (extensionDir : path)
    (manifest : ExtensionManifest) : M (list text) :=
  if hasLength (mcpServers manifest) then
    foldM (fun allConfigured srv =>
      template <- ask (fun w => readJsonFile C w (extensionDir ++ template srv)) ;;
      match template with
      | None => ret allConfigured
      | Some tpl =>
          foldM (fun allConfigured agentId =>
            if supportsMcp (getAgentConfig C agentId) then
              configured <- act (configureExtensionMcpServers C agentId (key srv) tpl) ;;
              emit (ConfigureMcp agentId (key srv)) ;;;
              if (0 <? length configured)
                 && negb (bool_decide (key srv ∈ allConfigured))
              then ret (allConfigured ++ [key srv])
              else ret allConfigured
            else ret allConfigured) allConfigured agentIds
      end) [] (orEmpty (mcpServers manifest))
  else ret [].

Definition extensionAddCommand (source : text) : M Outcome :=
  config <- loadConfig ;;
  match config with
  | None => ret (Exit NoConfig)
  | Some config =>
      let exts := orEmpty (extensions config) in
      resolved <- ask (fun w => resolveExtension C w source) ;;
      match resolved with
      | None => ret (Exit ResolveFailed)
      | Some resolved =>
          let manifest := resolved.1 in
          let existIdx := findIndex (m_name manifest) exts in
          let oldRecord := existIdx ≫= (fun i => exts !! i) in
          oldManifest <-
            (match existIdx with
             | Some _ =>
                 ask (fun w => loadExtensionManifest C w
                                 (extensionDirOf (m_name manifest)))
             | None => ret None
             end) ;;
          match findConflict (m_name manifest) (orEmpty (replaces manifest)) exts with
          | Some (baseSkillName, other) =>
              ret (Exit (Conflict baseSkillName other))
          | None =>
              doCommitExtensionInstall resolved ;;;
              (match oldRecord with
               | Some oldRecord =>
                   cleanUpOldState (agents config) manifest oldRecord oldManifest
               | None => ret tt
               end) ;;;
              let extensionDir := extensionDirOf (m_name manifest) in
              installed <- installReplacementSkills (agents config)
                             extensionDir manifest ;;
              installCustomSkills (agents config) extensionDir manifest
                installed.2 ;;;
              saveRecord config exts existIdx manifest source installed.1 ;;;
              (if hasLength (injections manifest) then
                 foldM (fun totalInjections agent =>
                          count <- applySingleExtensionInjections agent
                                     extensionDir manifest ;;
                          ret (totalInjections + count)) 0 (agents config) ;;;
                 ret tt
               else ret tt) ;;;
              (if hasLength (mcpServers manifest) then
                 applyExtensionMcp (map agent_id (agents config))
                   extensionDir manifest ;;; ret tt
               else ret tt) ;;;
              ret Done
          end
      end
  end.

(** The parts of [extensionAddCommand] around "Install replacement
    skills", by themselves.  What comes before: the manifest of the
    installed extension is loaded, the resolved files are committed and the
    old state is cleaned up. *)
Definition prepareInstall (config : AiFactoryConfig)
    (resolved : ExtensionManifest * R) : M unit :=
  let manifest := resolved.1 in
  let exts := orEmpty (extensions config) in
  let existIdx := findIndex (m_name manifest) exts in
  let oldRecord := existIdx ≫= (fun i => exts !! i) in
  oldManifest <-
    (match existIdx with
     | Some _ =>
         ask (fun w => loadExtensionManifest C w (extensionDirOf (m_name manifest)))
     | None => ret None
     end) ;;
  doCommitExtensionInstall resolved ;;;
  match oldRecord with
  | Some oldRecord => cleanUpOldState (agents config) manifest oldRecord oldManifest
  | None => ret tt
  end.

(** What comes after the configuration is saved: "Apply injections for
    all agents" and "Configure MCP servers for all agents that support
    it". *)
Definition applyInjectionsAndMcp (agentList : list AgentInstallation)
    (extensionDir : path) (manifest : ExtensionManifest) : M unit :=
  (if hasLength (injections manifest) then
     foldM (fun totalInjections agent =>
              count <- applySingleExtensionInjections agent extensionDir manifest ;;
              ret (totalInjections + count)) 0 agentList ;;;
     ret tt
   else ret tt) ;;;
  (if hasLength (mcpServers manifest) then
     applyExtensionMcp (map agent_id agentList) extensionDir manifest ;;; ret tt
   else ret tt).

(** *** extension.ts: extensionRemoveCommand *)

(** "Strip injections before removing files" *)
Definition stripForRemoval (agentList : list AgentInstallation) (name : text)
    (manifest : option ExtensionManifest) : M unit :=
  forEach agentList (fun agent =>
    match manifest with
    | Some m => stripAllExtensionInjections agent name m
    | None => stripInjectionsByExtensionName agent name
    end).

(** The directives of [m] whose skill file is [p], in the order in which
    the loop over the agents and the loop over [m.injections] come to
    them. *)
Definition visits (agentList : list AgentInstallation) (m : ExtensionManifest)
    (p : path) : list Injection :=
  flat_map (fun agent =>
              filter (fun d => getSkillFilePath agent (target d) = p)
                (orEmpty (injections m))) agentList.

(** The skills still replaced by the records in [others]. *)
Definition stillReplacedBy (others : list ExtensionRecord) : gset text :=
  list_to_set (flat_map (fun other => orEmpty (replacedSkills other)) others).

(** "Only restore base skills if no other extension replaces them" *)
Definition restoreAfterRemoval (agentList : list AgentInstallation)
    (exts : list ExtensionRecord) (index : nat) (extRecord : ExtensionRecord)
    : M unit :=
  if hasLength (replacedSkills extRecord) then
    let otherExtensions := delete index exts in
    let stillReplaced := stillReplacedBy otherExtensions in
    let available := getAvailableSkills C in
    let toRestore :=
      filter (fun s => s ∈ available /\ s ∉ stillReplaced)
        (orEmpty (replacedSkills extRecord)) in
    when (0 <? length toRestore)
      (forEach agentList (fun agent => doInstallSkills agent toRestore))
  else ret tt.

(** The base skills [restoreAfterRemoval] reinstalls. *)
Definition restoredAfterRemoval (exts : list ExtensionRecord) (index : nat)
    (extRecord : ExtensionRecord) : list text :=
  filter (fun s => s ∈ getAvailableSkills C
                   /\ s ∉ stillReplacedBy (delete index exts))
    (orEmpty (replacedSkills extRecord)).

Definition extensionRemoveCommand (name : text) : M Outcome :=
  config <- loadConfig ;;
  match config with
  | None => ret (Exit NoConfig)
  | Some config =>
      let exts := orEmpty (extensions config) in
      match findIndex name exts with
      | None => ret (Exit (NotInstalled name))
      | Some index =>
          match exts !! index with
          | None => ret (Exit (NotInstalled name))
          | Some extRecord =>
              manifest <- ask (fun w => loadExtensionManifest C w (extensionDirOf name)) ;;
              stripForRemoval (agents config) name manifest ;;;
              when (hasLength (replacedSkills extRecord))
                (forEach (agents config) (fun agent =>
                   doRemoveExtensionSkills agent
                     (orEmpty (replacedSkills extRecord)) ;;; ret tt)) ;;;
              (match manifest with
               | Some m =>
                   if hasLength (skills m) then
                     let replacesPaths := map fst (orEmpty (replaces m)) in
                     let customSkillPaths :=
                       filter (fun s => s ∉ replacesPaths) (orEmpty (skills m)) in
                     when (0 <? length customSkillPaths)
                       (forEach (agents config) (fun agent =>
                          doRemoveExtensionSkills agent customSkillPaths ;;; ret tt))
                   else ret tt
               | None => ret tt
               end) ;;;
              restoreAfterRemoval (agents config) exts index extRecord ;;;
              (match manifest with
               | Some m =>
                   if hasLength (mcpServers m) then
                     let mcpKeys := map key (orEmpty (mcpServers m)) in
                     forEach (agents config) (fun agent =>
                       act (fun w => (tt, removeExtensionMcpServers C
                                            (agent_id agent) mcpKeys w)) ;;;
                       emit (RemoveMcp (agent_id agent) mcpKeys))
                   else ret tt
               | None => ret tt
               end) ;;;
              doRemoveExtensionFiles name ;;;
              saveConfig (withExtensions config (delete index exts)) ;;;
              ret Done
          end
      end
  end.

(** *** update.ts: updateCommand *)

Definition withReplacedSkills (ext : ExtensionRecord) (rs : list text)
    : ExtensionRecord :=
  {| ext_name := ext_name ext; ext_source := ext_source ext;
     ext_version := ext_version ext; replacedSkills := Some rs |}.

(** The body of the loop "Re-install replacement skills from extensions".
    The records are objects changed in place: [acc.2] holds the records
    already visited, as they are after the visit. *)
Definition reinstallReplacements (agentList : list AgentInstallation)
    (acc : list text * list ExtensionRecord) (ext : ExtensionRecord)
    : M (list text * list ExtensionRecord) :=
  let failedReplacements := acc.1 in
  if negb (hasLength (replacedSkills ext)) then
    ret (failedReplacements, acc.2 ++ [ext])
  else
    let owned := orEmpty (replacedSkills ext) in
    let extensionDir := extensionDirOf (ext_name ext) in
    manifest <- ask (fun w => loadExtensionManifest C w extensionDir) ;;
    match manifest ≫= replaces with
    | None =>
        ret (failedReplacements ++ owned, acc.2 ++ [withReplacedSkills ext []])
    | Some entries =>
        let manifestBaseSkills := map snd entries in
        let replacePaths :=
          map fst (filter (fun e : text * text => e.2 ∈ owned) entries) in
        let orphanedReplacements :=
          filter (fun s => s ∉ manifestBaseSkills) owned in
        let released := 0 <? length orphanedReplacements in
        when (0 <? length replacePaths)
          (forEach agentList (fun agent =>
             doInstallExtensionSkills agent extensionDir replacePaths
               (Some entries) ;;; ret tt)) ;;;
        ret (if released then failedReplacements ++ orphanedReplacements
             else failedReplacements,
             acc.2 ++ [if released
                       then withReplacedSkills ext
                              (filter (fun s => s ∈ manifestBaseSkills) owned)
                       else ext])
    end.

(** "Install base skills that couldn't be replaced due to broken
    extensions.  But only if no other extension still replaces them" *)
Definition restoreFailedReplacements (agentList : list AgentInstallation)
    (failedReplacements : list text) (exts : list ExtensionRecord) : M unit :=
  if 0 <? length failedReplacements then
    let stillReplacedByOthers := stillReplacedBy exts in
    let toRestore :=
      filter (fun s => s ∉ stillReplacedByOthers) failedReplacements in
    when (0 <? length toRestore)
      (forEach agentList (fun agent => doInstallSkills agent toRestore))
  else ret tt.

Definition updateCommand : M Outcome :=
  config <- loadConfig ;;
  match config with
  | None => ret (Exit NoConfig)
  | Some config =>
      let exts := orEmpty (extensions config) in
      let allReplacedSkills :=
        distinct (flat_map (fun ext => orEmpty (replacedSkills ext)) exts) in
      agentList <- foldM (fun updated agent =>
                      installed <- doUpdateSkills agent allReplacedSkills ;;
                      ret (updated ++ [{| agent_id := agent_id agent;
                                          skillsDir := skillsDir agent;
                                          installedSkills := installed |}]))
                     [] (agents config) ;;
      result <- foldM (reinstallReplacements agentList) ([], []) exts ;;
      restoreFailedReplacements agentList result.1 result.2 ;;;
      (if hasLength (extensions config) then
         foldM (fun totalInjections agent =>
                  count <- applyExtensionInjections agent result.2 ;;
                  ret (totalInjections + count)) 0 agentList ;;;
         ret tt
       else ret tt) ;;;
      saveConfig {| cfg_version := getCurrentVersion C;
                    agents := agentList;
                    extensions := match extensions config with
                                  | Some _ => Some result.2
                                  | None => None
                                  end |} ;;;
      ret Done
  end.
(** *** The commands as operations on the store *)

Inductive Command :=
| CmdAdd (source : text)
| CmdUpdate
| CmdRemove (name : text).

Definition runCommand (c : Command) : M Outcome :=
  match c with
  | CmdAdd source => extensionAddCommand source
  | CmdUpdate => updateCommand
  | CmdRemove name => extensionRemoveCommand name
  end.

Definition runAll (cs : list Command) (st : State) : State :=
  foldl (fun st c => exec (runCommand c) st) st cs.

(** The effects of the loop that fills [perAgentResults], when the call
    for the i-th agent returns the i-th list of [results]. *)
Definition installEvents (agentList : list AgentInstallation)
    (replacePaths : list text) (nameOverrides : list (text * text))
    (results : list (list text)) : list Event :=
  zip_with (fun agent installed =>
              InstallExtensionSkills (agent_id agent) replacePaths
                (Some nameOverrides) installed) agentList results.

(** The effects of the rollback of one replacement that was installed
    [successCount] times. *)
Definition rollbackEvents (agentList : list AgentInstallation)
    (successCount : nat) (baseSkillName : text) : list Event :=
  if bool_decide (successCount = length agentList) then []
  else if 0 <? successCount then
    map (fun agent => RemoveExtensionSkills (agent_id agent) [baseSkillName])
      agentList
    ++ (if bool_decide (baseSkillName ∈ getAvailableSkills C)
        then map (fun agent => InstallSkills (agent_id agent) [baseSkillName])
               agentList
        else [])
  else [].

(** The replacements that count as installed: those the calls returned as
    often as there are agents. *)
Definition fullyInstalled (agentList : list AgentInstallation)
    (results : list (list text)) (entries : list (text * text)) : list text :=
  filter (fun b => occurrences b (concat results) = length agentList)
    (map snd entries).

(** The effects of "Install replacement skills". *)
Definition replacementEvents (agentList : list AgentInstallation)
    (entries : list (text * text)) (results : list (list text)) : list Event :=
  match entries with
  | [] => []
  | _ :: _ =>
      installEvents agentList (map fst entries) entries results
      ++ flat_map (fun e : text * text =>
                     rollbackEvents agentList
                       (occurrences e.2 (concat results)) e.2) entries
  end.

(** The loop over the agents of "Install replacement skills", on the
    project: what the calls of [installExtensionSkills] return, in the
    order of the agents, and the project after them. *)
Fixpoint replaceOnAgents (agentList : list AgentInstallation)
    (extensionDir : path) (replacePaths : list text)
    (nameOverrides : list (text * text)) (w : World) : list (list text) * World :=
  match agentList with
  | [] => ([], w)
  | agent :: rest =>
      let call :=
        installExtensionSkills C agent extensionDir replacePaths
          (Some nameOverrides) w in
      let calls := replaceOnAgents rest extensionDir replacePaths nameOverrides
                     call.2 in
      (call.1 :: calls.1, calls.2)
  end.

(** The rollback of one replacement, on the project: it is removed from
    every agent, then the base skill is installed for every agent when it
    is in the catalog. *)
Definition rollBack (agentList : list AgentInstallation) (baseSkillName : text)
    (w : World) : World :=
  let removed := removeFromAgents agentList [baseSkillName] w in
  if bool_decide (baseSkillName ∈ getAvailableSkills C)
  then installOnAgents agentList [baseSkillName] removed
  else removed.

(** The rollback that the number of successful installations of a
    replacement calls for. *)
Definition rollBackBy (agentList : list AgentInstallation) (successCount : nat)
    (baseSkillName : text) (w : World) : World :=
  if bool_decide (successCount = length agentList) then w
  else if 0 <? successCount then rollBack agentList baseSkillName w
  else w.

(** The calls of that rollback. *)
Definition rollBackCalls (agentList : list AgentInstallation)
    (baseSkillName : text) : list Event :=
  map (fun agent => RemoveExtensionSkills (agent_id agent) [baseSkillName])
    agentList
  ++ (if bool_decide (baseSkillName ∈ getAvailableSkills C)
      then map (fun agent => InstallSkills (agent_id agent) [baseSkillName])
             agentList
      else []).

(** The effects performed between [st] and [st']. *)
Definition since (st st' : State) : list Event :=
  drop (length (log st)) (log st').
End Reconciler.

Arguments World : clear implicits.
Arguments Collaborators : clear implicits.
Arguments State : clear implicits.

(** ** core/remote-skill.ts: the source of a remote skill *)

Definition slash : char := 47%N.
Definition hash : char := 35%N.

(** [s.split(sep)] for a separator of one code unit: the parts of [s]
    between the separators; never the empty list. *)
Fixpoint splitBy (sep : char) (s : text) : list text :=
  match s with
  | [] => [[]]
  | c :: t =>
      if N.eqb c sep then [] :: splitBy sep t
      else match splitBy sep t with
           | part :: parts => (c :: part) :: parts
           | [] => [[c]]
           end
  end.

(** [parts.join(sep)] *)
Fixpoint joinWith (sep : text) (parts : list text) : text :=
  match parts with
  | [] => []
  | [part] => part
  | part :: rest => part ++ sep ++ joinWith sep rest
  end.

(** [RemoteSource]; the field [host] is always ['github']. *)
Record RemoteSource := {
  owner : text;
  repo : text;
  skillPath : option text;
  ref : text;
}.

(** The two errors [parseRemoteSource] throws. *)
Inductive SourceError :=
| UnsupportedFormat
| InvalidGitHubSource.

Definition parseRemoteSource (uri : text) : SourceError + RemoteSource :=
  if negb (startsWith (lit "github:") uri) then inl UnsupportedFormat
  else
    let body := drop (length (lit "github:")) uri in
    let hashIdx := indexOf [hash] body in
    let ref := match hashIdx with
               | Some i => drop (i + 1) body
               | None => []
               end in
    let body := match hashIdx with
                | Some i => take i body
                | None => body
                end in
    match splitBy slash body with
    | owner :: repo :: rest =>
        inr {| owner := owner; repo := repo;
               skillPath := match rest with
                            | [] => None
                            | _ :: _ => Some (joinWith [slash] rest)
                            end;
               ref := ref |}
    | _ => inl InvalidGitHubSource
    end.

Definition formatSourceUri (source : RemoteSource) : text :=
  let uri := lit "github:" ++ owner source ++ [slash] ++ repo source in
  let uri := match skillPath source with
             | Some (c :: p) => uri ++ [slash] ++ c :: p
             | _ => uri
             end in
  if (0 <? length (ref source)) && negb (bool_decide (ref source = lit "main"))
  then uri ++ [hash] ++ ref source
  else uri.

(** ** A small project to run the commands on *)

Module Demo.
(** Besides the text files the project holds: the manifests that
    extension sources resolve to, the manifests in extension storage, the
    installations that fail (agent, skill name) and the skills in place
    (agent, skill name, provider). *)
Record Aux := {
  sources : list (text * ExtensionManifest);
  stored : list (text * ExtensionManifest);
  failing : list (text * text);
  placed : list (text * text * text);
}.

Definition assoc {A : Type} (k : text) (l : list (text * A)) : option A :=
  snd <$> head (filter (fun e : text * A => e.1 = k) l).

Definition catalog : list text := [lit "aif-commit"; lit "aif-plan"].

Definition setPlaced (w : World Aux) (p : list (text * text * text)) : World Aux :=
  {| tree := tree w;
     aux := {| sources := sources (aux w); stored := stored (aux w);
               failing := failing (aux w); placed := p |} |}.

Definition setStored (w : World Aux) (s : list (text * ExtensionManifest)) : World Aux :=
  {| tree := tree w;
     aux := {| sources := sources (aux w); stored := s;
               failing := failing (aux w); placed := placed (aux w) |} |}.

Definition unplace (agent : text) (names : list text)
    (p : list (text * text * text)) : list (text * text * text) :=
  filter (fun e : text * text * text => ~ (e.1.1 = agent /\ e.1.2 ∈ names)) p.

Definition install (agent : text) (names : list text) (provider : text)
    (w : World Aux) : list text * World Aux :=
  let ok := filter (fun n => (agent, n) ∉ failing (aux w)) names in
  (ok, setPlaced w (unplace agent ok (placed (aux w))
                      ++ map (fun n => (agent, n, provider)) ok)).

Definition collaborators : Collaborators Aux unit unit := {|
  resolveExtension w source := (fun m => (m, tt)) <$> assoc source (sources (aux w));
  commitExtensionInstall resolved w :=
    setStored w ((m_name resolved.1, resolved.1)
                   :: filter (fun e : text * ExtensionManifest =>
                                e.1 <> m_name resolved.1) (stored (aux w)));
  loadExtensionManifest w dir := assoc (default [] (last dir)) (stored (aux w));
  loadAllExtensions w names :=
    omap (fun n => (fun m => ([lit ".ai-factory"; lit "extensions"; n], m))
                     <$> assoc n (stored (aux w))) names;
  removeExtensionFiles name w :=
    setStored w (filter (fun e : text * ExtensionManifest => e.1 <> name)
                   (stored (aux w)));
  installExtensionSkills agent dir paths nameOverrides w :=
    install (agent_id agent)
      (map (fun p => default p (assoc p (default [] nameOverrides))) paths)
      (default [] (last dir)) w;
  removeExtensionSkills agent names w :=
    (filter (fun n => n ∈ map (fun e : text * text * text => e.1.2)
                          (filter (fun e : text * text * text =>
                                     e.1.1 = agent_id agent) (placed (aux w))))
            names,
     setPlaced w (unplace (agent_id agent) names (placed (aux w))));
  installSkills agent names w :=
    (install (agent_id agent) (filter (fun n => n ∈ catalog) names) (lit "base") w).2;
  updateSkills agent excluded w :=
    install (agent_id agent) (filter (fun n => n ∉ excluded) catalog) (lit "base") w;
  getAvailableSkills := catalog;
  getCurrentVersion := lit "2.2.0";
  transform agent skillName :=
    {| flat := false; targetDir := [skillName]; targetName := lit "SKILL.md" |};
  getAgentConfig agent :=
    {| configDir := [lit "." ++ agent]; supportsMcp := false |};
  readJsonFile w p := None;
  configureExtensionMcpServers agent k tpl w := ([], w);
  removeExtensionMcpServers agent keys w := w;
|}.

(** The same collaborators, with an extension storage that holds the
    manifests [manifests] whatever is done to the project. *)
Definition withStorage (manifests : list (text * ExtensionManifest))
    : Collaborators Aux unit unit := {|
  resolveExtension := resolveExtension collaborators;
  commitExtensionInstall := commitExtensionInstall collaborators;
  loadExtensionManifest w dir := assoc (default [] (last dir)) manifests;
  loadAllExtensions w names :=
    omap (fun n => (fun m => ([lit ".ai-factory"; lit "extensions"; n], m))
                     <$> assoc n manifests) names;
  removeExtensionFiles := removeExtensionFiles collaborators;
  installExtensionSkills := installExtensionSkills collaborators;
  removeExtensionSkills := removeExtensionSkills collaborators;
  installSkills := installSkills collaborators;
  updateSkills := updateSkills collaborators;
  getAvailableSkills := getAvailableSkills collaborators;
  getCurrentVersion := getCurrentVersion collaborators;
  transform := transform collaborators;
  getAgentConfig := getAgentConfig collaborators;
  readJsonFile := readJsonFile collaborators;
  configureExtensionMcpServers := configureExtensionMcpServers collaborators;
  removeExtensionMcpServers := removeExtensionMcpServers collaborators;
|}.

Definition agent (name : String.string) : AgentInstallation :=
  {| agent_id := lit name;
     skillsDir := [lit "." ++ lit name; lit "skills"];
     installedSkills := catalog |}.

(** A skill file of an agent. *)
Definition skillFile (agentName skillName : String.string) : path :=
  [lit "." ++ lit agentName; lit "skills"; lit skillName; lit "SKILL.md"].

(** The directory of an agent holding one skill file. *)
Definition agentTree (agentName skillName : String.string) (content : text) : Node :=
  Directory (lit "." ++ lit agentName)
    [Directory (lit "skills")
       [Directory (lit skillName) [File (lit "SKILL.md") content]]].

Definition project (root : list Node) (srcs stor : list (text * ExtensionManifest))
    (fails : list (text * text)) (config : AiFactoryConfig) : State Aux := {|
  world := {| tree := Directory (lit ".") root;
              aux := {| sources := srcs; stored := stor; failing := fails;
                        placed := [] |} |};
  disk := Some config;
  log := [];
|}.

Definition record (name : String.string) (rs : option (list text)) : ExtensionRecord :=
  {| ext_name := lit name; ext_source := lit "./" ++ lit name;
     ext_version := lit "1.0.0"; replacedSkills := rs |}.

Definition configOf (agentList : list AgentInstallation)
    (exts : list ExtensionRecord) : AiFactoryConfig :=
  {| cfg_version := lit "2.2.0"; agents := agentList; extensions := Some exts |}.

(** The extension of the specification's scenario: it replaces
    [aif-commit] by its own [skills/my-commit]. *)
Definition helloCommit : ExtensionManifest := {|
  m_name := lit "hello-commit"; m_version := lit "1.0.0";
  skills := Some [lit "skills/my-commit"];
  replaces := Some [(lit "skills/my-commit", lit "aif-commit")];
  injections := None; mcpServers := None;
|}.

(** An extension that claims the base skill [shared]. *)
Definition claimsShared (name : String.string) : ExtensionManifest := {|
  m_name := lit name; m_version := lit "1.0.0";
  skills := Some [lit "p"];
  replaces := Some [(lit "p", lit "shared")];
  injections := None; mcpServers := None;
|}.

(** Extension [a] owns [shared]; the source [./b] resolves to an
    extension [b] that replaces [shared] too. *)
Definition conflicting : State Aux :=
  project [] [(lit "./b", claimsShared "b"); (lit "./hello", helloCommit)]
    [(lit "a", claimsShared "a")] []
    (configOf [agent "claude"; agent "codex"] [record "a" (Some [lit "shared"])]).

(** Two agents; the installation of [aif-commit] fails on the second. *)
Definition secondAgentFails : State Aux :=
  project [] [(lit "./hello", helloCommit)] [] [(lit "codex", lit "aif-commit")]
    (configOf [agent "claude"; agent "codex"] []).

(** An extension with two skills that both replace [aif-commit]. *)
Definition twice : ExtensionManifest := {|
  m_name := lit "twice"; m_version := lit "1.0.0";
  skills := Some [lit "skills/one"; lit "skills/two"];
  replaces := Some [(lit "skills/one", lit "aif-commit");
                    (lit "skills/two", lit "aif-commit")];
  injections := None; mcpServers := None;
|}.

(** Two agents; the installation of [aif-commit] fails on the second, and
    the source [./twice] resolves to [twice]. *)
Definition twoPaths : State Aux :=
  project [] [(lit "./twice", twice)] [] [(lit "codex", lit "aif-commit")]
    (configOf [agent "claude"; agent "codex"] []).

(** [hello-commit] is installed and owns [aif-commit]. *)
Definition helloInstalled : State Aux :=
  project [] [] [(lit "hello-commit", helloCommit)] []
    (configOf [agent "claude"; agent "codex"]
       [record "hello-commit" (Some [lit "aif-commit"])]).

(** An extension owns [ghost], which is not a base skill of the catalog,
    and its manifest is gone from the extension storage. *)
Definition ghostOwner : State Aux :=
  project [] [] [] []
    (configOf [agent "claude"] [record "haunted" (Some [lit "ghost"])]).

(** Extension [hello-commit] is installed and its manifest is in the
    extension storage, but its replacement cannot be installed for the
    second agent. *)
Definition reinstallFails : State Aux :=
  project [] [] [(lit "hello-commit", helloCommit)] [(lit "codex", lit "aif-commit")]
    (configOf [agent "claude"; agent "codex"]
       [record "hello-commit" (Some [lit "aif-commit"])]).

(** An extension with one injection and no skills. *)
Definition notes : ExtensionManifest := {|
  m_name := lit "notes"; m_version := lit "1.0.0";
  skills := None; replaces := None;
  injections := Some [{| target := lit "aif-plan"; position := append;
                         file := [lit "extra.md"] |}];
  mcpServers := None;
|}.

(** One agent with the skill file of [aif-plan]; the files of [notes] are
    where the extension storage keeps them. *)
Definition notesProject : State Aux :=
  project
    [agentTree "claude" "aif-plan" (lit "Plan the work." ++ [nl]);
     Directory (lit ".ai-factory")
       [Directory (lit "extensions")
          [Directory (lit "notes")
             [File (lit "extra.md") (lit "Keep notes." ++ [nl])]]]]
    [(lit "./notes", notes)] [] [] (configOf [agent "claude"] []).

(** Installs, updates and a removal, starting from [conflicting]. *)
Definition session : list Command :=
  [CmdAdd (lit "./b"); CmdAdd (lit "./hello"); CmdUpdate; CmdRemove (lit "a");
   CmdAdd (lit "./b"); CmdUpdate].

(** No agent is configured. *)
Definition noAgents : State Aux :=
  project [] [(lit "./hello", helloCommit)] [] [] (configOf [] []).

(** [notes] is installed and its injection is in the skill file. *)
Definition notesApplied : State Aux :=
  project
    [agentTree "claude" "aif-plan"
       (applyInjection (lit "Plan the work." ++ [nl]) (lit "Keep notes." ++ [nl])
          append (lit "notes") (lit "aif-plan"));
     Directory (lit ".ai-factory")
       [Directory (lit "extensions")
          [Directory (lit "notes")
             [File (lit "extra.md") (lit "Keep notes." ++ [nl])]]]]
    [] [(lit "notes", notes)] [] (configOf [agent "claude"] [record "notes" None]).

(** The injection of [notes] is in the skill file, but its manifest is
    gone from the extension storage. *)
Definition notesLost : State Aux :=
  project
    [agentTree "claude" "aif-plan"
       (applyInjection (lit "Plan the work." ++ [nl]) (lit "Keep notes." ++ [nl])
          append (lit "notes") (lit "aif-plan"))]
    [] [] [] (configOf [agent "claude"] [record "notes" None]).

(** The collaborators again, with an [installSkills] that writes the
    files of the base skills it installs. *)
Definition baseText (skillName : text) : text :=
  lit "Base skill " ++ skillName ++ [nl].

Definition writeSkills (agentName : text) (names : list text) (root : Node) : Node :=
  foldl (fun t n =>
           writeAt [lit "." ++ agentName; lit "skills"; n; lit "SKILL.md"]
             (baseText n) t) root names.

Definition writing : Collaborators Aux unit unit := {|
  resolveExtension := resolveExtension collaborators;
  commitExtensionInstall := commitExtensionInstall collaborators;
  loadExtensionManifest := loadExtensionManifest collaborators;
  loadAllExtensions := loadAllExtensions collaborators;
  removeExtensionFiles := removeExtensionFiles collaborators;
  installExtensionSkills := installExtensionSkills collaborators;
  removeExtensionSkills := removeExtensionSkills collaborators;
  installSkills agent names w :=
    let w' := installSkills collaborators agent names w in
    {| tree := writeSkills (agent_id agent)
                 (filter (fun n => n ∈ catalog) names) (tree w');
       aux := aux w' |};
  updateSkills := updateSkills collaborators;
  getAvailableSkills := getAvailableSkills collaborators;
  getCurrentVersion := getCurrentVersion collaborators;
  transform := transform collaborators;
  getAgentConfig := getAgentConfig collaborators;
  readJsonFile := readJsonFile collaborators;
  configureExtensionMcpServers := configureExtensionMcpServers collaborators;
  removeExtensionMcpServers := removeExtensionMcpServers collaborators;
|}.

(** The directory of an agent holding the skill files [files]. *)
Definition agentDir (agentName : String.string)
    (files : list (String.string * text)) : Node :=
  Directory (lit "." ++ lit agentName)
    [Directory (lit "skills")
       (map (fun f : String.string * text =>
               Directory (lit f.1) [File (lit "SKILL.md") f.2]) files)].

(** An extension that replaces [aif-commit] and injects two texts into
    [aif-plan], one at the end and one at the start. *)
Definition guide : ExtensionManifest := {|
  m_name := lit "guide"; m_version := lit "1.0.0";
  skills := Some [lit "skills/my-commit"];
  replaces := Some [(lit "skills/my-commit", lit "aif-commit")];
  injections := Some [{| target := lit "aif-plan"; position := append;
                         file := [lit "extra.md"] |};
                      {| target := lit "aif-plan"; position := prepend;
                         file := [lit "intro.md"] |}];
  mcpServers := None;
|}.

(** The skill file of [aif-plan] with the two injections of [guide]. *)
Definition guidedPlan : text :=
  applyInjection
    (applyInjection (lit "Plan the work." ++ [nl]) (lit "Keep notes." ++ [nl])
       append (lit "guide") (lit "aif-plan"))
    (lit "Read first." ++ [nl]) prepend (lit "guide") (lit "aif-plan").

(** The blocks of [guidedPlan] and the texts around them. *)
Definition guidedRest : list (MarkerBlock * text) :=
  [({| b_skill := lit "aif-plan"; b_position := prepend;
       b_body := lit "Read first." |},
    [nl; nl] ++ lit "Plan the work." ++ [nl; nl]);
   ({| b_skill := lit "aif-plan"; b_position := append;
       b_body := lit "Keep notes." |},
    [nl])].

(** [guide] is installed for two agents: its injections are in the skill
    files of [aif-plan] and its replacement is in those of [aif-commit]. *)
Definition guideTree : list Node :=
  [agentDir "claude" [("aif-plan", guidedPlan);
                      ("aif-commit", lit "My commit." ++ [nl])];
   agentDir "codex" [("aif-plan", guidedPlan);
                     ("aif-commit", lit "My commit." ++ [nl])]].

Definition guideInstalled : State Aux :=
  project guideTree [] [(lit "guide", guide)] []
    (configOf [agent "claude"; agent "codex"]
       [record "guide" (Some [lit "aif-commit"])]).

(** The same, but the manifest of [guide] is gone from the extension
    storage. *)
Definition guideLost : State Aux :=
  project guideTree [] [] []
    (configOf [agent "claude"; agent "codex"]
       [record "guide" (Some [lit "aif-commit"])]).

(** The block of [notes] is in a rule file of the agent that is not named
    [*.md], and the manifest is gone from the extension storage. *)
Definition ruleFile : path := [lit ".claude"; lit "rules"; lit "aif-plan.mdc"].

Definition notesInRule : State Aux :=
  project
    [Directory (lit ".claude")
       [Directory (lit "rules")
          [File (lit "aif-plan.mdc")
             (applyInjection (lit "Plan the work." ++ [nl])
                (lit "Keep notes." ++ [nl]) append (lit "notes")
                (lit "aif-plan"))]]]
    [] [] [] (configOf [agent "claude"] [record "notes" None]).

(** The skill file holds a block of [notes] at its start, and the manifest
    in the extension storage declares the injection at the end only. *)
Definition notesMoved : State Aux :=
  project
    [agentTree "claude" "aif-plan"
       (applyInjection (lit "Plan the work." ++ [nl]) (lit "Keep notes." ++ [nl])
          prepend (lit "notes") (lit "aif-plan"))]
    [] [(lit "notes", notes)] [] (configOf [agent "claude"] [record "notes" None]).

(** An extension whose injected text holds markers of its own triple: its
    end marker on a line, the start marker twice on the next line, and
    the end marker again. *)
Definition trap : ExtensionManifest := {|
  m_name := lit "trap"; m_version := lit "1.0.0";
  skills := None; replaces := None;
  injections := Some [{| target := lit "aif-plan"; position := append;
                         file := [lit "bait.md"] |}];
  mcpServers := None;
|}.

Definition bait : text :=
  let startLine := startMarker (lit "trap") (lit "aif-plan") (lit "append") in
  let endLine := endMarker (lit "trap") (lit "aif-plan") (lit "append") in
  lit "x" ++ [nl] ++ endLine ++ [nl] ++ startLine ++ startLine ++ [nl]
    ++ lit "y" ++ [nl] ++ endLine ++ [nl; nl] ++ lit "z" ++ [nl].

Definition trapProject : State Aux :=
  project
    [agentTree "claude" "aif-plan" (lit "Plan the work." ++ [nl]);
     Directory (lit ".ai-factory")
       [Directory (lit "extensions")
          [Directory (lit "trap") [File (lit "bait.md") bait]]]]
    [(lit "./trap", trap)] [] [] (configOf [agent "claude"] []).

(** The injection of [trap] is in the skill file, but its manifest is gone
    from the extension storage. *)
Definition trapLost : State Aux :=
  project
    [agentTree "claude" "aif-plan"
       (applyInjection (lit "Plan the work." ++ [nl]) bait append (lit "trap")
          (lit "aif-plan"))]
    [] [] [] (configOf [agent "claude"] [record "trap" None]).
End Demo.

(** * Properties of the marker codec *)

(** ** startsWith, includes, trimEnd *)

Lemma startsWith_spec (p s : text) :
  startsWith p s = true <-> exists r, s = p ++ r.
Proof.
  revert s. induction p as [|a p IH]; intros s; simpl.
  - split; [intros _; by exists s | done].
  - destruct s as [|b s].
    + split; [done | intros [r Hr]; discriminate].
    + rewrite andb_true_iff, N.eqb_eq, IH. split.
      * intros [-> [r ->]]. by exists r.
      * intros [r Hr]. injection Hr as -> ->. split; [done | by exists r].
Qed.

Lemma startsWith_app (p r : text) : startsWith p (p ++ r) = true.
Proof. apply startsWith_spec. by exists r. Qed.

Lemma includes_spec (p s : text) :
  includes p s = true <-> exists a b, s = a ++ p ++ b.
Proof.
  induction s as [|c s IH]; simpl.
  - rewrite orb_false_r, startsWith_spec. split.
    + intros [r Hr]. by exists [], r.
    + intros [a [b Hab]]. destruct a; [by exists b | discriminate].
  - rewrite orb_true_iff, startsWith_spec, IH. split.
    + intros [[r Hr] | [a [b Hab]]].
      * by exists [], r.
      * exists (c :: a), b. by rewrite Hab.
    + intros [[|c' a] [b Hab]].
      * left. by exists b.
      * right. injection Hab as _ ->. by exists a, b.
Qed.

Lemma includes_false (p s : text) :
  includes p s = false <-> forall a b, s <> a ++ p ++ b.
Proof.
  rewrite <- not_true_iff_false, includes_spec. split.
  - intros H a b Hab. apply H. by exists a, b.
  - intros H [a [b Hab]]. by apply (H a b).
Qed.

Lemma includes_false_app (p a b : text) :
  includes p (a ++ b) = false -> includes p a = false /\ includes p b = false.
Proof.
  rewrite !includes_false. intros H. split.
  - intros x y ->. apply (H x (y ++ b)). by rewrite <- !app_assoc.
  - intros x y ->. apply (H (a ++ x) y). by rewrite <- !app_assoc.
Qed.

(** A string without line feed that starts across a line feed starts before
    it. *)
Lemma startsWith_before_nl (p a b : text) :
  includes [nl] p = false ->
  startsWith p (a ++ nl :: b) = true -> startsWith p a = true.
Proof.
  rewrite includes_false, !startsWith_spec. intros Hp [r Hr].
  symmetry in Hr. apply app_eq_inv in Hr as [[k [-> Hk]] | [k [-> _]]].
  - destruct k as [|c k]; [exists []; by rewrite !app_nil_r |].
    injection Hk as <- _. exfalso. by apply (Hp a k).
  - by exists k.
Qed.

Lemma includes_across_nl (p a b : text) :
  includes [nl] p = false ->
  includes p a = false -> includes p b = false ->
  includes p (a ++ nl :: b) = false.
Proof.
  intros Hp Ha Hb. apply includes_false. intros x y Hxy.
  apply app_eq_inv in Hxy as [[k [-> Hk]] | [k [-> Hk]]].
  - assert (startsWith p (k ++ nl :: b) = true) as Hs
      by (apply startsWith_spec; by exists y).
    apply startsWith_before_nl, startsWith_spec in Hs as [r ->]; [|done].
    rewrite includes_false in Ha. by apply (Ha x r).
  - destruct k as [|c k].
    + simpl in Hk. destruct p as [|c p].
      * by rewrite includes_false in Hb; apply (Hb [] b).
      * injection Hk as <- _. rewrite includes_false in Hp.
        by apply (Hp [] p).
    + injection Hk as _ ->. rewrite includes_false in Hb. by apply (Hb k y).
Qed.

Lemma trimEnd_whitespace (w : text) :
  forallb isWhiteSpace w = true -> trimEnd w = [].
Proof.
  induction w as [|c w IH]; simpl; [done |].
  rewrite andb_true_iff. intros [Hc Hw]. by rewrite IH, Hc.
Qed.

Lemma trimEnd_app_whitespace (s w : text) :
  forallb isWhiteSpace w = true -> trimEnd (s ++ w) = trimEnd s.
Proof.
  intros Hw. induction s as [|c s IH]; simpl.
  - by apply trimEnd_whitespace.
  - by rewrite IH.
Qed.

Lemma trimEnd_split (s : text) :
  exists w, s = trimEnd s ++ w /\ forallb isWhiteSpace w = true.
Proof.
  induction s as [|c s [w [Hs Hw]]]; simpl.
  - by exists [].
  - destruct (trimEnd s) as [|d t] eqn:Ht.
    + destruct (isWhiteSpace c) eqn:Hc.
      * exists (c :: s). split; [done |]. simpl in Hs. subst w.
        simpl. by rewrite Hc.
      * exists s. split; [done |]. simpl in Hs. by subst w.
    + exists w. split; [|done]. by rewrite Hs at 1.
Qed.

Lemma trimEnd_idem (s : text) : trimEnd (trimEnd s) = trimEnd s.
Proof.
  induction s as [|c s IH]; simpl; [done |].
  destruct (trimEnd s) as [|d t] eqn:Ht.
  - destruct (isWhiteSpace c) eqn:Hc; simpl; by rewrite ?Hc.
  - simpl in IH |- *. by rewrite IH.
Qed.

Lemma includes_trimEnd (p s : text) :
  includes p s = false -> includes p (trimEnd s) = false.
Proof.
  intros H. destruct (trimEnd_split s) as [w [Hs _]].
  rewrite Hs in H. by apply includes_false_app in H as [? _].
Qed.

(** ** The global replace *)

Section RegexFacts.
Variables ps pe : text -> option nat.

Lemma replaceGo_drop (n : nat) (s : text) :
  replaceGo ps pe n s = replaceAll ps pe (drop n s).
Proof.
  revert n. induction s as [|c s IH]; intros [|n]; try done.
  simpl. by rewrite IH.
Qed.

Lemma replaceAll_nomatch (c : char) (t : text) :
  matchAt ps pe (c :: t) = None ->
  replaceAll ps pe (c :: t) = c :: replaceAll ps pe t.
Proof. intros H. unfold replaceAll. cbn [replaceGo]. by rewrite H. Qed.

Lemma replaceAll_match (s : text) (n : nat) :
  matchAt ps pe s = Some n -> n <> 0 ->
  replaceAll ps pe s = replaceAll ps pe (drop n s).
Proof.
  destruct s as [|c t]; [by rewrite drop_nil |].
  intros Hm Hn. unfold replaceAll at 1. cbn [replaceGo]. rewrite Hm.
  destruct n as [|n]; [done |]. by rewrite replaceGo_drop.
Qed.

(** Code units before the first match are copied. *)
Lemma replaceAll_skip (X Y : text) :
  (forall x1 c x2, X = x1 ++ c :: x2 -> matchAt ps pe (c :: x2 ++ Y) = None) ->
  replaceAll ps pe (X ++ Y) = X ++ replaceAll ps pe Y.
Proof.
  induction X as [|c X IH]; intros H; [done |].
  simpl. rewrite replaceAll_nomatch by (by apply (H [])).
  f_equal. apply IH. intros x1 d x2 ->. by apply (H (c :: x1)).
Qed.

Lemma matchBody_None (s : text) : ps s = None -> matchBody ps pe s = None.
Proof. unfold matchBody. by intros ->. Qed.

Lemma matchAt_None (c : char) (t : text) :
  ps (c :: t) = None -> ps t = None -> matchAt ps pe (c :: t) = None.
Proof.
  intros H1 H2. unfold matchAt.
  rewrite (matchBody_None (c :: t)), (matchBody_None t) by done.
  by destruct (N.eqb c nl).
Qed.

(** Where START matches nowhere, nothing is replaced. *)
Lemma replaceAll_id (s : text) :
  (forall x1 x2, s = x1 ++ x2 -> ps x2 = None) -> replaceAll ps pe s = s.
Proof.
  intros H. rewrite <- (app_nil_r s) at 1.
  rewrite replaceAll_skip; [by rewrite app_nil_r |].
  intros x1 c x2 ->. rewrite app_nil_r. apply matchAt_None.
  - by apply (H x1).
  - apply (H (x1 ++ [c])). by rewrite <- app_assoc.
Qed.

(** The lazy quantifier runs over a text [B] in which no line feed is
    followed by END. *)
Lemma lazyToEnd_app (B T : text) :
  (forall b1 b2, B = b1 ++ nl :: b2 -> pe (b2 ++ T) = None) ->
  lazyToEnd pe (B ++ T) =
  (fun kn => (length B + kn.1, kn.2)) <$> lazyToEnd pe T.
Proof.
  induction B as [|c B IH]; intros H.
  - simpl. by destruct (lazyToEnd pe T) as [[k n]|].
  - simpl. rewrite IH by (intros b1 b2 ->; by apply (H (c :: b1))).
    destruct (N.eqb_spec c nl) as [->|Hc].
    + rewrite (H [] B) by done. by destruct (lazyToEnd pe T) as [[k n]|].
    + by destruct (lazyToEnd pe T) as [[k n]|].
Qed.

Lemma matchBody_block (SM B EM R : text) :
  ps (SM ++ nl :: B ++ nl :: EM ++ R) = Some (length SM) ->
  pe (EM ++ R) = Some (length EM) ->
  (forall b1 b2, B = b1 ++ nl :: b2 -> pe (b2 ++ nl :: EM ++ R) = None) ->
  matchBody ps pe (SM ++ nl :: B ++ nl :: EM ++ R) =
  Some (length (SM ++ nl :: B ++ nl :: EM) + optNl R).
Proof.
  intros Hs He HB. unfold matchBody. rewrite Hs, drop_app_length.
  cbv beta iota. rewrite N.eqb_refl, lazyToEnd_app by done.
  cbn [lazyToEnd]. rewrite N.eqb_refl, He. cbn [fmap option_fmap option_map fst snd].
  replace (length B + 0 + 1 + length EM) with (length (B ++ nl :: EM))
    by (rewrite length_app; simpl; lia).
  replace (B ++ nl :: EM ++ R) with ((B ++ nl :: EM) ++ R)
    by (by rewrite <- app_assoc).
  rewrite drop_app_length. f_equal.
  rewrite !length_app. simpl. rewrite !length_app. simpl. lia.
Qed.

(** A block that follows a line feed is removed with that line feed and
    with one line feed after it. *)
Lemma replaceAll_block_nl (SM B EM R : text) :
  ps (SM ++ nl :: B ++ nl :: EM ++ R) = Some (length SM) ->
  pe (EM ++ R) = Some (length EM) ->
  (forall b1 b2, B = b1 ++ nl :: b2 -> pe (b2 ++ nl :: EM ++ R) = None) ->
  replaceAll ps pe (nl :: SM ++ nl :: B ++ nl :: EM ++ R) =
  replaceAll ps pe (drop (optNl R) R).
Proof.
  intros Hs He HB.
  rewrite (replaceAll_match _ (S (length (SM ++ nl :: B ++ nl :: EM) + optNl R)));
    [| |done].
  - simpl drop.
    replace (SM ++ nl :: B ++ nl :: EM ++ R)
      with ((SM ++ nl :: B ++ nl :: EM) ++ R)
      by (rewrite <- app_assoc; simpl; by rewrite <- app_assoc).
    by rewrite drop_app_add.
  - unfold matchAt. rewrite N.eqb_refl. by rewrite matchBody_block.
Qed.

(** A block at the very start, when START cannot begin with a line feed. *)
Lemma replaceAll_block_front (SM B EM R : text) :
  ps (SM ++ nl :: B ++ nl :: EM ++ R) = Some (length SM) ->
  pe (EM ++ R) = Some (length EM) ->
  (forall b1 b2, B = b1 ++ nl :: b2 -> pe (b2 ++ nl :: EM ++ R) = None) ->
  (forall s, ps (nl :: s) = None) -> SM <> [] ->
  replaceAll ps pe (SM ++ nl :: B ++ nl :: EM ++ R) =
  replaceAll ps pe (drop (optNl R) R).
Proof.
  intros Hs He HB Hnl Hne.
  rewrite (replaceAll_match _ (length (SM ++ nl :: B ++ nl :: EM) + optNl R)).
  - replace (SM ++ nl :: B ++ nl :: EM ++ R)
      with ((SM ++ nl :: B ++ nl :: EM) ++ R)
      by (rewrite <- app_assoc; simpl; by rewrite <- app_assoc).
    by rewrite drop_app_add.
  - destruct SM as [|c SM]; [done |]. unfold matchAt.
    change ((c :: SM) ++ nl :: B ++ nl :: EM ++ R)
      with (c :: (SM ++ nl :: B ++ nl :: EM ++ R)) at 1.
    cbv beta iota.
    destruct (N.eqb_spec c nl) as [->|_].
    + simpl in Hs. by rewrite Hnl in Hs.
    + by apply matchBody_block.
  - destruct SM; [done |]. simpl. lia.
Qed.
End RegexFacts.

(** ** START and END expressions that begin with a fixed text *)

Lemma includes_nil_false (p : text) : p <> [] -> includes p [] = false.
Proof. by destruct p. Qed.

Lemma includes_char_app (c : char) (a b : text) :
  includes [c] a = false -> includes [c] b = false ->
  includes [c] (a ++ b) = false.
Proof.
  intros Ha Hb. induction a as [|d a IH]; [done |].
  simpl in Ha |- *. apply orb_false_iff in Ha as [Hd Ha].
  rewrite Hd. simpl. by apply IH.
Qed.

Lemma includes_char_head (c d : char) (s : text) :
  includes [c] (d :: s) = false -> N.eqb c d = false.
Proof.
  intros H. cbn [includes startsWith] in H.
  apply orb_false_iff in H as [H _]. by rewrite andb_true_r in H.
Qed.

(** A text that does not contain [p] contains no text around [p]. *)
Lemma includes_sub (a p b s : text) :
  includes p s = false -> includes (a ++ p ++ b) s = false.
Proof.
  rewrite !includes_false. intros H x y ->. apply (H (x ++ a) (b ++ y)).
  by rewrite <- !app_assoc.
Qed.

Lemma startsWith_suffix (p x1 x2 : text) :
  includes p (x1 ++ x2) = false -> startsWith p x2 = false.
Proof.
  intros H. apply not_true_is_false. rewrite startsWith_spec. intros [k ->].
  rewrite includes_false in H. by apply (H x1 k).
Qed.

Lemma startsWith_clean (p x1 x2 r : text) :
  includes [nl] p = false ->
  includes p (x1 ++ x2) = false -> startsWith p (x2 ++ nl :: r) = false.
Proof.
  intros Hp H. apply not_true_is_false. intros Hs.
  apply startsWith_before_nl in Hs; [|done].
  by rewrite (startsWith_suffix p x1 x2) in Hs.
Qed.

Lemma literal_None (p s : text) :
  startsWith p s = false -> literal p s = None.
Proof. unfold literal. by intros ->. Qed.

Lemma literal_app (p r : text) : literal p (p ++ r) = Some (length p).
Proof. unfold literal. by rewrite startsWith_app. Qed.

(** START matches only where the text [S0] begins and END only where [E0]
    begins; neither text holds a line feed. *)
Section Anchored.
Variables ps pe : text -> option nat.
Variables S0 E0 : text.
Hypothesis ps_anchor : forall s, startsWith S0 s = false -> ps s = None.
Hypothesis pe_anchor : forall s, startsWith E0 s = false -> pe s = None.
Hypothesis S0_line : includes [nl] S0 = false.
Hypothesis E0_line : includes [nl] E0 = false.
Hypothesis S0_nonempty : S0 <> [].

(** No match starts inside a text that does not contain [S0] and is
    followed by a line feed. *)
Lemma anchored_region (X Y : text) :
  includes S0 X = false ->
  forall x1 c x2, X = x1 ++ c :: x2 ->
    matchAt ps pe (c :: x2 ++ nl :: Y) = None.
Proof using ps_anchor S0_line.
  intros HX x1 c x2 ->. apply matchAt_None; apply ps_anchor.
  - by apply (startsWith_clean S0 x1 (c :: x2)).
  - apply (startsWith_clean S0 (x1 ++ [c]) x2); [done |].
    by rewrite <- app_assoc.
Qed.

Lemma anchored_clean (s : text) :
  includes S0 s = false -> replaceAll ps pe s = s.
Proof using ps_anchor.
  intros H. apply replaceAll_id. intros x1 x2 ->. apply ps_anchor.
  by apply (startsWith_suffix S0 x1).
Qed.

Lemma anchored_lazy (B T : text) :
  includes (nl :: E0) B = false ->
  forall b1 b2, B = b1 ++ nl :: b2 -> pe (b2 ++ nl :: T) = None.
Proof using pe_anchor E0_line.
  intros HB b1 b2 ->. apply pe_anchor, not_true_is_false. intros Hs.
  apply startsWith_before_nl, startsWith_spec in Hs as [k ->]; [|done].
  rewrite includes_false in HB. by apply (HB b1 k).
Qed.

Section Block.
Variables SM EM : text.
Hypothesis ps_marker : forall r, ps (SM ++ r) = Some (length SM).
Hypothesis pe_marker : forall r, pe (EM ++ r) = Some (length EM).
Hypothesis SM_nonempty : SM <> [].

Lemma anchored_block_after (X B R : text) :
  includes S0 X = false -> includes (nl :: E0) B = false ->
  replaceAll ps pe (X ++ nl :: SM ++ nl :: B ++ nl :: EM ++ R) =
  X ++ replaceAll ps pe (drop (optNl R) R).
Proof using ps_anchor pe_anchor S0_line E0_line ps_marker pe_marker.
  intros HX HB. rewrite replaceAll_skip.
  - f_equal. apply replaceAll_block_nl; [apply ps_marker | apply pe_marker |].
    by apply anchored_lazy.
  - by apply anchored_region.
Qed.

Lemma anchored_block_front (B R : text) :
  includes (nl :: E0) B = false ->
  replaceAll ps pe (SM ++ nl :: B ++ nl :: EM ++ R) =
  replaceAll ps pe (drop (optNl R) R).
Proof using All.
  intros HB. apply replaceAll_block_front; try done.
  - by apply anchored_lazy.
  - intros s. apply ps_anchor. destruct S0 as [|c S']; [done |].
    cbn [startsWith]. apply includes_char_head in S0_line.
    by rewrite N.eqb_sym, S0_line.
Qed.

(** The three texts [applyInjection] builds around a block, for a host
    text [F] without [S0] and a content [B] in which no line feed is
    followed by [E0]. *)
Variables F B : text.
Hypothesis F_clean : includes S0 F = false.
Hypothesis B_clean : includes (nl :: E0) B = false.

Let block := SM ++ [nl] ++ trimEnd B ++ [nl] ++ EM.

Lemma strip_appended :
  replaceAll ps pe (trimEnd F ++ [nl; nl] ++ block ++ [nl]) = trimEnd F ++ [nl].
Proof using All.
  subst block.
  replace (trimEnd F ++ [nl; nl] ++ (SM ++ [nl] ++ trimEnd B ++ [nl] ++ EM) ++ [nl])
    with ((trimEnd F ++ [nl]) ++ nl :: SM ++ nl :: trimEnd B ++ nl :: EM ++ [nl])
    by (repeat (rewrite <- ?app_assoc; cbn [app]); done).
  rewrite anchored_block_after.
  - cbn [optNl drop]. rewrite N.eqb_refl. cbn [drop]. rewrite ?drop_0.
    unfold replaceAll. cbn [replaceGo]. by rewrite app_nil_r.
  - apply includes_across_nl; [done | by apply includes_trimEnd |].
    by apply includes_nil_false.
  - by apply includes_trimEnd.
Qed.

Lemma strip_inserted (afterFm : nat) :
  replaceAll ps pe (take afterFm F ++ [nl] ++ block ++ [nl] ++ drop afterFm F)
  = F.
Proof using All.
  subst block.
  replace (take afterFm F ++ [nl] ++ (SM ++ [nl] ++ trimEnd B ++ [nl] ++ EM)
             ++ [nl] ++ drop afterFm F)
    with (take afterFm F ++ nl :: SM ++ nl :: trimEnd B ++ nl :: EM
            ++ nl :: drop afterFm F)
    by (repeat (rewrite <- ?app_assoc; cbn [app]); done).
  pose proof F_clean as HF. rewrite <- (take_drop afterFm F) in HF.
  apply includes_false_app in HF as [Ht Hd].
  rewrite anchored_block_after.
  - cbn [optNl drop]. rewrite N.eqb_refl. cbn [drop]. rewrite ?drop_0.
    rewrite anchored_clean by done. apply take_drop.
  - done.
  - by apply includes_trimEnd.
Qed.

(** Without front matter the text after the block is separated from it by
    two line feeds, of which the expression takes one. *)
Lemma strip_prepended :
  replaceAll ps pe (block ++ [nl; nl] ++ F) = nl :: F.
Proof using All.
  subst block.
  replace ((SM ++ [nl] ++ trimEnd B ++ [nl] ++ EM) ++ [nl; nl] ++ F)
    with (SM ++ nl :: trimEnd B ++ nl :: EM ++ nl :: nl :: F)
    by (repeat (rewrite <- ?app_assoc; cbn [app]); done).
  rewrite anchored_block_front.
  - cbn [optNl drop]. rewrite N.eqb_refl. cbn [drop]. rewrite ?drop_0.
    apply anchored_clean. change (nl :: F) with ([] ++ nl :: F).
    apply includes_across_nl; [done | by apply includes_nil_false | done].
  - by apply includes_trimEnd.
Qed.
End Block.
End Anchored.

(** ** Markers of a triple *)

Lemma positionText_line (p : Position) : includes [nl] (positionText p) = false.
Proof. by destruct p. Qed.

Lemma startMarker_line (ext skill pos : text) :
  includes [nl] ext = false -> includes [nl] skill = false ->
  includes [nl] pos = false ->
  includes [nl] (startMarker ext skill pos) = false.
Proof.
  intros. unfold startMarker. repeat apply includes_char_app; done.
Qed.

Lemma endMarker_line (ext skill pos : text) :
  includes [nl] ext = false -> includes [nl] skill = false ->
  includes [nl] pos = false ->
  includes [nl] (endMarker ext skill pos) = false.
Proof.
  intros. unfold endMarker. repeat apply includes_char_app; done.
Qed.

Lemma startMarker_nonempty (ext skill pos : text) : startMarker ext skill pos <> [].
Proof. done. Qed.

Lemma strip_host (F ext skill pos : text) :
  includes (startMarker ext skill pos) F = false ->
  stripInjection F ext skill pos = F.
Proof.
  intros HF. apply (anchored_clean _ _ (startMarker ext skill pos)); [|done].
  intros s. apply literal_None.
Qed.

(** What [applyInjection] builds on a host text without the start marker. *)
Lemma applyInjection_shape (F B ext skill : text) (pos : Position) :
  includes (startMarker ext skill (positionText pos)) F = false ->
  applyInjection F B pos ext skill =
  let block :=
    startMarker ext skill (positionText pos) ++ [nl] ++ trimEnd B ++ [nl]
      ++ endMarker ext skill (positionText pos) in
  match pos with
  | append => trimEnd F ++ [nl; nl] ++ block ++ [nl]
  | prepend =>
      match frontMatter F with
      | Some afterFm => take afterFm F ++ [nl] ++ block ++ [nl] ++ drop afterFm F
      | None => block ++ [nl; nl] ++ F
      end
  end.
Proof. intros HF. unfold applyInjection. by rewrite strip_host. Qed.

(** The host text an applied injection leaves when its block is taken out
    again. *)
Lemma stripInjection_applied (F B ext skill : text) (pos : Position) :
  includes [nl] ext = false -> includes [nl] skill = false ->
  includes (startMarker ext skill (positionText pos)) F = false ->
  includes (nl :: endMarker ext skill (positionText pos)) B = false ->
  stripInjection (applyInjection F B pos ext skill) ext skill (positionText pos)
  = match pos with
    | append => trimEnd F ++ [nl]
    | prepend =>
        match frontMatter F with
        | Some _ => F
        | None => nl :: F
        end
    end.
Proof.
  intros Hext Hskill HF HB. rewrite applyInjection_shape by done.
  pose proof (positionText_line pos) as Hpos.
  pose proof (startMarker_line ext skill _ Hext Hskill Hpos) as HS.
  pose proof (endMarker_line ext skill _ Hext Hskill Hpos) as HE.
  unfold stripInjection. cbv zeta.
  destruct pos; [|destruct (frontMatter F) as [afterFm|]].
  - apply (strip_appended _ _ (startMarker ext skill (positionText append))
             (endMarker ext skill (positionText append)));
      auto using literal_None, literal_app.
  - apply (strip_inserted _ _ (startMarker ext skill (positionText prepend))
             (endMarker ext skill (positionText prepend)));
      auto using literal_None, literal_app.
  - apply (strip_prepended _ _ (startMarker ext skill (positionText prepend))
             (endMarker ext skill (positionText prepend)));
      auto using literal_None, literal_app, startMarker_nonempty.
Qed.

(** ** Markers of an extension, whatever the target and the position *)

Lemma fieldLength_app (t r : text) :
  includes [colon] t = false -> fieldLength (t ++ colon :: r) = length t.
Proof.
  induction t as [|c t IH]; intros Ht; [done |].
  cbn [app fieldLength length].
  pose proof (includes_char_head _ _ _ Ht) as Hc.
  rewrite N.eqb_sym in Hc. rewrite Hc. f_equal. apply IH.
  change (c :: t) with ([c] ++ t) in Ht.
  by apply includes_false_app in Ht as [_ ?].
Qed.

Lemma drop_field (t : text) (c : char) (r : text) :
  drop (length t + 1) (t ++ c :: r) = r.
Proof. induction t as [|d t IH]; [done | apply IH]. Qed.

Section ByName.
Variable extensionName : text.
Hypothesis name_line : includes [nl] extensionName = false.

Let anchor := lit "<!-- aif-ext:" ++ extensionName ++ lit ":".

Lemma markerOf_anchor (tail s : text) :
  startsWith anchor s = false -> markerOf extensionName tail s = None.
Proof using Type. unfold markerOf. subst anchor. by intros ->. Qed.

Lemma anchor_line : includes [nl] anchor = false.
Proof using name_line. subst anchor. repeat apply includes_char_app; done. Qed.

Lemma anchor_token (s : text) :
  includes (markerToken extensionName) s = false -> includes anchor s = false.
Proof using Type.
  intros H. subst anchor.
  replace (lit "<!-- aif-ext:" ++ extensionName ++ lit ":")
    with (lit "<!-- " ++ markerToken extensionName ++ [])
    by (by rewrite app_nil_r).
  by apply includes_sub.
Qed.

(** The expression recognises the marker of a target without colon. *)
Lemma markerOf_marker (skill pos tail r : text) :
  skill <> [] -> includes [colon] skill = false ->
  pos <> [] -> includes [colon] pos = false ->
  markerOf extensionName tail
    ((lit "<!-- aif-ext:" ++ extensionName ++ lit ":" ++ skill ++ lit ":"
        ++ pos ++ colon :: tail) ++ r)
  = Some (length (lit "<!-- aif-ext:" ++ extensionName ++ lit ":" ++ skill
                    ++ lit ":" ++ pos ++ colon :: tail)).
Proof using Type.
  intros Hs1 Hs2 Hp1 Hp2.
  assert ((lit "<!-- aif-ext:" ++ extensionName ++ lit ":" ++ skill ++ lit ":"
             ++ pos ++ colon :: tail) ++ r
          = (lit "<!-- aif-ext:" ++ extensionName ++ lit ":")
              ++ skill ++ colon :: pos ++ colon :: tail ++ r) as ->
    by (change (lit ":") with [colon];
        repeat (rewrite <- ?app_assoc; cbn [app]); done).
  unfold markerOf. cbv zeta.
  rewrite startsWith_app, drop_app_length.
  rewrite (fieldLength_app skill) by done.
  rewrite drop_field.
  rewrite (fieldLength_app pos) by done.
  rewrite !drop_app_length.
  change (colon :: pos ++ colon :: tail ++ r)
    with ([colon] ++ pos ++ colon :: tail ++ r).
  change (colon :: tail ++ r) with ((colon :: tail) ++ r).
  rewrite !startsWith_app.
  destruct skill; [done |]. destruct pos; [done |].
  cbn [length Nat.ltb Nat.leb andb]. f_equal.
  change (lit ":") with [colon].
  repeat first [rewrite length_app | rewrite length_cons | progress cbn [app]].
  cbn [length]. lia.
Qed.
End ByName.

Lemma positionText_field (p : Position) :
  positionText p <> [] /\ includes [colon] (positionText p) = false.
Proof. by destruct p. Qed.

(** Taking out by extension name the block of an applied injection. *)
Lemma stripAllMarkers_applied (F B ext skill : text) (pos : Position) :
  includes [nl] ext = false ->
  skill <> [] -> includes [colon] skill = false ->
  includes (markerToken ext) F = false ->
  includes (markerToken ext) B = false ->
  stripAllMarkersForExtension (applyInjection F B pos ext skill) ext
  = match pos with
    | append => trimEnd F ++ [nl]
    | prepend =>
        match frontMatter F with
        | Some _ => F
        | None => nl :: F
        end
    end.
Proof.
  intros Hext Hs1 Hs2 HF HB.
  assert (includes (startMarker ext skill (positionText pos)) F = false) as HFS.
  { unfold startMarker.
    replace (lit "<!-- aif-ext:" ++ ext ++ lit ":" ++ skill ++ lit ":"
               ++ positionText pos ++ lit ":start -->")
      with (lit "<!-- " ++ markerToken ext
              ++ (skill ++ lit ":" ++ positionText pos ++ lit ":start -->"))
      by (unfold markerToken; repeat (rewrite <- ?app_assoc; cbn [app]); done).
    by apply includes_sub. }
  rewrite applyInjection_shape by done.
  destruct (positionText_field pos) as [Hp1 Hp2].
  pose proof (anchor_line ext Hext) as Hline.
  pose proof (anchor_token ext F HF) as HFa.
  assert (includes (nl :: lit "<!-- aif-ext:" ++ ext ++ lit ":") B = false) as HBa.
  { replace (nl :: lit "<!-- aif-ext:" ++ ext ++ lit ":")
      with ((nl :: lit "<!-- ") ++ markerToken ext ++ [])
      by (by rewrite app_nil_r).
    by apply includes_sub. }
  unfold stripAllMarkersForExtension. cbv zeta.
  destruct pos; [|destruct (frontMatter F) as [afterFm|]].
  - apply (strip_appended _ _ (lit "<!-- aif-ext:" ++ ext ++ lit ":")
             (lit "<!-- aif-ext:" ++ ext ++ lit ":")
             (markerOf_anchor ext _) (markerOf_anchor ext _) Hline Hline);
      try done; intros r.
    + by apply (markerOf_marker ext skill (positionText append) (lit "start -->")).
    + by apply (markerOf_marker ext skill (positionText append) (lit "end -->")).
  - apply (strip_inserted _ _ (lit "<!-- aif-ext:" ++ ext ++ lit ":")
             (lit "<!-- aif-ext:" ++ ext ++ lit ":")
             (markerOf_anchor ext _) (markerOf_anchor ext _) Hline Hline);
      try done; intros r.
    + by apply (markerOf_marker ext skill (positionText prepend) (lit "start -->")).
    + by apply (markerOf_marker ext skill (positionText prepend) (lit "end -->")).
  - apply (strip_prepended _ _ (lit "<!-- aif-ext:" ++ ext ++ lit ":")
             (lit "<!-- aif-ext:" ++ ext ++ lit ":")
             (markerOf_anchor ext _) (markerOf_anchor ext _) Hline Hline);
      try done; intros r.
    + by apply (markerOf_marker ext skill (positionText prepend) (lit "start -->")).
    + by apply (markerOf_marker ext skill (positionText prepend) (lit "end -->")).
Qed.

(** A text without the name token of an extension holds none of its
    blocks. *)
Lemma hasMatch_false (ps pe : text -> option nat) (s : text) :
  (forall x1 x2, s = x1 ++ x2 -> ps x2 = None) -> hasMatch ps pe s = false.
Proof.
  induction s as [|c s IH]; intros H.
  - cbn [hasMatch]. unfold matchAt. by rewrite matchBody_None by (by apply (H [])).
  - cbn [hasMatch]. rewrite matchAt_None.
    + apply IH. intros x1 x2 ->. by apply (H (c :: x1)).
    + by apply (H []).
    + by apply (H [c]).
Qed.

Lemma hasMarkerBlock_token (ext s : text) :
  includes (markerToken ext) s = false -> hasMarkerBlock ext s = false.
Proof.
  intros H. apply hasMatch_false. intros x1 x2 ->. apply markerOf_anchor.
  apply (startsWith_suffix _ x1). by apply anchor_token.
Qed.

(** * Files with several marker blocks *)

(** ** The line feeds around a block *)

Lemma endsBlank_spec (s : text) :
  endsBlank s = true <-> exists x, s = x ++ [nl; nl].
Proof.
  unfold endsBlank. split.
  - destruct (rev s) as [|c [|d r]] eqn:Hrev; try done.
    intros [Hc Hd]%andb_true_iff.
    apply N.eqb_eq in Hc, Hd. subst c d. exists (rev r).
    apply (f_equal (@rev char)) in Hrev. rewrite rev_involutive in Hrev.
    rewrite Hrev. cbn [rev]. by rewrite <- app_assoc.
  - intros [x ->]. rewrite rev_app_distr. cbn. done.
Qed.

Lemma chopEnd_snoc (x : text) : chopEnd (x ++ [nl]) = x.
Proof.
  induction x as [|c x IH]; [done |].
  cbn [app chopEnd]. rewrite IH. by destruct x.
Qed.

Lemma leads_spec (s : text) :
  leads s = true -> s = [] \/ exists x, s = x ++ [nl] /\ (x = [] \/ exists y, x = y ++ [nl]).
Proof.
  unfold leads. intros [[H|H]%orb_true_iff|H]%orb_true_iff.
  - left. by apply bool_decide_eq_true in H.
  - right. apply bool_decide_eq_true in H. exists []. split; [done | by left].
  - right. apply endsBlank_spec in H as [y ->]. exists (y ++ [nl]).
    split; [by rewrite <- app_assoc | right; by exists y].
Qed.

Lemma leads_blank (x : text) : leads (x ++ [nl; nl]) = true.
Proof.
  unfold leads. apply orb_true_iff. right. apply endsBlank_spec. by exists x.
Qed.

Lemma endsBlank_app (x s : text) : endsBlank s = true -> endsBlank (x ++ s) = true.
Proof.
  intros [y ->]%endsBlank_spec. apply endsBlank_spec. exists (x ++ y).
  by rewrite <- app_assoc.
Qed.

Lemma endsBlank_leads (s : text) : endsBlank s = true -> leads s = true.
Proof. intros H. unfold leads. rewrite H. by rewrite orb_true_r. Qed.

(** What is left of a text between two blocks when the expression has
    taken its first line feed. *)
Lemma chopStart_blank (s : text) :
  follows s = true -> endsBlank s = true ->
  s = nl :: chopStart s
  /\ (chopStart s = [nl] \/ endsBlank (chopStart s) = true).
Proof.
  intros Hf [x ->]%endsBlank_spec. destruct x as [|c x].
  - cbn. split; [done | by left].
  - cbn in Hf. apply N.eqb_eq in Hf. subst c.
    unfold chopStart. cbn [app optNl]. rewrite N.eqb_refl. cbn [drop].
    split; [done |]. right. apply endsBlank_spec. by exists x.
Qed.

Lemma chopStart_suffix (s : text) : exists x, s = x ++ chopStart s.
Proof. exists (take (optNl s) s). unfold chopStart. by rewrite take_drop. Qed.

Lemma follows_spec (s : text) : follows s = true -> s = [] \/ exists r, s = nl :: r.
Proof.
  destruct s as [|c r]; [by left |]. cbn. intros ->%N.eqb_eq. right. by exists r.
Qed.

(** ** Texts without the name token *)

Lemma clean_spec (name s : text) :
  clean name s = true <-> includes (markerToken name) s = false.
Proof. unfold clean. by destruct (includes (markerToken name) s). Qed.

Lemma markerToken_line (ext : text) :
  includes [nl] ext = false -> includes [nl] (markerToken ext) = false.
Proof. intros. unfold markerToken. repeat apply includes_char_app; done. Qed.

Lemma startMarker_token (ext skill pos s : text) :
  includes (markerToken ext) s = false ->
  includes (startMarker ext skill pos) s = false.
Proof.
  intros H. unfold startMarker.
  replace (lit "<!-- aif-ext:" ++ ext ++ lit ":" ++ skill ++ lit ":" ++ pos
             ++ lit ":start -->")
    with (lit "<!-- " ++ markerToken ext
            ++ (skill ++ lit ":" ++ pos ++ lit ":start -->"))
    by (unfold markerToken; repeat (rewrite <- ?app_assoc; cbn [app]); done).
  by apply includes_sub.
Qed.

Lemma endMarker_token (ext skill pos s : text) :
  includes (markerToken ext) s = false ->
  includes (nl :: endMarker ext skill pos) s = false.
Proof.
  intros H. unfold endMarker.
  replace (nl :: lit "<!-- aif-ext:" ++ ext ++ lit ":" ++ skill ++ lit ":" ++ pos
             ++ lit ":end -->")
    with ((nl :: lit "<!-- ") ++ markerToken ext
            ++ (skill ++ lit ":" ++ pos ++ lit ":end -->"))
    by (unfold markerToken; repeat (rewrite <- ?app_assoc; cbn [app]); done).
  by apply includes_sub.
Qed.

Lemma clean_suffix (name x s : text) :
  clean name (x ++ s) = true -> clean name s = true.
Proof. rewrite !clean_spec. by intros [_ ?]%includes_false_app. Qed.

Lemma clean_prefix (name x s : text) :
  clean name (x ++ s) = true -> clean name x = true.
Proof. rewrite !clean_spec. by intros [? _]%includes_false_app. Qed.

(** Two texts without the token, the first of which is empty or ends with
    a line feed, give a text without the token. *)
Lemma clean_join (name x s : text) :
  includes [nl] name = false ->
  x = [] \/ (exists y, x = y ++ [nl]) ->
  clean name x = true -> clean name s = true -> clean name (x ++ s) = true.
Proof.
  intros Hname [->|[y ->]] Hx Hs; [done |].
  apply clean_prefix in Hx. rewrite clean_spec in *.
  rewrite <- app_assoc. cbn [app].
  apply includes_across_nl; auto using markerToken_line.
Qed.

(** ** Layouts *)

Lemma render_app (name x first : text) (rest : list (MarkerBlock * text)) :
  render name (x ++ first) rest = x ++ render name first rest.
Proof. destruct rest as [|[b after] rest]; cbn [render]; by rewrite <- ?app_assoc. Qed.

Lemma render_first (name first : text) (rest : list (MarkerBlock * text)) :
  exists tail, render name first rest = first ++ tail.
Proof.
  destruct rest as [|[b after] rest]; cbn [render].
  - exists []. by rewrite app_nil_r.
  - by eexists.
Qed.

(** The expression takes the line feed a text after a block starts
    with. *)
Lemma render_chopStart (name after : text) (rest : list (MarkerBlock * text)) :
  (rest <> [] -> after <> []) ->
  drop (optNl (render name after rest)) (render name after rest)
  = render name (chopStart after) rest.
Proof.
  intros Hne. destruct after as [|c a].
  - destruct rest; [done | by destruct Hne].
  - destruct (render_first name (c :: a) rest) as [tail Htail].
    rewrite Htail.
    replace (render name (chopStart (c :: a)) rest)
      with (chopStart (c :: a) ++ tail).
    + unfold chopStart. cbn [app optNl]. by destruct (N.eqb c nl).
    + destruct (chopStart_suffix (c :: a)) as [x Hx].
      rewrite Hx, render_app in Htail at 1. rewrite Hx in Htail at 2.
      rewrite <- app_assoc in Htail. by apply app_inv_head in Htail.
Qed.

Lemma tidy_cons (name first : text) (b : MarkerBlock) (after : text)
    (rest : list (MarkerBlock * text)) :
  tidy name first ((b, after) :: rest) = true ->
  clean name first = true /\ leads first = true
  /\ includes [nl] (b_skill b) = false /\ clean name (b_body b) = true
  /\ clean name after = true /\ follows after = true
  /\ (rest <> [] -> endsBlank after = true)
  /\ tidyRest name rest = true.
Proof.
  unfold tidy. cbn [tidyRest]. rewrite !andb_true_iff, negb_true_iff.
  intros [[? ?] [[[[[? ?] ?] ?] Hb] ?]].
  repeat split; try done. intros Hne. by destruct rest.
Qed.

Lemma tidy_intro (name first : text) (rest : list (MarkerBlock * text)) :
  clean name first = true -> (rest <> [] -> leads first = true) ->
  tidyRest name rest = true -> tidy name first rest = true.
Proof.
  intros Hc Hl Hr. unfold tidy. rewrite Hc, Hr.
  destruct rest; [done |]. by rewrite Hl.
Qed.

(** ** One pass of an expression over a layout *)

Section Layout.
Variables ps pe : text -> option nat.
Variables S0 E0 : text.
Hypothesis ps_anchor : forall s, startsWith S0 s = false -> ps s = None.
Hypothesis pe_anchor : forall s, startsWith E0 s = false -> pe s = None.
Hypothesis S0_line : includes [nl] S0 = false.
Hypothesis E0_line : includes [nl] E0 = false.
Hypothesis S0_nonempty : S0 <> [].
Variable name : text.
Variable hit : MarkerBlock -> bool.
Hypothesis token_start :
  forall s, includes (markerToken name) s = false -> includes S0 s = false.
Hypothesis token_end :
  forall s, includes (markerToken name) s = false -> includes (nl :: E0) s = false.

(** The expression matches the markers of the blocks [hit] selects, and
    START is nowhere in the other blocks. *)
Let matched (rest : list (MarkerBlock * text)) : Prop :=
  Forall (fun e : MarkerBlock * text =>
            let SM := startMarker name (b_skill e.1) (positionText (b_position e.1)) in
            let EM := endMarker name (b_skill e.1) (positionText (b_position e.1)) in
            if hit e.1
            then (forall r, ps (SM ++ r) = Some (length SM))
                 /\ (forall r, pe (EM ++ r) = Some (length EM))
            else includes S0 (blockText name e.1) = false) rest.

Lemma strip_layout (rest : list (MarkerBlock * text)) (first : text) :
  tidy name first rest = true -> matched rest ->
  replaceAll ps pe (render name first rest)
  = render name (prune hit first rest).1 (prune hit first rest).2.
Proof using All.
  revert first. induction rest as [|[b after] rest IH]; intros first Htidy Hm.
  - cbn. apply (anchored_clean ps pe S0 ps_anchor).
    apply token_start, clean_spec. unfold tidy in Htidy.
    by apply andb_true_iff in Htidy as [[? _]%andb_true_iff _].
  - apply tidy_cons in Htidy
      as (Hfirst & Hleads & Hskill & Hbody & Hafter & Hfollows & Hblank & Hrest).
    apply Forall_cons in Hm as [Hb Hm]. cbn [fst] in Hb. cbv zeta in Hb.
    cbn [render prune]. unfold blockText.
    set (SM := startMarker name (b_skill b) (positionText (b_position b))) in *.
    set (EM := endMarker name (b_skill b) (positionText (b_position b))) in *.
    set (R := render name after rest).
    assert (rest <> [] -> after <> []) as Hne.
    { intros Hr Heq. specialize (Hblank Hr). by rewrite Heq in Hblank. }
    destruct (hit b) eqn:Hhit.
    + destruct Hb as [Hps Hpe]. cbn [fst snd].
      rewrite render_app.
      assert (tidy name (chopStart after) rest = true) as Htidy'.
      { apply tidy_intro; [| |done].
        - destruct (chopStart_suffix after) as [x Hx]. rewrite Hx in Hafter.
          by apply clean_suffix in Hafter.
        - intros Hr. destruct (chopStart_blank after Hfollows (Hblank Hr))
            as [_ [->|?]]; [done | by apply endsBlank_leads]. }
      rewrite <- (IH _ Htidy' Hm), <- (render_chopStart name after rest Hne).
      fold R.
      assert (includes (nl :: E0) (b_body b) = false) as HB
        by (by apply token_end, clean_spec).
      replace (first ++ (SM ++ [nl] ++ b_body b ++ [nl] ++ EM) ++ R)
        with (first ++ SM ++ nl :: b_body b ++ nl :: EM ++ R)
        by (repeat (rewrite <- ?app_assoc; cbn [app]); done).
      destruct (leads_spec first Hleads) as [->|[x [-> Hx]]].
      * cbn [app chopEnd].
        apply (anchored_block_front ps pe S0 E0); try done.
      * rewrite chopEnd_snoc, <- app_assoc. cbn [app].
        apply (anchored_block_after ps pe S0 E0); try done.
        apply clean_prefix in Hfirst. by apply token_start, clean_spec.
    + cbn [fst snd render]. unfold blockText. fold SM EM.
      assert (tidy name after rest = true) as Htidy'.
      { apply tidy_intro; [done | | done].
        intros Hr. by apply endsBlank_leads, Hblank. }
      rewrite <- (IH _ Htidy' Hm). fold R.
      set (X0 := first ++ SM ++ [nl] ++ b_body b ++ [nl] ++ EM).
      assert (includes S0 X0 = false) as HX0.
      { subst X0. destruct (leads_spec first Hleads) as [->|[x [-> _]]]; [done |].
        rewrite <- app_assoc. cbn [app].
        apply includes_across_nl; [done | | done].
        apply clean_prefix in Hfirst. by apply token_start, clean_spec. }
      replace (first ++ (SM ++ [nl] ++ b_body b ++ [nl] ++ EM) ++ R)
        with (X0 ++ R) by (subst X0; by rewrite <- !app_assoc).
      replace (first ++ (SM ++ [nl] ++ b_body b ++ [nl] ++ EM) ++ replaceAll ps pe R)
        with (X0 ++ replaceAll ps pe R) by (subst X0; by rewrite <- !app_assoc).
      destruct (follows_spec after Hfollows) as [Heq|[a Heq]].
      * assert (R = []) as ->.
        { subst R. rewrite Heq. destruct rest; [done |].
          by destruct (Hne ltac:(done)). }
        rewrite app_nil_r. cbn. rewrite app_nil_r.
        by apply (anchored_clean ps pe S0 ps_anchor).
      * destruct (render_first name after rest) as [tail Htail]. fold R in Htail.
        rewrite Htail, Heq. cbn [app].
        apply replaceAll_skip.
        by apply (anchored_region ps pe S0 ps_anchor S0_line X0).
Qed.
End Layout.

(** ** The layout that is left *)

Section Pruned.
Variable name : text.
Variable hit : MarkerBlock -> bool.
Hypothesis name_line : includes [nl] name = false.

Lemma prune_blocks (rest : list (MarkerBlock * text)) (first : text) :
  map fst (prune hit first rest).2
  = filter (fun b => hit b = false) (map fst rest).
Proof using Type.
  revert first. induction rest as [|[b after] rest IH]; intros first; [done |].
  cbn [prune map fst]. rewrite filter_cons.
  destruct (hit b); cbn [snd].
  - rewrite decide_False by done. apply IH.
  - rewrite decide_True by done. cbn [map fst]. by rewrite IH.
Qed.

Lemma prune_tidy (rest : list (MarkerBlock * text)) (first : text) :
  tidy name first rest = true ->
  let left := prune hit first rest in
  clean name left.1 = true
  /\ (left.2 <> [] -> leads left.1 = true)
  /\ (first <> [] -> left.2 <> [] -> left.1 <> [])
  /\ (endsBlank first = true -> left.2 <> [] -> endsBlank left.1 = true)
  /\ (follows first = true -> (rest <> [] -> endsBlank first = true) ->
      follows left.1 = true)
  /\ tidyRest name left.2 = true.
Proof using name_line.
  revert first. induction rest as [|[b after] rest IH]; intros first Htidy.
  - cbn. unfold tidy in Htidy.
    apply andb_true_iff in Htidy as [[? _]%andb_true_iff _]. done.
  - apply tidy_cons in Htidy
      as (Hfirst & Hleads & Hskill & Hbody & Hafter & Hfollows & Hblank & Hrest).
    assert (rest <> [] -> after <> []) as Hne.
    { intros Hr Heq. specialize (Hblank Hr). by rewrite Heq in Hblank. }
    cbn [prune]. destruct (hit b) eqn:Hhit; cbv zeta; cbn [fst snd].
    + assert (tidy name (chopStart after) rest = true) as Htidy'.
      { apply tidy_intro; [| |done].
        - destruct (chopStart_suffix after) as [x Hx]. rewrite Hx in Hafter.
          by apply clean_suffix in Hafter.
        - intros Hr. destruct (chopStart_blank after Hfollows (Hblank Hr))
            as [_ [->|?]]; [done | by apply endsBlank_leads]. }
      destruct (IH _ Htidy') as (Hc & Hl & Hn & _ & _ & Ht).
      set (left := prune hit (chopStart after) rest) in *.
      assert (left.2 <> [] -> rest <> []) as Hrest'.
      { intros Hl2 ->. by apply Hl2. }
      assert (left.2 <> [] -> left.1 <> []) as Hn'.
      { intros Hl2. apply Hn; [|done].
        destruct (chopStart_blank after Hfollows (Hblank (Hrest' Hl2)))
          as [_ [->|Hb]]; [done |]. intros Heq. by rewrite Heq in Hb. }
      assert (left.2 <> [] -> left.1 = [nl] \/ endsBlank left.1 = true) as Hcases.
      { intros Hl2. specialize (Hl Hl2). specialize (Hn' Hl2).
        unfold leads in Hl.
        apply orb_true_iff in Hl as [[H|H]%orb_true_iff|H].
        - by apply bool_decide_eq_true in H.
        - left. by apply bool_decide_eq_true in H.
        - by right. }
      destruct (leads_spec first Hleads) as [->|[x [-> Hx]]].
      * cbn [chopEnd app]. split; [done |]. split; [done |].
        split; [done |]. split; [done |]. split; [|done].
        intros _ Hb. by specialize (Hb ltac:(done)).
      * rewrite chopEnd_snoc.
        split; [|split; [|split; [|split; [|split; [|done]]]]].
        -- apply clean_join; try done. by apply clean_prefix in Hfirst.
        -- intros Hl2. destruct (Hcases Hl2) as [->|Hb].
           ++ destruct Hx as [->|[y ->]]; [done |].
              rewrite <- app_assoc. apply leads_blank.
           ++ by apply endsBlank_leads, endsBlank_app.
        -- intros _ Hl2 Heq. apply app_eq_nil in Heq as [_ Heq].
           by apply (Hn' Hl2).
        -- intros Hb Hl2. apply endsBlank_spec in Hb as [y Hy].
           assert (x = y ++ [nl]) as ->.
           { change [nl; nl] with ([nl] ++ [nl]) in Hy.
             rewrite app_assoc in Hy. by apply app_inj_tail in Hy as [? _]. }
           destruct (Hcases Hl2) as [->|Hb].
           ++ rewrite <- app_assoc. apply endsBlank_spec. by exists y.
           ++ by apply endsBlank_app.
        -- intros Hf Hb. specialize (Hb ltac:(done)).
           apply endsBlank_spec in Hb as [y Hy].
           assert (x = y ++ [nl]) as ->.
           { change [nl; nl] with ([nl] ++ [nl]) in Hy.
             rewrite app_assoc in Hy. by apply app_inj_tail in Hy as [? _]. }
           destruct y as [|c y]; [done |]. cbn in Hf |- *. done.
    + assert (tidy name after rest = true) as Htidy'.
      { apply tidy_intro; [done | | done].
        intros Hr. by apply endsBlank_leads, Hblank. }
      destruct (IH _ Htidy') as (Hc & Hl & Hn & Hb & Hf & Ht).
      set (left := prune hit after rest) in *.
      assert (left.2 <> [] -> rest <> []) as Hrest'.
      { intros Hl2 ->. by apply Hl2. }
      split; [done |]. split; [done |]. split; [done |]. split; [done |].
      split; [done |].
      cbn [tidyRest]. rewrite Hskill, Hbody, Hc, Ht. cbn [negb andb].
      rewrite (Hf Hfollows Hblank). cbn [andb]. rewrite andb_true_r.
      destruct (left.2) as [|e l] eqn:Hl2; [done |].
      assert (rest <> []) as Hr by (by apply Hrest').
      by apply Hb; [apply Hblank |].
Qed.

Lemma prune_tidy_layout (rest : list (MarkerBlock * text)) (first : text) :
  tidy name first rest = true ->
  tidy name (prune hit first rest).1 (prune hit first rest).2 = true.
Proof using name_line.
  intros Htidy. destruct (prune_tidy rest first Htidy) as (Hc & Hl & _ & _ & _ & Ht).
  by apply tidy_intro.
Qed.
End Pruned.

(** ** The two expressions of the codec on a layout *)

(** Taken out by extension name, every block goes: what is left is a text
    without the name token. *)
Lemma stripAllMarkers_layout (name first : text) (rest : list (MarkerBlock * text)) :
  includes [nl] name = false ->
  tidy name first rest = true ->
  Forall (fun e : MarkerBlock * text =>
            b_skill e.1 <> [] /\ includes [colon] (b_skill e.1) = false) rest ->
  let left := prune (fun _ => true) first rest in
  stripAllMarkersForExtension (render name first rest) name = left.1
  /\ clean name left.1 = true.
Proof.
  intros Hname Htidy Hfields left.
  assert (left.2 = []) as Hnone.
  { subst left. clear. revert first.
    induction rest as [|[b after] rest IH]; intros first; [done |].
    cbn [prune]. cbv zeta. cbn [snd]. apply IH. }
  split.
  - replace left.1 with (render name left.1 left.2) by (by rewrite Hnone).
    unfold stripAllMarkersForExtension.
    apply (strip_layout _ _ (lit "<!-- aif-ext:" ++ name ++ lit ":")
             (lit "<!-- aif-ext:" ++ name ++ lit ":")
             (markerOf_anchor name _) (markerOf_anchor name _)
             (anchor_line name Hname) (anchor_line name Hname)); try done.
    + apply anchor_token.
    + intros s Hs.
      replace (nl :: lit "<!-- aif-ext:" ++ name ++ lit ":")
        with ((nl :: lit "<!-- ") ++ markerToken name ++ [])
        by (by rewrite app_nil_r).
      by apply includes_sub.
    + eapply Forall_impl; [exact Hfields |]. intros [b after] [Hs1 Hs2].
      cbn [fst] in *. cbv zeta beta iota.
      destruct (positionText_field (b_position b)) as [Hp1 Hp2].
      split; intros r.
      * by apply (markerOf_marker name (b_skill b) (positionText (b_position b))
                    (lit "start -->")).
      * by apply (markerOf_marker name (b_skill b) (positionText (b_position b))
                    (lit "end -->")).
  - by destruct (prune_tidy name (fun _ => true) Hname rest first Htidy) as [? _].
Qed.

Lemma tidyRest_bodies (name : text) (rest : list (MarkerBlock * text)) :
  tidyRest name rest = true ->
  Forall (fun e : MarkerBlock * text => clean name (b_body e.1) = true) rest.
Proof.
  induction rest as [|[b after] rest IH]; intros Htidy; [constructor |].
  assert (tidy name [] ((b, after) :: rest) = true) as Hall.
  { unfold tidy. by rewrite Htidy. }
  apply tidy_cons in Hall as (_ & _ & _ & Hbody & _ & _ & _ & Hrest).
  constructor; [done | by apply IH].
Qed.

(** Taken out by triple, the blocks of the triple go and the others stay,
    when the start marker of the triple is no part of their markers. *)
Lemma stripInjection_layout (name skill : text) (pos : Position) (first : text)
    (rest : list (MarkerBlock * text)) :
  includes [nl] name = false -> includes [nl] skill = false ->
  tidy name first rest = true ->
  Forall (fun b => sameTriple skill pos b || markersApart name skill pos b = true)
    (map fst rest) ->
  let left := prune (sameTriple skill pos) first rest in
  stripInjection (render name first rest) name skill (positionText pos)
  = render name left.1 left.2.
Proof.
  intros Hname Hskill Htidy Hapart left. unfold stripInjection.
  pose proof (positionText_line pos) as Hpos.
  apply (strip_layout _ _ (startMarker name skill (positionText pos))
           (endMarker name skill (positionText pos))
           (literal_None _) (literal_None _)
           (startMarker_line name skill _ Hname Hskill Hpos)
           (endMarker_line name skill _ Hname Hskill Hpos)
           (startMarker_nonempty name skill _)); try done.
  - intros s. apply startMarker_token.
  - intros s. apply endMarker_token.
  - apply Forall_fmap in Hapart.
    assert (tidyRest name rest = true) as Hrest.
    { unfold tidy in Htidy. by apply andb_true_iff in Htidy as [_ ?]. }
    apply tidyRest_bodies in Hrest.
    pose proof (proj2 (Forall_and _ _) (conj Hapart Hrest)) as Hboth.
    eapply Forall_impl; [exact Hboth |].
    intros [b after] [Hb Hbody]. cbn [fst compose] in *. cbv zeta beta.
    destruct (sameTriple skill pos b) eqn:Hsame.
    + apply bool_decide_eq_true in Hsame as [-> ->].
      split; intros r; apply literal_app.
    + cbn [orb] in Hb. unfold markersApart in Hb. cbv zeta in Hb.
      apply andb_true_iff in Hb as [HS HE]. apply negb_true_iff in HS, HE.
      unfold blockText.
      pose proof (startMarker_line name skill _ Hname Hskill Hpos) as Hline.
      apply includes_across_nl; [done | done |].
      apply includes_across_nl; [done | | done].
      by apply startMarker_token, clean_spec.
Qed.

(** The passes of the directives [visits] over a layout, one after the
    other: a layout is left, and its blocks are blocks of the first layout
    that are of the triple of none of the directives. *)
Lemma strip_visits (name : text) (visits : list Injection) :
  includes [nl] name = false ->
  forall (first : text) (rest : list (MarkerBlock * text)),
  tidy name first rest = true ->
  Forall (fun d =>
            includes [nl] (target d) = false
            /\ Forall (fun b => sameTriple (target d) (position d) b
                                || markersApart name (target d) (position d) b
                                = true) (map fst rest)) visits ->
  exists first' rest',
    foldl (fun c d => stripInjection c name (target d) (positionText (position d)))
      (render name first rest) visits
    = render name first' rest'
    /\ tidy name first' rest' = true
    /\ Forall (fun b => b ∈ map fst rest
                        /\ Forall (fun d => sameTriple (target d) (position d) b
                                            = false) visits)
         (map fst rest').
Proof.
  intros Hname. induction visits as [|d visits IH]; intros first rest Htidy Hvisits.
  - exists first, rest. split; [done |]. split; [done |].
    apply Forall_forall. intros b Hb. split; [done | constructor].
  - apply Forall_cons in Hvisits as [[Hline Hapart] Hvisits].
    cbn [foldl].
    rewrite (stripInjection_layout name (target d) (position d) first rest)
      by done.
    set (left := prune (sameTriple (target d) (position d)) first rest).
    pose proof (prune_blocks (sameTriple (target d) (position d)) rest first)
      as Hblocks. fold left in Hblocks.
    pose proof (prune_tidy_layout name (sameTriple (target d) (position d))
                  Hname rest first Htidy) as Hleft. fold left in Hleft.
    assert (forall b, b ∈ map fst left.2 ->
              b ∈ map fst rest
              /\ sameTriple (target d) (position d) b = false) as Hsub.
    { intros b. rewrite Hblocks, list_elem_of_filter. tauto. }
    destruct (IH left.1 left.2 Hleft) as (first' & rest' & Heq & Htidy' & Hall).
    { eapply Forall_impl; [exact Hvisits |]. intros d' [Hline' Hapart'].
      split; [done |]. apply Forall_forall. intros b Hb.
      rewrite Forall_forall in Hapart'. apply Hapart'. by apply Hsub. }
    exists first', rest'. split; [done |]. split; [done |].
    eapply Forall_impl; [exact Hall |]. intros b [Hb Hnone].
    destruct (Hsub b Hb) as [Hrest Hd]. split; [done |]. by constructor.
Qed.

(** ** Re-applying an injection *)

(** Appending, and prepending to a file with front matter, give the same
    text when repeated. *)
Lemma applyInjection_again (F B ext skill : text) (pos : Position) :
  includes [nl] ext = false -> includes [nl] skill = false ->
  includes (startMarker ext skill (positionText pos)) F = false ->
  includes (nl :: endMarker ext skill (positionText pos)) B = false ->
  (pos = prepend -> frontMatter F <> None) ->
  applyInjection (applyInjection F B pos ext skill) B pos ext skill
  = applyInjection F B pos ext skill.
Proof.
  intros Hext Hskill HF HB Hfm. destruct pos.
  - unfold applyInjection at 1. cbv zeta.
    rewrite (stripInjection_applied F B ext skill append) by done.
    rewrite trimEnd_app_whitespace, trimEnd_idem by done.
    unfold applyInjection.
    by rewrite (strip_host F ext skill (positionText append)).
  - destruct (frontMatter F) as [n|] eqn:Hn; [|by destruct Hfm].
    unfold applyInjection at 1. cbv zeta.
    rewrite (stripInjection_applied F B ext skill prepend), Hn by done.
    unfold applyInjection.
    by rewrite (strip_host F ext skill (positionText prepend)).
Qed.

(** Prepending to a file without front matter puts one more line feed
    before the host text each time it is repeated. *)
Lemma applyInjection_again_bare (F B ext skill : text) :
  includes [nl] ext = false -> includes [nl] skill = false ->
  includes (startMarker ext skill (lit "prepend")) F = false ->
  includes (nl :: endMarker ext skill (lit "prepend")) B = false ->
  frontMatter F = None ->
  applyInjection F B prepend ext skill =
    (startMarker ext skill (lit "prepend") ++ [nl] ++ trimEnd B ++ [nl]
       ++ endMarker ext skill (lit "prepend")) ++ [nl; nl] ++ F
  /\ applyInjection (applyInjection F B prepend ext skill) B prepend ext skill =
    (startMarker ext skill (lit "prepend") ++ [nl] ++ trimEnd B ++ [nl]
       ++ endMarker ext skill (lit "prepend")) ++ [nl; nl] ++ nl :: F.
Proof.
  intros Hext Hskill HF HB Hfm. split.
  - unfold applyInjection.
    by rewrite (strip_host F ext skill (positionText prepend)), Hfm.
  - unfold applyInjection at 1. cbv zeta.
    by rewrite (stripInjection_applied F B ext skill prepend), Hfm.
Qed.

(** The same on the host text "a" with the content "x": the first
    application gives the block, two line feeds and "a"; the second gives
    the block, three line feeds and "a". *)
Lemma applyInjection_prepend_not_idempotent :
  let block :=
    lit "<!-- aif-ext:e:s:prepend:start -->" ++ [nl] ++ lit "x" ++ [nl]
      ++ lit "<!-- aif-ext:e:s:prepend:end -->" in
  let once := applyInjection (lit "a") (lit "x") prepend (lit "e") (lit "s") in
  let twice := applyInjection once (lit "x") prepend (lit "e") (lit "s") in
  once = block ++ [nl; nl] ++ lit "a"
  /\ twice = block ++ [nl; nl; nl] ++ lit "a"
  /\ twice <> once.
Proof. vm_compute. repeat split; discriminate. Qed.

(** C1, counterexample.  The content holds the end marker of its own
    triple on a line.  Appending it to "a" a second time strips the block
    only up to that line, so the rest of the first content stays in the
    host text, before the new block. *)
Lemma applyInjection_not_idempotent :
  let e := lit "e" in
  let s := lit "s" in
  let S := startMarker e s (lit "append") in
  let E := endMarker e s (lit "append") in
  let content := lit "x" ++ [nl] ++ E ++ [nl] ++ lit "y" in
  let block := S ++ [nl] ++ content ++ [nl] ++ E in
  let once := applyInjection (lit "a") content append e s in
  let twice := applyInjection once content append e s in
  once = lit "a" ++ [nl; nl] ++ block ++ [nl]
  /\ twice = lit "a" ++ [nl] ++ lit "y" ++ [nl] ++ E ++ [nl; nl] ++ block ++ [nl]
  /\ twice <> once.
Proof. vm_compute. repeat split; discriminate. Qed.

(** An injection is applied to the host text without the blocks of its
    triple. *)
Lemma applyInjection_stripped (F B ext skill : text) (pos : Position) :
  includes (startMarker ext skill (positionText pos))
    (stripInjection F ext skill (positionText pos)) = false ->
  applyInjection F B pos ext skill =
  applyInjection (stripInjection F ext skill (positionText pos)) B pos ext skill.
Proof.
  intros HF. unfold applyInjection. cbv zeta.
  by rewrite (strip_host (stripInjection F ext skill (positionText pos))).
Qed.

(** C1 (amended).  For names without line feed, a host text that holds no
    start marker of the triple once the blocks of the triple are taken out,
    and a content in which no line feed is followed by the end marker:
    appending twice gives the text of appending once, and so does
    prepending when the host text has front matter. *)
Theorem applyInjection_idempotent (F B ext skill : text) (pos : Position) :
  includes [nl] ext = false -> includes [nl] skill = false ->
  includes (startMarker ext skill (positionText pos))
    (stripInjection F ext skill (positionText pos)) = false ->
  includes (nl :: endMarker ext skill (positionText pos)) B = false ->
  (pos = prepend ->
   frontMatter (stripInjection F ext skill (positionText pos)) <> None) ->
  applyInjection (applyInjection F B pos ext skill) B pos ext skill
  = applyInjection F B pos ext skill.
Proof.
  intros Hext Hskill HF HB Hfm.
  rewrite (applyInjection_stripped F) by done.
  by apply applyInjection_again.
Qed.

Lemma applyInjection_idempotent_witness :
  let F := lit "---" ++ [nl] ++ lit "name: aif-commit" ++ [nl] ++ lit "---"
             ++ [nl] ++ lit "Commit the staged changes." ++ [nl] in
  let B := lit "Run the linter first." ++ [nl] in
  let hello := lit "hello" in
  let skill := lit "aif-commit" in
  let old := applyInjection F (lit "Run the tests.") append hello skill in
  applyInjection (applyInjection F B prepend hello skill) B prepend hello skill
  = applyInjection F B prepend hello skill
  /\ applyInjection (applyInjection old B append hello skill) B append hello skill
    = applyInjection old B append hello skill.
Proof.
  split.
  - apply (applyInjection_idempotent _ _ (lit "hello") (lit "aif-commit") prepend);
      [reflexivity | reflexivity | vm_compute; reflexivity
      | vm_compute; reflexivity | intros _; vm_compute; discriminate].
  - apply (applyInjection_idempotent _ _ (lit "hello") (lit "aif-commit") append);
      [reflexivity | reflexivity | vm_compute; reflexivity
      | vm_compute; reflexivity | intros H; discriminate H].
Defined.

(** ** Stripping an applied injection *)

(** C2, counterexample.  The host texts contain no marker of the triple.
    Appending to "a" and stripping gives "a" followed by a line feed; and
    with a content that holds the end marker on a line of its own, the strip
    stops at that line and leaves the rest of the content in the file. *)
Lemma stripInjection_not_exact :
  let e := lit "e" in
  let s := lit "s" in
  let E := endMarker e s (lit "append") in
  let host := lit "a" ++ [nl] in
  let content := lit "x" ++ [nl] ++ E ++ [nl] ++ lit "y" in
  (includes (startMarker e s (lit "append")) (lit "a") = false
   /\ stripInjection (applyInjection (lit "a") (lit "x") append e s) e s
        (lit "append") = lit "a" ++ [nl]
   /\ lit "a" ++ [nl] <> lit "a")
  /\ (includes (startMarker e s (lit "append")) host = false
      /\ stripInjection (applyInjection host content append e s) e s
           (lit "append") = lit "a" ++ [nl] ++ lit "y" ++ [nl] ++ E ++ [nl]
      /\ lit "a" ++ [nl] ++ lit "y" ++ [nl] ++ E ++ [nl] <> host).
Proof. vm_compute. repeat split; discriminate. Qed.

(** C2 (amended).  For names without line feed, a host text that does not
    contain the start marker of the triple and a content in which no line
    feed is followed by the end marker: stripping after appending gives the
    host text with its trailing white space replaced by one line feed, and
    stripping after prepending to a file with front matter gives the host
    text itself. *)
Theorem stripInjection_applyInjection (F B ext skill : text) (pos : Position) :
  includes [nl] ext = false -> includes [nl] skill = false ->
  includes (startMarker ext skill (positionText pos)) F = false ->
  includes (nl :: endMarker ext skill (positionText pos)) B = false ->
  (pos = prepend -> frontMatter F <> None) ->
  stripInjection (applyInjection F B pos ext skill) ext skill (positionText pos)
  = match pos with
    | append => trimEnd F ++ [nl]
    | prepend => F
    end.
Proof.
  intros Hext Hskill HF HB Hfm. destruct pos.
  - by apply (stripInjection_applied F B ext skill append).
  - rewrite (stripInjection_applied F B ext skill prepend) by done.
    destruct (frontMatter F) as [n|] eqn:Hn; [done | by destruct Hfm].
Qed.

Lemma stripInjection_applyInjection_witness :
  let F := lit "---" ++ [nl] ++ lit "name: aif-commit" ++ [nl] ++ lit "---"
             ++ [nl] ++ lit "Commit the staged changes." ++ [nl] in
  let B := lit "Run the linter first." ++ [nl] in
  stripInjection (applyInjection F B prepend (lit "hello") (lit "aif-commit"))
    (lit "hello") (lit "aif-commit") (lit "prepend") = F
  /\ stripInjection (applyInjection F B append (lit "hello") (lit "aif-commit"))
    (lit "hello") (lit "aif-commit") (lit "append") = trimEnd F ++ [nl].
Proof.
  split.
  - apply (stripInjection_applyInjection _ _ (lit "hello") (lit "aif-commit") prepend);
      [reflexivity | reflexivity | vm_compute; reflexivity
      | vm_compute; reflexivity | intros _; vm_compute; discriminate].
  - apply (stripInjection_applyInjection _ _ (lit "hello") (lit "aif-commit") append);
      [reflexivity | reflexivity | vm_compute; reflexivity
      | vm_compute; reflexivity | intros H; discriminate H].
Defined.

(** * Running the commands *)

(** ** Lists *)

Lemma filter_all {A : Type} (P : A -> Prop) `{!forall x, Decision (P x)}
    (l : list A) :
  (forall x, x ∈ l -> P x) -> filter P l = l.
Proof.
  induction l as [|x l IH]; intros Hall; [done |].
  rewrite filter_cons, decide_True by (apply Hall; by left).
  f_equal. apply IH. intros y Hy. apply Hall. by right.
Qed.

Lemma length_filter_all {A : Type} (P : A -> Prop) `{!forall x, Decision (P x)}
    (l : list A) :
  length (filter P l) = length l <-> Forall P l.
Proof.
  induction l as [|x l IH]; [by split |].
  rewrite filter_cons, Forall_cons. destruct (decide (P x)) as [HP|HP]; simpl.
  - rewrite <- IH. split; [intros Hlen; split; [done | lia] | intros [_ Hlen]; lia].
  - pose proof (length_filter P l). split; [lia | by intros [? _]].
Qed.

Lemma length_filter_pos {A : Type} (P : A -> Prop) `{!forall x, Decision (P x)}
    (l : list A) :
  0 < length (filter P l) <-> Exists P l.
Proof.
  induction l as [|x l IH].
  - split; [simpl; lia | by intros Hex%Exists_nil].
  - rewrite filter_cons, Exists_cons. destruct (decide (P x)) as [HP|HP]; simpl.
    + split; [by left | lia].
    + rewrite IH. split; [by right | by intros [?|?]].
Qed.

Section MonadFacts.
Context {X : Type}.
Implicit Types st : State X.

Lemma exec_bind {A B : Type} (m : M A) (k : A -> M B) st :
  exec (bind m k) st = exec (k (eval m st)) (exec m st).
Proof. unfold exec, eval, bind. by destruct (m st). Qed.

Lemma eval_bind {A B : Type} (m : M A) (k : A -> M B) st :
  eval (bind m k) st = eval (k (eval m st)) (exec m st).
Proof. unfold exec, eval, bind. by destruct (m st). Qed.

Lemma exec_ret {A : Type} (a : A) st : exec (ret a) st = st.
Proof. done. Qed.

Lemma eval_ret {A : Type} (a : A) st : eval (ret a) st = a.
Proof. done. Qed.

Lemma exec_ask {A : Type} (f : World X -> A) st : exec (ask f) st = st.
Proof. done. Qed.

Lemma eval_ask {A : Type} (f : World X -> A) st : eval (ask f) st = f (world st).
Proof. done. Qed.

Lemma run_eq {A : Type} (m : M A) st : m st = (eval m st, exec m st).
Proof. unfold eval, exec. by destruct (m st). Qed.

Lemma emits_ret {A : Type} P (a : A) : emits (X:=X) P (ret a).
Proof. intros st. split; [done |]. exists []. by rewrite app_nil_r. Qed.

Lemma emits_bind {A B : Type} P (m : M A) (k : A -> M B) :
  emits (X:=X) P m -> (forall a, emits (X:=X) P (k a)) -> emits (X:=X) P (bind m k).
Proof.
  intros Hm Hk st. rewrite exec_bind.
  destruct (Hm st) as [Hd [l [Hl HP]]].
  destruct (Hk (eval m st) (exec m st)) as [Hd' [l' [Hl' HP']]].
  split; [congruence |]. exists (l ++ l').
  rewrite Hl', Hl, app_assoc, forallb_app, HP, HP'. done.
Qed.

Lemma emits_forEach {A : Type} P (xs : list A) (body : A -> M unit) :
  (forall x, emits (X:=X) P (body x)) -> emits (X:=X) P (forEach xs body).
Proof.
  intros H. induction xs as [|x xs IH]; simpl.
  - apply emits_ret.
  - apply emits_bind; [apply H | by intros _].
Qed.

Lemma emits_foldM {A B : Type} P (body : B -> A -> M B) (b : B) (xs : list A) :
  (forall b x, emits (X:=X) P (body b x)) -> emits (X:=X) P (foldM body b xs).
Proof.
  intros H. revert b. induction xs as [|x xs IH]; intros b; simpl.
  - apply emits_ret.
  - apply emits_bind; [apply H | intros b'; apply IH].
Qed.

Lemma emits_when P (b : bool) (m : M unit) : emits (X:=X) P m -> emits (X:=X) P (when b m).
Proof. destruct b; [done | intros _; apply emits_ret]. Qed.

Lemma emits_emit (P : Event -> bool) (e : Event) : P e = true -> emits (X:=X) P (emit e).
Proof.
  intros He st. split; [done |]. exists [e]. simpl. by rewrite He.
Qed.

Lemma emits_ask {A : Type} P (f : World X -> A) : emits (X:=X) P (ask f).
Proof. intros st. split; [done |]. exists []. by rewrite app_nil_r. Qed.

Lemma emits_act {A : Type} P (f : World X -> A * World X) : emits (X:=X) P (act f).
Proof.
  intros st. unfold exec, act. destruct (f (world st)). simpl.
  split; [done |]. exists []. by rewrite app_nil_r.
Qed.

Lemma emits_weaken {A : Type} (P Q : Event -> bool) (m : M A) :
  (forall e, P e = true -> Q e = true) -> emits (X:=X) P m -> emits (X:=X) Q m.
Proof.
  intros HPQ Hm st. destruct (Hm st) as [Hd [l [Hl HP]]].
  split; [done |]. exists l. split; [done |].
  rewrite forallb_forall in HP |- *. auto.
Qed.

Lemma exec_loadConfig st : exec loadConfig st = st.
Proof. done. Qed.

Lemma eval_loadConfig st : eval loadConfig st = disk st.
Proof. done. Qed.

Lemma emits_nothing {A : Type} (m : M A) st :
  emits (X:=X) (fun _ => false) m ->
  disk (exec m st) = disk st /\ log (exec m st) = log st.
Proof.
  intros H. destruct (H st) as [Hd [l [Hl HP]]]. split; [done |].
  destruct l; [by rewrite app_nil_r in Hl | done].
Qed.

Lemma exec_saveConfig (config : AiFactoryConfig) st :
  disk (exec (saveConfig config) st) = Some config /\
  log (exec (saveConfig config) st) = log st ++ [SaveConfig config].
Proof. done. Qed.
End MonadFacts.

Ltac emits_step :=
  first
    [ apply emits_ret
    | apply emits_ask
    | apply emits_act
    | apply emits_emit; reflexivity
    | apply emits_when
    | apply emits_forEach; intros ?
    | apply emits_foldM; intros ? ?
    | apply emits_bind; [| intros ?]
    | match goal with
      | |- emits _ (match ?x with _ => _ end) => destruct x
      | |- emits _ (if ?b then _ else _) => destruct b
      end ].

Ltac emits_auto := repeat emits_step.

(** Unfolds the procedures down to their single effects and classifies
    them. *)
Ltac emits_all :=
  unfold cleanUpOldState, installCustomSkills, applySingleExtensionInjections,
    applyExtensionInjections, applyOneInjection, applyExtensionMcp,
    stripForRemoval, stripInjectionsByExtensionName, stripAllExtensionInjections,
    stripOneInjection, stripMarkersInFile,
    restoreAfterRemoval, restoreFailedReplacements, reinstallReplacements,
    doRemoveExtensionSkills, doInstallSkills, doInstallExtensionSkills,
    doCommitExtensionInstall, doRemoveExtensionFiles, doUpdateSkills,
    writeTextFile, readTextFile;
  emits_auto.

Section ProcedureFacts.
Context {X R J : Type} (C : Collaborators X R J).
Implicit Types st : State X.
Implicit Types agent : AgentInstallation.

Lemma emits_writeTextFile p content : emits isWriteFile (writeTextFile (X:=X) p content).
Proof. unfold writeTextFile. emits_auto. Qed.

Lemma emits_readTextFile P p : emits P (readTextFile (X:=X) p).
Proof. unfold readTextFile. emits_auto. Qed.

Lemma emits_applyOneInjection agent dir name count injection :
  emits isWriteFile (applyOneInjection C agent dir name count injection).
Proof.
  unfold applyOneInjection.
  repeat first [apply emits_writeTextFile | apply emits_readTextFile | emits_step].
Qed.

Lemma emits_applySingleExtensionInjections agent dir manifest :
  emits isWriteFile (applySingleExtensionInjections C agent dir manifest).
Proof.
  unfold applySingleExtensionInjections.
  repeat first [apply emits_applyOneInjection | emits_step].
Qed.

Lemma emits_applyExtensionInjections agent exts :
  emits isWriteFile (applyExtensionInjections C agent exts).
Proof.
  unfold applyExtensionInjections.
  repeat first [apply emits_applyOneInjection | emits_step].
Qed.

Lemma emits_stripAllExtensionInjections agent name manifest :
  emits isWriteFile (stripAllExtensionInjections C agent name manifest).
Proof.
  unfold stripAllExtensionInjections.
  repeat first [apply emits_writeTextFile | apply emits_readTextFile | emits_step].
Qed.

Lemma emits_stripInjectionsByExtensionName agent name :
  emits isWriteFile (stripInjectionsByExtensionName C agent name).
Proof.
  unfold stripInjectionsByExtensionName.
  repeat first [apply emits_writeTextFile | apply emits_readTextFile | emits_step].
Qed.

Lemma emits_doInstallExtensionSkills agent dir paths ov :
  emits isSkillStep (doInstallExtensionSkills C agent dir paths ov).
Proof. unfold doInstallExtensionSkills. emits_auto. Qed.

Lemma emits_doRemoveExtensionSkills agent names :
  emits isSkillStep (doRemoveExtensionSkills C agent names).
Proof. unfold doRemoveExtensionSkills. emits_auto. Qed.

Lemma emits_doInstallSkills agent names :
  emits isSkillStep (doInstallSkills C agent names).
Proof. unfold doInstallSkills. emits_auto. Qed.

Lemma emits_doUpdateSkills agent excluded :
  emits isSkillStep (doUpdateSkills C agent excluded).
Proof. unfold doUpdateSkills. emits_auto. Qed.

Lemma emits_doCommitExtensionInstall resolved :
  emits isSkillStep (doCommitExtensionInstall C resolved).
Proof. unfold doCommitExtensionInstall. emits_auto. Qed.

Lemma emits_doRemoveExtensionFiles name :
  emits isSkillStep (doRemoveExtensionFiles C name).
Proof. unfold doRemoveExtensionFiles. emits_auto. Qed.
End ProcedureFacts.

(** * extensionAddCommand *)

Section AddFacts.
Context {X R J : Type} (C : Collaborators X R J).
Implicit Types st : State X.
Implicit Types agent : AgentInstallation.

(** ** The conflict check *)

Lemma firstOwner_None name b (exts : list ExtensionRecord) :
  firstOwner name b exts = None <->
  forall other, other ∈ exts -> ext_name other <> name -> b ∉ owned other.
Proof.
  induction exts as [|e exts IH]; simpl.
  - split; [intros _ other H; by apply elem_of_nil in H | done].
  - destruct (bool_decide_reflect (ext_name e = name)) as [He|He].
    + rewrite IH. split.
      * intros H other Ho. apply elem_of_cons in Ho as [->|Ho]; [done | by apply H].
      * intros H other Ho. apply H. by right.
    + destruct (bool_decide_reflect (b ∈ orEmpty (replacedSkills e))) as [Hb|Hb].
      * split; [done |]. intros H. exfalso. apply (H e); [by left | done | done].
      * rewrite IH. split.
        -- intros H other Ho. apply elem_of_cons in Ho as [->|Ho]; [done | by apply H].
        -- intros H other Ho. apply H. by right.
Qed.

Lemma findConflict_None name (entries : list (text * text)) exts :
  findConflict name entries exts = None <->
  forall e other, e ∈ entries -> other ∈ exts -> ext_name other <> name ->
                  e.2 ∉ owned other.
Proof.
  induction entries as [|[p b] entries IH]; simpl.
  - split; [intros _ e other H; by apply elem_of_nil in H | done].
  - destruct (firstOwner name b exts) as [o|] eqn:Ho.
    + split; [done |]. intros H.
      assert (firstOwner name b exts = None) as Hn; [|congruence].
      apply firstOwner_None. intros other Hin Hne.
      apply (H (p, b) other); [by left | done | done].
    + rewrite IH. rewrite firstOwner_None in Ho. split.
      * intros H e other He. apply elem_of_cons in He as [->|He]; [by apply Ho | by apply H].
      * intros H e other He. apply H. by right.
Qed.

(** ** Single calls *)

Lemma doInstallExtensionSkills_spec agent dir paths ov st :
  let m := doInstallExtensionSkills C agent dir paths ov in
  log (exec m st) =
    log st ++ [InstallExtensionSkills (agent_id agent) paths ov (eval m st)]
  /\ disk (exec m st) = disk st.
Proof.
  unfold doInstallExtensionSkills, exec, eval, bind, act, emit, ret. simpl.
  by destruct (installExtensionSkills C agent dir paths ov (world st)).
Qed.

Lemma doRemoveExtensionSkills_spec agent names st :
  let m := doRemoveExtensionSkills C agent names in
  log (exec m st) = log st ++ [RemoveExtensionSkills (agent_id agent) names]
  /\ disk (exec m st) = disk st.
Proof.
  unfold doRemoveExtensionSkills, exec, eval, bind, act, emit, ret. simpl.
  by destruct (removeExtensionSkills C agent names (world st)).
Qed.

Lemma doInstallSkills_spec agent names st :
  let m := doInstallSkills C agent names in
  log (exec m st) = log st ++ [InstallSkills (agent_id agent) names]
  /\ disk (exec m st) = disk st.
Proof. done. Qed.

(** A loop whose body performs one effect. *)
Lemma forEach_spec {A : Type} (xs : list A) (body : A -> M (X:=X) unit)
    (ev : A -> Event) st :
  (forall x st, log (exec (body x) st) = log st ++ [ev x]
                /\ disk (exec (body x) st) = disk st) ->
  log (exec (forEach xs body) st) = log st ++ map ev xs
  /\ disk (exec (forEach xs body) st) = disk st.
Proof.
  intros H. revert st. induction xs as [|x xs IH]; intros st; simpl.
  - by rewrite app_nil_r.
  - rewrite exec_bind. destruct (H x st) as [Hl Hd].
    destruct (IH (exec (body x) st)) as [Hl' Hd'].
    rewrite Hl', Hd', Hl, Hd. by rewrite <- app_assoc.
Qed.

Lemma forEach_remove_spec (agentList : list AgentInstallation) names st :
  let m := forEach agentList (fun agent =>
             bind (doRemoveExtensionSkills C agent names) (fun _ => ret tt)) in
  log (exec m st) =
    log st ++ map (fun agent => RemoveExtensionSkills (agent_id agent) names) agentList
  /\ disk (exec m st) = disk st.
Proof.
  apply forEach_spec. intros agent st'. rewrite exec_bind, exec_ret.
  apply doRemoveExtensionSkills_spec.
Qed.

Lemma forEach_install_spec (agentList : list AgentInstallation) names st :
  let m := forEach agentList (fun agent => doInstallSkills C agent names) in
  log (exec m st) =
    log st ++ map (fun agent => InstallSkills (agent_id agent) names) agentList
  /\ disk (exec m st) = disk st.
Proof. apply forEach_spec. intros agent st'. apply doInstallSkills_spec. Qed.

(** The same loops, on the project. *)
Lemma forEach_remove_world (agentList : list AgentInstallation) names st :
  world (exec (forEach agentList (fun agent =>
                 bind (doRemoveExtensionSkills C agent names) (fun _ => ret tt)))
           st)
  = removeFromAgents C agentList names (world st).
Proof.
  revert st. induction agentList as [|agent agentList IH]; intros st; [done |].
  cbn [forEach]. rewrite exec_bind, IH, exec_bind, exec_ret.
  unfold removeFromAgents. cbn [foldl]. f_equal.
  unfold doRemoveExtensionSkills, exec, bind, act, emit, ret.
  by destruct (removeExtensionSkills C agent names (world st)).
Qed.

Lemma forEach_install_world (agentList : list AgentInstallation) names st :
  world (exec (forEach agentList (fun agent => doInstallSkills C agent names)) st)
  = installOnAgents C agentList names (world st).
Proof.
  revert st. induction agentList as [|agent agentList IH]; intros st; [done |].
  cbn [forEach]. by rewrite exec_bind, IH.
Qed.

(** ** Counting the installations *)

Lemma occurrences_cons (b x : text) (l : list text) :
  occurrences b (x :: l) = (if decide (x = b) then 1 else 0) + occurrences b l.
Proof. unfold occurrences. rewrite filter_cons. by destruct (decide (x = b)). Qed.

Lemma occurrences_app (b : text) (l k : list text) :
  occurrences b (l ++ k) = occurrences b l + occurrences b k.
Proof. unfold occurrences. by rewrite filter_app, length_app. Qed.

Lemma bump_lookup (m : gmap text nat) (x b : text) :
  default 0 (bump m x !! b) =
  default 0 (m !! b) + (if decide (x = b) then 1 else 0).
Proof.
  unfold bump. destruct (decide (x = b)) as [->|Hne].
  - by rewrite lookup_insert_eq.
  - rewrite lookup_insert_ne by done. lia.
Qed.

Lemma bump_fold (m : gmap text nat) (l : list text) (b : text) :
  default 0 (foldl bump m l !! b) = default 0 (m !! b) + occurrences b l.
Proof.
  revert m. induction l as [|x l IH]; intros m; simpl.
  - unfold occurrences. simpl. lia.
  - rewrite IH, bump_lookup, occurrences_cons. lia.
Qed.

Lemma countLoop_spec (agentList : list AgentInstallation) (dir : path)
    (paths : list text) (ov : list (text * text)) (m0 : gmap text nat) st :
  let m := foldM (fun perAgentResults agent =>
                    bind (doInstallExtensionSkills C agent dir paths (Some ov))
                      (fun installed => ret (foldl bump perAgentResults installed)))
                 m0 agentList in
  exists results,
    length results = length agentList
    /\ log (exec m st) = log st ++ installEvents agentList paths ov results
    /\ disk (exec m st) = disk st
    /\ forall b, default 0 (eval m st !! b) =
                 default 0 (m0 !! b) + occurrences b (concat results).
Proof.
  revert m0 st. induction agentList as [|agent agentList IH]; intros m0 st; simpl.
  - exists []. split; [done |]. split; [by rewrite app_nil_r |].
    split; [done |]. intros b.
    change (default 0 (m0 !! b) = default 0 (m0 !! b) + 0). lia.
  - set (call := doInstallExtensionSkills C agent dir paths (Some ov)).
    destruct (doInstallExtensionSkills_spec agent dir paths (Some ov) st)
      as [Hl Hd]. fold call in Hl, Hd.
    repeat (rewrite ?exec_bind, ?eval_bind, ?exec_ret, ?eval_ret).
    destruct (IH (foldl bump m0 (eval call st)) (exec call st))
      as [results [Hlen [Hl' [Hd' Hc]]]].
    exists (eval call st :: results). repeat split.
    + simpl. by rewrite Hlen.
    + rewrite Hl', Hl. simpl. by rewrite <- app_assoc.
    + by rewrite Hd', Hd.
    + intros b. rewrite Hc, bump_fold. simpl. rewrite occurrences_app. lia.
Qed.

Lemma countInstalled_spec (agentList : list AgentInstallation) (dir : path)
    (paths : list text) (ov : list (text * text)) st :
  let m := countInstalled C agentList dir paths ov in
  exists results,
    length results = length agentList
    /\ log (exec m st) = log st ++ installEvents agentList paths ov results
    /\ disk (exec m st) = disk st
    /\ forall b, default 0 (eval m st !! b) = occurrences b (concat results).
Proof.
  destruct (countLoop_spec agentList dir paths ov ∅ st)
    as [results [Hlen [Hl [Hd Hc]]]].
  exists results. repeat split; done.
Qed.

(** ** Settling the replacements *)

Lemma settleReplacement_spec (agentList : list AgentInstallation)
    (m : gmap text nat) (acc : list text * list text) (entry : text * text) st :
  let count := default 0 (m !! entry.2) in
  let run := settleReplacement C agentList m acc entry in
  eval run st =
    (if bool_decide (count = length agentList) then acc.1 ++ [entry.2] else acc.1,
     acc.2 ++ [entry.1])
  /\ log (exec run st) = log st ++ rollbackEvents C agentList count entry.2
  /\ disk (exec run st) = disk st.
Proof.
  unfold settleReplacement, rollbackEvents. cbv zeta.
  destruct (bool_decide (default 0 (m !! entry.2) = length agentList)).
  - by rewrite app_nil_r.
  - destruct (0 <? default 0 (m !! entry.2)); [|by rewrite app_nil_r].
    rewrite !exec_bind, !eval_bind, exec_ret, eval_ret.
    set (st1 := exec (forEach agentList _) st).
    destruct (forEach_remove_spec agentList [entry.2] st) as [Hl1 Hd1].
    fold st1 in Hl1, Hd1.
    destruct (bool_decide (entry.2 ∈ getAvailableSkills C)); simpl when.
    + destruct (forEach_install_spec agentList [entry.2] st1) as [Hl2 Hd2].
      rewrite Hl2, Hd2, Hl1, Hd1. by rewrite <- app_assoc.
    + rewrite exec_ret, Hl1, Hd1. by rewrite app_nil_r.
Qed.

Lemma settleLoop_spec (agentList : list AgentInstallation) (m : gmap text nat)
    (entries : list (text * text)) (acc : list text * list text) st :
  let run := foldM (settleReplacement C agentList m) acc entries in
  eval run st =
    (acc.1 ++ filter (fun b => default 0 (m !! b) = length agentList)
                (map snd entries),
     acc.2 ++ map fst entries)
  /\ log (exec run st) =
       log st ++ flat_map (fun e : text * text =>
                             rollbackEvents C agentList (default 0 (m !! e.2)) e.2)
                   entries
  /\ disk (exec run st) = disk st.
Proof.
  revert acc st. induction entries as [|entry entries IH]; intros acc st.
  - simpl. rewrite !app_nil_r. by destruct acc.
  - cbn [foldM]. cbv zeta. rewrite exec_bind, eval_bind.
    destruct (settleReplacement_spec agentList m acc entry st) as [He [Hl Hd]].
    destruct (IH (eval (settleReplacement C agentList m acc entry) st)
                 (exec (settleReplacement C agentList m acc entry) st))
      as [He' [Hl' Hd']].
    rewrite He', Hl', Hd', Hl, Hd, He. cbn [fst snd map flat_map].
    rewrite filter_cons.
    destruct (bool_decide_reflect (default 0 (m !! entry.2) = length agentList))
      as [Heq|Hne].
    + rewrite decide_True by done. by rewrite <- !app_assoc.
    + rewrite decide_False by done. by rewrite <- !app_assoc.
Qed.

Lemma installReplacementSkills_spec (agentList : list AgentInstallation)
    (dir : path) (manifest : ExtensionManifest) st :
  let entries := orEmpty (replaces manifest) in
  let run := installReplacementSkills C agentList dir manifest in
  exists results,
    (entries <> [] -> length results = length agentList)
    /\ eval run st =
         (fullyInstalled agentList results entries,
          match entries with [] => [] | _ => map fst entries end)
    /\ log (exec run st) = log st ++ replacementEvents C agentList entries results
    /\ disk (exec run st) = disk st.
Proof.
  unfold installReplacementSkills, fullyInstalled, replacementEvents.
  destruct (replaces manifest) as [[|e es]|]; simpl orEmpty; cbv zeta.
  - exists []. by rewrite app_nil_r.
  - rewrite exec_bind, eval_bind.
    set (entries := e :: es).
    destruct (countInstalled_spec agentList dir (map fst entries) entries st)
      as [results [Hlen [Hl [Hd Hc]]]].
    set (m := eval (countInstalled C agentList dir (map fst entries) entries) st)
      in *.
    set (st1 := exec (countInstalled C agentList dir (map fst entries) entries) st)
      in *.
    destruct (settleLoop_spec agentList m entries ([], []) st1) as [He [Hl' Hd']].
    exists results. split; [done |]. rewrite He, Hl', Hd', Hl, Hd.
    split; [|split; [|done]].
    + cbn [fst snd app]. f_equal.
      apply list_filter_iff. intros b. by rewrite Hc.
    + rewrite <- app_assoc. do 2 f_equal.
      apply flat_map_ext. intros a. by rewrite Hc.
  - exists []. by rewrite app_nil_r.
Qed.

(** ** The installation of the replacements, on the project *)

Lemma countLoop_world (agentList : list AgentInstallation) (dir : path)
    (paths : list text) (ov : list (text * text)) (m0 : gmap text nat) st :
  let m := foldM (fun perAgentResults agent =>
                    bind (doInstallExtensionSkills C agent dir paths (Some ov))
                      (fun installed => ret (foldl bump perAgentResults installed)))
                 m0 agentList in
  let calls := replaceOnAgents C agentList dir paths ov (world st) in
  length calls.1 = length agentList
  /\ log (exec m st) = log st ++ installEvents agentList paths ov calls.1
  /\ world (exec m st) = calls.2
  /\ disk (exec m st) = disk st
  /\ forall b, default 0 (eval m st !! b) =
               default 0 (m0 !! b) + occurrences b (concat calls.1).
Proof.
  revert m0 st. induction agentList as [|agent agentList IH]; intros m0 st.
  - cbn. split; [done |]. split; [by rewrite app_nil_r |].
    split; [done |]. split; [done |]. intros b.
    change (default 0 (m0 !! b) = default 0 (m0 !! b) + 0). lia.
  - cbn [foldM replaceOnAgents]. cbv zeta.
    set (call := doInstallExtensionSkills C agent dir paths (Some ov)).
    assert (eval call st = (installExtensionSkills C agent dir paths (Some ov)
                              (world st)).1
            /\ world (exec call st)
               = (installExtensionSkills C agent dir paths (Some ov) (world st)).2
            /\ log (exec call st)
               = log st ++ [InstallExtensionSkills (agent_id agent) paths (Some ov)
                              (eval call st)]
            /\ disk (exec call st) = disk st) as (He & Hw & Hl & Hd).
    { subst call. unfold doInstallExtensionSkills, exec, eval, bind, act, emit, ret.
      by destruct (installExtensionSkills C agent dir paths (Some ov) (world st)). }
    repeat (rewrite ?exec_bind, ?eval_bind, ?exec_ret, ?eval_ret).
    destruct (IH (foldl bump m0 (eval call st)) (exec call st))
      as (Hlen & Hl' & Hw' & Hd' & Hc).
    rewrite Hw in Hlen, Hl', Hw', Hc. cbn [fst snd].
    split; [cbn; by rewrite Hlen |].
    split; [rewrite Hl', Hl, <- He; cbn; by rewrite <- app_assoc |].
    split; [done |]. split; [by rewrite Hd', Hd |].
    intros b. rewrite Hc, bump_fold, He. cbn [concat].
    rewrite occurrences_app. lia.
Qed.

Lemma settleReplacement_world (agentList : list AgentInstallation)
    (m : gmap text nat) (acc : list text * list text) (entry : text * text) st :
  world (exec (settleReplacement C agentList m acc entry) st)
  = rollBackBy C agentList (default 0 (m !! entry.2)) entry.2 (world st).
Proof.
  unfold settleReplacement, rollBackBy, rollBack. cbv zeta.
  destruct (bool_decide (default 0 (m !! entry.2) = length agentList)); [done |].
  destruct (0 <? default 0 (m !! entry.2)); [|done].
  rewrite !exec_bind, exec_ret.
  destruct (bool_decide (entry.2 ∈ getAvailableSkills C)); cbn [when].
  - by rewrite forEach_install_world, forEach_remove_world.
  - by rewrite exec_ret, forEach_remove_world.
Qed.

Lemma settleLoop_world (agentList : list AgentInstallation) (m : gmap text nat)
    (entries : list (text * text)) (acc : list text * list text) st :
  world (exec (foldM (settleReplacement C agentList m) acc entries) st)
  = foldl (fun w (e : text * text) =>
             rollBackBy C agentList (default 0 (m !! e.2)) e.2 w)
      (world st) entries.
Proof.
  revert acc st. induction entries as [|entry entries IH]; intros acc st; [done |].
  cbn [foldM foldl]. by rewrite exec_bind, IH, settleReplacement_world.
Qed.

Lemma installReplacementSkills_world (agentList : list AgentInstallation)
    (dir : path) (manifest : ExtensionManifest) st :
  let entries := orEmpty (replaces manifest) in
  let run := installReplacementSkills C agentList dir manifest in
  let calls := replaceOnAgents C agentList dir (map fst entries) entries (world st) in
  entries <> [] ->
  length calls.1 = length agentList
  /\ eval run st = (fullyInstalled agentList calls.1 entries, map fst entries)
  /\ log (exec run st) = log st ++ replacementEvents C agentList entries calls.1
  /\ disk (exec run st) = disk st
  /\ world (exec run st)
     = foldl (fun w (e : text * text) =>
                rollBackBy C agentList (occurrences e.2 (concat calls.1)) e.2 w)
         calls.2 entries.
Proof.
  unfold installReplacementSkills, fullyInstalled, replacementEvents.
  destruct (replaces manifest) as [[|e es]|];
    cbn [orEmpty default from_option id]; cbv zeta; [done | | done].
  intros _. rewrite exec_bind, eval_bind.
  set (entries := e :: es).
  destruct (countLoop_world agentList dir (map fst entries) entries ∅ st)
    as (Hlen & Hl & Hw & Hd & Hc).
  fold (countInstalled C agentList dir (map fst entries) entries) in Hl, Hw, Hd, Hc.
  set (m := eval (countInstalled C agentList dir (map fst entries) entries) st) in *.
  set (st1 := exec (countInstalled C agentList dir (map fst entries) entries) st)
    in *.
  set (calls := replaceOnAgents C agentList dir (map fst entries) entries (world st))
    in *.
  assert (forall b, default 0 (m !! b) = occurrences b (concat calls.1)) as Hcount
    by (intros b; by rewrite Hc).
  destruct (settleLoop_spec agentList m entries ([], []) st1) as [He [Hl' Hd']].
  split; [done |]. rewrite He, Hl', Hd', Hl, Hd, settleLoop_world, Hw.
  split; [|split; [|split; [done |]]].
  - cbn [fst snd app]. f_equal. apply list_filter_iff. intros b.
    by rewrite Hcount.
  - rewrite <- app_assoc. do 2 f_equal.
    apply flat_map_ext. intros a. by rewrite Hcount.
  - generalize calls.2. clearbody m calls entries. clear -Hcount.
    induction entries as [|a entries IH]; intros w; [done |].
    cbn [foldl]. by rewrite Hcount, IH.
Qed.

(** ** The whole command *)

Lemma emits_cleanUpOldState agentList manifest oldRecord oldManifest :
  emits isOtherStep (cleanUpOldState C agentList manifest oldRecord oldManifest).
Proof. emits_all. Qed.

Lemma emits_installCustomSkills agentList dir manifest replacesPaths :
  emits isOtherStep (installCustomSkills C agentList dir manifest replacesPaths).
Proof. emits_all. Qed.

Lemma emits_applyInjections agentList dir manifest :
  emits isInjectionOrMcp
    (foldM (fun totalInjections agent =>
              bind (applySingleExtensionInjections C agent dir manifest)
                (fun count => ret (totalInjections + count))) 0 agentList).
Proof. emits_all. Qed.

Lemma emits_applyExtensionMcp agentIds dir manifest :
  emits isInjectionOrMcp (applyExtensionMcp C agentIds dir manifest).
Proof. emits_all. Qed.

(** What a run of [extensionAddCommand] does when the source resolves and
    no replacement conflicts: the effects before the installation of the
    replacements, that installation, the custom skills, the write of the
    store, and what follows it. *)
Lemma extensionAddCommand_run (source : text) st (config : AiFactoryConfig)
    (manifest : ExtensionManifest) (r : R) :
  disk st = Some config ->
  resolveExtension C (world st) source = Some (manifest, r) ->
  findConflict (m_name manifest) (orEmpty (replaces manifest))
    (orEmpty (extensions config)) = None ->
  let exts := orEmpty (extensions config) in
  let entries := orEmpty (replaces manifest) in
  let run := extensionAddCommand C source in
  eval run st = Done /\
  exists results before custom after,
    let replaced := fullyInstalled (agents config) results entries in
    let config' :=
      withExtensions config
        (putRecord exts (findIndex (m_name manifest) exts)
           (makeRecord manifest source replaced)) in
    (entries <> [] -> length results = length (agents config))
    /\ log (exec run st) =
         log st ++ before ++ replacementEvents C (agents config) entries results
           ++ custom ++ [SaveConfig config'] ++ after
    /\ disk (exec run st) = Some config'
    /\ forallb isOtherStep before = true
    /\ forallb isOtherStep custom = true
    /\ forallb isInjectionOrMcp after = true.
Proof.
  intros Hdisk Hres Hconf exts entries run. subst run.
  unfold extensionAddCommand.
  rewrite eval_bind, exec_bind, eval_loadConfig, exec_loadConfig, Hdisk.
  rewrite eval_bind, exec_bind, eval_ask, exec_ask, Hres.
  cbn [fst]. fold exts. fold entries exts in Hconf.
  rewrite eval_bind, exec_bind.
  set (load := match findIndex (m_name manifest) exts with
               | Some _ => ask _
               | None => ret None
               end).
  assert (exec load st = st) as ->
    by (subst load; by destruct (findIndex (m_name manifest) exts)).
  generalize (eval load st). clear load.
  intros oldManifest. fold entries. rewrite Hconf.
  set (prepare :=
         bind (doCommitExtensionInstall C (manifest, r)) (fun _ =>
           match findIndex (m_name manifest) exts ≫= (fun i => exts !! i) with
           | Some oldRecord =>
               cleanUpOldState C (agents config) manifest oldRecord oldManifest
           | None => ret tt
           end)).
  assert (emits isOtherStep prepare) as Hprepare.
  { subst prepare. apply emits_bind.
    - unfold doCommitExtensionInstall. emits_auto.
    - intros _. destruct (_ ≫= _); [apply emits_cleanUpOldState | apply emits_ret]. }
  rewrite !eval_bind, !exec_bind, !eval_ret, !exec_ret.
  split; [done |].
  set (st1 := exec (doCommitExtensionInstall C (manifest, r)) st).
  set (st2 := exec (match findIndex (m_name manifest) exts ≫= _ with
                    | Some oldRecord => _ | None => _ end) st1).
  assert (disk st2 = disk st /\
          exists l, log st2 = log st ++ l /\ forallb isOtherStep l = true)
    as [Hd2 [before [Hl2 Hbefore]]].
  { specialize (Hprepare st). subst prepare. by rewrite exec_bind in Hprepare. }
  set (dir := extensionDirOf (m_name manifest)).
  destruct (installReplacementSkills_spec (agents config) dir manifest st2)
    as [results [Hlen [He3 [Hl3 Hd3]]]].
  fold entries in Hlen, He3, Hl3.
  set (st3 := exec (installReplacementSkills C (agents config) dir manifest) st2) in *.
  rewrite He3. cbn [fst snd].
  set (paths := match entries with [] => [] | _ => map fst entries end).
  destruct (emits_installCustomSkills (agents config) dir manifest paths st3)
    as [Hd4 [custom [Hl4 Hcustom]]].
  set (st4 := exec (installCustomSkills C (agents config) dir manifest paths) st3) in *.
  unfold saveRecord. cbv zeta.
  set (config' :=
         withExtensions config
           (putRecord exts (findIndex (m_name manifest) exts)
              (makeRecord manifest source
                 (fullyInstalled (agents config) results entries)))).
  set (st5 := exec (saveConfig config') st4).
  assert (disk st5 = Some config' /\ log st5 = log st4 ++ [SaveConfig config'])
    as [Hd5 Hl5] by done.
  set (inject := if hasLength (injections manifest) then _ else ret tt).
  assert (emits isInjectionOrMcp inject) as Hinject.
  { subst inject. destruct (hasLength (injections manifest)); [|apply emits_ret].
    apply emits_bind; [apply emits_applyInjections | intros _; apply emits_ret]. }
  destruct (Hinject st5) as [Hd6 [l6 [Hl6 HP6]]].
  set (st6 := exec inject st5) in *.
  set (mcp := if hasLength (mcpServers manifest) then _ else ret tt).
  assert (emits isInjectionOrMcp mcp) as Hmcp.
  { subst mcp. destruct (hasLength (mcpServers manifest)); [|apply emits_ret].
    apply emits_bind; [apply emits_applyExtensionMcp | intros _; apply emits_ret]. }
  destruct (Hmcp st6) as [Hd7 [l7 [Hl7 HP7]]].
  exists results, before, custom, (l6 ++ l7). cbv zeta.
  split; [done |]. split; [|split; [|split; [done | split; [done |]]]].
  - rewrite Hl7, Hl6, Hl5, Hl4, Hl3, Hl2. by rewrite <- !app_assoc.
  - by rewrite Hd7, Hd6, Hd5.
  - by rewrite forallb_app, HP6, HP7.
Qed.
(** A run of [extensionAddCommand], part by part: the preparation, the
    installation of the replacements, of the custom skills, the write of
    the store, and the injections and MCP servers. *)
Lemma extensionAddCommand_parts (source : text) st (config : AiFactoryConfig)
    (manifest : ExtensionManifest) (r : R) :
  disk st = Some config ->
  resolveExtension C (world st) source = Some (manifest, r) ->
  findConflict (m_name manifest) (orEmpty (replaces manifest))
    (orEmpty (extensions config)) = None ->
  let exts := orEmpty (extensions config) in
  let agentList := agents config in
  let dir := extensionDirOf (m_name manifest) in
  let prepared := exec (prepareInstall C config (manifest, r)) st in
  let install := installReplacementSkills C agentList dir manifest in
  let settled := exec install prepared in
  let customDone :=
    exec (installCustomSkills C agentList dir manifest (eval install prepared).2)
      settled in
  let saved :=
    exec (saveRecord config exts (findIndex (m_name manifest) exts) manifest
            source (eval install prepared).1) customDone in
  extensionAddCommand C source st
  = (Done, exec (applyInjectionsAndMcp C agentList dir manifest) saved).
Proof.
  intros Hdisk Hres Hconf exts agentList dir. cbv zeta.
  rewrite run_eq. unfold extensionAddCommand, prepareInstall, applyInjectionsAndMcp.
  rewrite eval_bind, exec_bind, eval_loadConfig, exec_loadConfig, Hdisk.
  rewrite eval_bind, exec_bind, eval_ask, exec_ask, Hres.
  cbn [fst]. fold exts agentList dir. fold exts in Hconf.
  rewrite eval_bind, exec_bind, Hconf.
  by repeat (rewrite ?eval_bind, ?exec_bind, ?eval_ret, ?exec_ret).
Qed.

Lemma emits_prepareInstall config resolved :
  emits (fun e => isSkillStep e || isWriteFile e) (prepareInstall C config resolved).
Proof. unfold prepareInstall. emits_all. Qed.

Lemma emits_installCustomSkills_skills agentList dir manifest replacesPaths :
  emits isSkillStep (installCustomSkills C agentList dir manifest replacesPaths).
Proof. emits_all. Qed.
End AddFacts.

(** ** Properties of extensionAddCommand *)

Lemma since_app {X : Type} (st st' : State X) (l : list Event) :
  log st' = log st ++ l -> since st st' = l.
Proof. unfold since. intros ->. apply drop_app_length. Qed.

Lemma owned_makeRecord (manifest : ExtensionManifest) (source : text)
    (replaced : list text) :
  owned (makeRecord manifest source replaced) = replaced.
Proof. by destruct replaced. Qed.

Lemma replacementEvents_no_agents {X R J : Type} (C : Collaborators X R J)
    (entries : list (text * text)) (results : list (list text)) :
  replacementEvents C [] entries results = [].
Proof.
  unfold replacementEvents. destruct entries as [|e es]; [done |].
  unfold installEvents. cbn [zip_with app].
  induction (e :: es) as [|x xs IH]; [done |].
  cbn [flat_map]. rewrite IH. unfold rollbackEvents.
  repeat case_match; done.
Qed.

(** C3.  When a base skill of the new manifest's [replaces] is owned by a
    recorded extension of another name, [extensionAddCommand] ends with the
    conflict error and the state it ends in is the state it started from:
    nothing was copied into the extension storage, no file of an agent and
    not the store was changed. *)
Theorem extensionAddCommand_conflict {X R J : Type} (C : Collaborators X R J)
    (source : text) (st : State X) (config : AiFactoryConfig)
    (manifest : ExtensionManifest) (r : R) (entry : text * text)
    (other : ExtensionRecord) :
  disk st = Some config ->
  resolveExtension C (world st) source = Some (manifest, r) ->
  entry ∈ orEmpty (replaces manifest) ->
  other ∈ orEmpty (extensions config) ->
  ext_name other <> m_name manifest ->
  entry.2 ∈ owned other ->
  exists baseSkillName owner,
    extensionAddCommand C source st = (Exit (Conflict baseSkillName owner), st).
Proof.
  intros Hdisk Hres Hentry Hother Hname Howned.
  destruct (findConflict (m_name manifest) (orEmpty (replaces manifest))
              (orEmpty (extensions config))) as [[b o]|] eqn:Hconf.
  - exists b, o. rewrite run_eq. unfold extensionAddCommand.
    rewrite eval_bind, exec_bind, eval_loadConfig, exec_loadConfig, Hdisk.
    rewrite eval_bind, exec_bind, eval_ask, exec_ask, Hres.
    cbn [fst]. rewrite eval_bind, exec_bind, Hconf.
    by destruct (findIndex (m_name manifest) (orEmpty (extensions config))).
  - exfalso. rewrite findConflict_None in Hconf.
    by apply (Hconf entry other).
Qed.

Lemma extensionAddCommand_conflict_witness :
  exists baseSkillName owner,
    extensionAddCommand Demo.collaborators (lit "./b") Demo.conflicting
    = (Exit (Conflict baseSkillName owner), Demo.conflicting).
Proof.
  apply (extensionAddCommand_conflict Demo.collaborators (lit "./b")
           Demo.conflicting
           (Demo.configOf [Demo.agent "claude"; Demo.agent "codex"]
              [Demo.record "a" (Some [lit "shared"])])
           (Demo.claimsShared "b") tt (lit "p", lit "shared")
           (Demo.record "a" (Some [lit "shared"]))).
  - reflexivity.
  - reflexivity.
  - compute_done.
  - compute_done.
  - compute_done.
  - compute_done.
Defined.

(** C10.  With an empty agent list, every base skill of the manifest's
    [replaces] is written into the record's [replacedSkills], although no
    call installed a replacement for any agent. *)
Theorem extensionAddCommand_no_agents {X R J : Type} (C : Collaborators X R J)
    (source : text) (st : State X) (config : AiFactoryConfig)
    (manifest : ExtensionManifest) (r : R) :
  disk st = Some config ->
  agents config = [] ->
  resolveExtension C (world st) source = Some (manifest, r) ->
  findConflict (m_name manifest) (orEmpty (replaces manifest))
    (orEmpty (extensions config)) = None ->
  orEmpty (replaces manifest) <> [] ->
  let exts := orEmpty (extensions config) in
  let bases := map snd (orEmpty (replaces manifest)) in
  let record := makeRecord manifest source bases in
  let st' := exec (extensionAddCommand C source) st in
  eval (extensionAddCommand C source) st = Done
  /\ disk st' =
       Some (withExtensions config
               (putRecord exts (findIndex (m_name manifest) exts) record))
  /\ replacedSkills record = Some bases
  /\ forallb (fun e => negb (isReplacementInstall e)) (since st st') = true.
Proof.
  intros Hdisk Hagents Hres Hconf Hne exts bases record st'.
  destruct (extensionAddCommand_run C source st config manifest r Hdisk Hres Hconf)
    as [Hdone [results [before [custom [after [Hlen [Hlog [Hd [Hb [Hc Ha]]]]]]]]]].
  fold exts in Hlog, Hd.
  specialize (Hlen Hne). rewrite Hagents in Hlen. simpl in Hlen.
  destruct results; [|done].
  assert (fullyInstalled (agents config) [] (orEmpty (replaces manifest)) = bases)
    as Hfull.
  { unfold fullyInstalled, bases. rewrite Hagents. simpl.
    by apply filter_all. }
  rewrite Hfull in Hlog, Hd. fold record in Hlog, Hd.
  split; [done |]. split; [done |]. split.
  - subst record bases. unfold makeRecord. simpl.
    by destruct (orEmpty (replaces manifest)).
  - rewrite (since_app st st' _ Hlog).
    rewrite Hagents, replacementEvents_no_agents.
    rewrite !forallb_app. simpl.
    assert (forall l, forallb isOtherStep l = true ->
                      forallb (fun e => negb (isReplacementInstall e)) l = true)
      as Hother.
    { intros l Hl. rewrite forallb_forall in Hl |- *. intros e He.
      specialize (Hl e He). unfold isOtherStep in Hl.
      by apply andb_true_iff in Hl as [_ ?]. }
    assert (forall l, forallb isInjectionOrMcp l = true ->
                      forallb (fun e => negb (isReplacementInstall e)) l = true)
      as Hinj.
    { intros l Hl. rewrite forallb_forall in Hl |- *. intros e He.
      specialize (Hl e He). by destruct e. }
    by rewrite (Hother _ Hb), (Hother _ Hc), (Hinj _ Ha).
Qed.

Lemma extensionAddCommand_no_agents_witness :
  let st' := exec (extensionAddCommand Demo.collaborators (lit "./hello")) Demo.noAgents in
  disk st' =
    Some (Demo.configOf []
            [{| ext_name := lit "hello-commit"; ext_source := lit "./hello";
                ext_version := lit "1.0.0";
                replacedSkills := Some [lit "aif-commit"] |}])
  /\ forallb (fun e => negb (isReplacementInstall e)) (since Demo.noAgents st') = true.
Proof.
  destruct (extensionAddCommand_no_agents Demo.collaborators (lit "./hello")
              Demo.noAgents (Demo.configOf [] []) Demo.helloCommit tt)
    as [_ [Hd [_ Hl]]].
  - reflexivity.
  - reflexivity.
  - reflexivity.
  - reflexivity.
  - vm_compute. discriminate.
  - split; [exact Hd | exact Hl].
Defined.

(** ** Partial installation of a replacement *)

Lemma occurrences_NoDup (b : text) (res : list text) :
  NoDup res -> occurrences b res = if decide (b ∈ res) then 1 else 0.
Proof.
  induction 1 as [|x res Hx Hnd IH].
  - destruct (decide (b ∈ [])) as [Hin|_]; [by apply elem_of_nil in Hin | done].
  - rewrite occurrences_cons, IH.
    destruct (decide (x = b)) as [->|Hne], (decide (b ∈ res)) as [Hin|Hin],
      (decide (b ∈ _ :: res)) as [Hin'|Hin']; try done.
    + exfalso. apply Hin'. by left.
    + exfalso. apply Hin'. by right.
    + apply elem_of_cons in Hin' as [?|?]; [by subst | done].
Qed.

Lemma occurrences_concat (b : text) (results : list (list text)) :
  Forall NoDup results ->
  occurrences b (concat results) = length (filter (fun res => b ∈ res) results).
Proof.
  induction 1 as [|res results Hres Hrest IH]; [done |].
  simpl. rewrite occurrences_app, IH, occurrences_NoDup, filter_cons by done.
  by destruct (decide (b ∈ res)).
Qed.

Lemma installedOnAll_spec (results : list (list text)) (b : text) :
  installedOnAll results b = true <-> Forall (fun installed => b ∈ installed) results.
Proof.
  unfold installedOnAll. rewrite forallb_forall, Forall_forall. split.
  - intros H res Hres%list_elem_of_In. specialize (H res Hres).
    by apply bool_decide_eq_true in H.
  - intros H res Hres%list_elem_of_In. apply bool_decide_eq_true. by apply H.
Qed.

Lemma installedOnSome_spec (results : list (list text)) (b : text) :
  installedOnSome results b = true <-> Exists (fun installed => b ∈ installed) results.
Proof.
  unfold installedOnSome. rewrite existsb_exists, Exists_exists. split.
  - intros [res [Hres%list_elem_of_In Hb]]. apply bool_decide_eq_true in Hb.
    by exists res.
  - intros [res [Hres%list_elem_of_In Hb]]. exists res.
    split; [done | by apply bool_decide_eq_true].
Qed.

(** The count the command keeps for a replacement, when no call returns a
    name twice: the number of agents whose call returned it. *)
Section Counted.
Context {X R J : Type} (C : Collaborators X R J).
Variables (agentList : list AgentInstallation) (results : list (list text)).
Hypothesis same_length : length results = length agentList.
Hypothesis distinct_results : Forall NoDup results.

Lemma counted_all (b : text) :
  occurrences b (concat results) = length agentList <->
  installedOnAll results b = true.
Proof using same_length distinct_results.
  by rewrite occurrences_concat, <- same_length, length_filter_all,
    installedOnAll_spec.
Qed.

Lemma counted_some (b : text) :
  0 < occurrences b (concat results) <-> installedOnSome results b = true.
Proof using distinct_results.
  by rewrite occurrences_concat, length_filter_pos, installedOnSome_spec.
Qed.

Lemma counted_partly (b : text) :
  (if bool_decide (occurrences b (concat results) = length agentList) then false
   else 0 <? occurrences b (concat results))
  = installedOnSome results b && negb (installedOnAll results b).
Proof using same_length distinct_results.
  pose proof (counted_all b) as Hall. pose proof (counted_some b) as Hsome.
  destruct (bool_decide_reflect
              (occurrences b (concat results) = length agentList)) as [Heq|Hne].
  - rewrite (proj1 Hall Heq). by rewrite andb_false_r.
  - destruct (installedOnAll results b); [by destruct Hne; apply Hall |].
    rewrite andb_true_r. destruct (Nat.ltb_spec 0 (occurrences b (concat results)))
      as [Hpos|Hzero].
    + symmetry. by apply Hsome.
    + destruct (installedOnSome results b); [|done].
      assert (0 < occurrences b (concat results)) by (by apply Hsome). lia.
Qed.

Lemma rollBackBy_partly (b : text) (w : World X) :
  rollBackBy C agentList (occurrences b (concat results)) b w
  = if installedOnSome results b && negb (installedOnAll results b)
    then rollBack C agentList b w else w.
Proof using same_length distinct_results.
  rewrite <- (counted_partly b). unfold rollBackBy.
  destruct (bool_decide (occurrences b (concat results) = length agentList));
    [done |].
  by destruct (0 <? occurrences b (concat results)).
Qed.

Lemma rollbackEvents_partly (b : text) :
  rollbackEvents C agentList (occurrences b (concat results)) b
  = if installedOnSome results b && negb (installedOnAll results b)
    then rollBackCalls C agentList b else [].
Proof using same_length distinct_results.
  rewrite <- (counted_partly b). unfold rollbackEvents, rollBackCalls.
  destruct (bool_decide (occurrences b (concat results) = length agentList));
    [done |].
  by destruct (0 <? occurrences b (concat results)).
Qed.

Lemma fullyInstalled_all (entries : list (text * text)) :
  fullyInstalled agentList results entries
  = filter (fun b => installedOnAll results b = true) (map snd entries).
Proof using same_length distinct_results.
  unfold fullyInstalled. apply list_filter_iff. intros b. apply counted_all.
Qed.
End Counted.




(** * extensionRemoveCommand and updateCommand *)

Section RemoveFacts.
Context {X R J : Type} (C : Collaborators X R J).
Implicit Types st : State X.

Lemma restoreAfterRemoval_spec (agentList : list AgentInstallation)
    (exts : list ExtensionRecord) (index : nat) (extRecord : ExtensionRecord) st :
  let run := restoreAfterRemoval C agentList exts index extRecord in
  let toRestore := restoredAfterRemoval C exts index extRecord in
  log (exec run st) =
    log st ++ (if 0 <? length toRestore
               then map (fun agent => InstallSkills (agent_id agent) toRestore)
                      agentList
               else [])
  /\ disk (exec run st) = disk st.
Proof.
  unfold restoreAfterRemoval, restoredAfterRemoval. cbv zeta.
  destruct (replacedSkills extRecord) as [[|s rs]|]; simpl hasLength; simpl orEmpty.
  - rewrite filter_nil. simpl. by rewrite app_nil_r.
  - destruct (0 <? length _); simpl when.
    + apply forEach_install_spec.
    + by rewrite app_nil_r.
  - rewrite filter_nil. simpl. by rewrite app_nil_r.
Qed.

(** What a run of [extensionRemoveCommand] does for an installed
    extension. *)
Lemma extensionRemoveCommand_run (name : text) st (config : AiFactoryConfig)
    (index : nat) (extRecord : ExtensionRecord) :
  disk st = Some config ->
  findIndex name (orEmpty (extensions config)) = Some index ->
  orEmpty (extensions config) !! index = Some extRecord ->
  let exts := orEmpty (extensions config) in
  let run := extensionRemoveCommand C name in
  let toRestore := restoredAfterRemoval C exts index extRecord in
  let config' := withExtensions config (delete index exts) in
  eval run st = Done /\
  exists before after,
    log (exec run st) =
      log st ++ before
        ++ (if 0 <? length toRestore
            then map (fun agent => InstallSkills (agent_id agent) toRestore)
                   (agents config)
            else [])
        ++ after ++ [SaveConfig config']
    /\ disk (exec run st) = Some config'
    /\ forallb isQuietStep before = true
    /\ forallb isQuietStep after = true.
Proof.
  intros Hdisk Hindex Hrecord exts run toRestore config'. subst run.
  unfold extensionRemoveCommand.
  rewrite eval_bind, exec_bind, eval_loadConfig, exec_loadConfig, Hdisk.
  fold exts in Hindex, Hrecord |- *. rewrite Hindex, Hrecord.
  rewrite eval_bind, exec_bind, exec_ask.
  generalize (eval (ask (fun w => loadExtensionManifest C w (extensionDirOf name))) st).
  intros manifest.
  set (strip := stripForRemoval C (agents config) name manifest).
  set (removeOwned := when (hasLength (replacedSkills extRecord)) _).
  set (removeCustom := match manifest with
                       | Some m => if hasLength (skills m) then _ else ret tt
                       | None => ret tt
                       end).
  set (restore := restoreAfterRemoval C (agents config) exts index extRecord).
  set (removeMcp := match manifest with
                    | Some m => if hasLength (mcpServers m) then _ else ret tt
                    | None => ret tt
                    end).
  assert (emits isQuietStep (bind strip (fun _ => bind removeOwned (fun _ => removeCustom))))
    as Hbefore by (subst strip removeOwned removeCustom; emits_all).
  assert (emits isQuietStep (bind removeMcp (fun _ => doRemoveExtensionFiles C name)))
    as Hafter by (subst removeMcp; emits_all).
  rewrite !eval_bind, !exec_bind, !eval_ret, !exec_ret.
  split; [done |].
  destruct (Hbefore st) as [Hd1 [before [Hl1 HP1]]].
  rewrite !exec_bind in Hd1, Hl1.
  set (st1 := exec removeCustom _) in *.
  destruct (restoreAfterRemoval_spec (agents config) exts index extRecord st1)
    as [Hl2 Hd2].
  fold restore toRestore in Hl2, Hd2.
  set (st2 := exec restore st1) in *.
  destruct (Hafter st2) as [Hd3 [after [Hl3 HP3]]].
  rewrite !exec_bind in Hd3, Hl3.
  set (st3 := exec (doRemoveExtensionFiles C name) _) in *.
  exists before, after.
  fold config'. destruct (exec_saveConfig config' st3) as [Hd4 Hl4].
  split; [|split; [done | by split]].
  rewrite Hl4, Hl3, Hl2, Hl1. by rewrite <- !app_assoc.
Qed.
(** The project after a run of [extensionRemoveCommand]: the calls that
    follow the stripping, in their order. *)
Lemma extensionRemoveCommand_world (name : text) st (config : AiFactoryConfig)
    (index : nat) (extRecord : ExtensionRecord) :
  disk st = Some config ->
  findIndex name (orEmpty (extensions config)) = Some index ->
  orEmpty (extensions config) !! index = Some extRecord ->
  let exts := orEmpty (extensions config) in
  let agentList := agents config in
  let manifest := loadExtensionManifest C (world st) (extensionDirOf name) in
  let toRestore := restoredAfterRemoval C exts index extRecord in
  let stripped := world (exec (stripForRemoval C agentList name manifest) st) in
  let unreplaced :=
    if hasLength (replacedSkills extRecord)
    then removeFromAgents C agentList (owned extRecord) stripped
    else stripped in
  let customSkillPaths :=
    filter (fun s => s ∉ map fst (orEmpty (manifest ≫= replaces)))
      (orEmpty (manifest ≫= skills)) in
  let removed :=
    if 0 <? length customSkillPaths
    then removeFromAgents C agentList customSkillPaths unreplaced
    else unreplaced in
  let restored :=
    if 0 <? length toRestore
    then installOnAgents C agentList toRestore removed
    else removed in
  let mcpKeys := map key (orEmpty (manifest ≫= mcpServers)) in
  let unconfigured :=
    if 0 <? length mcpKeys
    then removeMcpFromAgents C agentList mcpKeys restored
    else restored in
  world (exec (extensionRemoveCommand C name) st)
  = removeExtensionFiles C name unconfigured.
Proof.
  intros Hdisk Hindex Hrecord exts agentList. cbv zeta.
  unfold extensionRemoveCommand.
  rewrite exec_bind, eval_loadConfig, exec_loadConfig, Hdisk.
  fold exts in Hindex, Hrecord |- *. rewrite Hindex, Hrecord.
  rewrite exec_bind, exec_ask, eval_ask. fold agentList.
  set (manifest := loadExtensionManifest C (world st) (extensionDirOf name)).
  repeat (rewrite ?exec_bind, ?exec_ret).
  set (st1 := exec (stripForRemoval C agentList name manifest) st).
  change (world (exec (stripForRemoval C agentList name manifest) st))
    with (world st1).
  set (st2 := exec (when (hasLength (replacedSkills extRecord)) _) st1).
  assert (world st2 =
          if hasLength (replacedSkills extRecord)
          then removeFromAgents C agentList (owned extRecord) (world st1)
          else world st1) as <-.
  { subst st2. destruct (hasLength (replacedSkills extRecord));
      cbn [when]; [|by rewrite exec_ret].
    by rewrite forEach_remove_world. }
  set (st3 := exec (match manifest with Some m => _ | None => _ end) st2).
  set (customSkillPaths := filter _ (orEmpty (manifest ≫= skills))).
  assert (world st3 =
          if 0 <? length customSkillPaths
          then removeFromAgents C agentList customSkillPaths (world st2)
          else world st2) as <-.
  { subst st3 customSkillPaths. destruct manifest as [m|].
    - change (Some m ≫= skills) with (skills m).
      change (Some m ≫= replaces) with (replaces m).
      destruct (skills m) as [[|s l]|]; cbn [hasLength orEmpty default from_option id].
      + by rewrite filter_nil, exec_ret.
      + destruct (0 <? length _); cbn [when]; [|by rewrite exec_ret].
        by rewrite forEach_remove_world.
      + by rewrite filter_nil, exec_ret.
    - by rewrite exec_ret. }
  set (st4 := exec (restoreAfterRemoval C agentList exts index extRecord) st3).
  set (toRestore := restoredAfterRemoval C exts index extRecord).
  assert (world st4 =
          if 0 <? length toRestore
          then installOnAgents C agentList toRestore (world st3)
          else world st3) as <-.
  { subst st4 toRestore. unfold restoreAfterRemoval, restoredAfterRemoval.
    cbv zeta.
    destruct (replacedSkills extRecord) as [[|s rs]|];
      cbn [hasLength orEmpty default from_option id].
    - by rewrite filter_nil, exec_ret.
    - destruct (0 <? length _); cbn [when]; [|by rewrite exec_ret].
      by rewrite forEach_install_world.
    - by rewrite filter_nil, exec_ret. }
  set (st5 := exec (match manifest with Some m => _ | None => _ end) st4).
  set (mcpKeys := map key (orEmpty (manifest ≫= mcpServers))).
  assert (world st5 =
          if 0 <? length mcpKeys
          then removeMcpFromAgents C agentList mcpKeys (world st4)
          else world st4) as <-; [|done].
  subst st5 mcpKeys. destruct manifest as [m|]; [|by rewrite exec_ret].
  change (Some m ≫= mcpServers) with (mcpServers m).
  destruct (mcpServers m) as [[|srv l]|]; cbn [hasLength orEmpty default from_option id];
    [by rewrite exec_ret | | by rewrite exec_ret].
  change (0 <? length (map key (srv :: l))) with true. cbv iota.
  generalize st4. unfold removeMcpFromAgents.
  induction agentList as [|agent l' IH]; intros st0; [done |].
  cbn [forEach foldl]. by rewrite exec_bind, IH.
Qed.
End RemoveFacts.

Lemma elem_of_stillReplacedBy (others : list ExtensionRecord) (s : text) :
  s ∈ stillReplacedBy others <-> exists other, other ∈ others /\ s ∈ owned other.
Proof.
  unfold stillReplacedBy. rewrite elem_of_list_to_set, list_elem_of_In, in_flat_map.
  split; intros [other [Ho Hs]]; exists other; split; by apply list_elem_of_In.
Qed.

Lemma filter_quiet (l : list Event) :
  forallb isQuietStep l = true -> filter (fun e => isInstallSkills e = true) l = [].
Proof.
  induction l as [|e l IH]; [done |]. cbn [forallb].
  intros [He Hl]%andb_true_iff. rewrite filter_cons, IH by done.
  rewrite decide_False; [done |]. unfold isQuietStep in He.
  apply andb_true_iff in He as [_ He]. by destruct (isInstallSkills e).
Qed.

Lemma filter_installSkills (agentList : list AgentInstallation) (names : list text) :
  filter (fun e => isInstallSkills e = true)
    (map (fun agent => InstallSkills (agent_id agent) names) agentList)
  = map (fun agent => InstallSkills (agent_id agent) names) agentList.
Proof.
  induction agentList as [|agent l IH]; [done |].
  cbn [map]. rewrite filter_cons, decide_True by done. by rewrite IH.
Qed.

(** C8.  When extension [name] is removed, the base skills that are
    reinstalled are those of its recorded [replacedSkills] that are in the
    catalog of available base skills and that no remaining record lists.
    When there is one, [installSkills] is called with them once for every
    configured agent, in the order of the agents, on the project as the
    removal of the extension's skills left it; nothing else calls it.  The
    project the command leaves is given call by call. *)
Theorem extensionRemoveCommand_restores {X R J : Type} (C : Collaborators X R J)
    (name : text) (st : State X) (config : AiFactoryConfig) (index : nat)
    (extRecord : ExtensionRecord) :
  disk st = Some config ->
  findIndex name (orEmpty (extensions config)) = Some index ->
  orEmpty (extensions config) !! index = Some extRecord ->
  let exts := orEmpty (extensions config) in
  let agentList := agents config in
  let manifest := loadExtensionManifest C (world st) (extensionDirOf name) in
  let toRestore := restoredAfterRemoval C exts index extRecord in
  let stripped := world (exec (stripForRemoval C agentList name manifest) st) in
  let unreplaced :=
    if hasLength (replacedSkills extRecord)
    then removeFromAgents C agentList (owned extRecord) stripped
    else stripped in
  let customSkillPaths :=
    filter (fun s => s ∉ map fst (orEmpty (manifest ≫= replaces)))
      (orEmpty (manifest ≫= skills)) in
  let removed :=
    if 0 <? length customSkillPaths
    then removeFromAgents C agentList customSkillPaths unreplaced
    else unreplaced in
  let restored :=
    if 0 <? length toRestore
    then installOnAgents C agentList toRestore removed
    else removed in
  let mcpKeys := map key (orEmpty (manifest ≫= mcpServers)) in
  let unconfigured :=
    if 0 <? length mcpKeys
    then removeMcpFromAgents C agentList mcpKeys restored
    else restored in
  let st' := exec (extensionRemoveCommand C name) st in
  eval (extensionRemoveCommand C name) st = Done
  /\ (forall s, s ∈ toRestore <->
        s ∈ owned extRecord /\ s ∈ getAvailableSkills C
        /\ forall other, other ∈ delete index exts -> s ∉ owned other)
  /\ world st' = removeExtensionFiles C name unconfigured
  /\ filter (fun e => isInstallSkills e = true) (since st st')
     = if 0 <? length toRestore
       then map (fun agent => InstallSkills (agent_id agent) toRestore) agentList
       else [].
Proof.
  intros Hdisk Hindex Hrecord exts agentList manifest toRestore stripped
    unreplaced customSkillPaths removed restored mcpKeys unconfigured st'.
  destruct (extensionRemoveCommand_run C name st config index extRecord
              Hdisk Hindex Hrecord)
    as [Hdone [before [after [Hlog [_ [Hb Ha]]]]]].
  apply since_app in Hlog. fold st' exts toRestore agentList in Hlog.
  split; [done |]. split; [|split].
  - intros s. unfold toRestore, restoredAfterRemoval.
    rewrite list_elem_of_filter, elem_of_stillReplacedBy. unfold owned. split.
    + intros [[Hav Hno] Hs]. split; [done |]. split; [done |].
      intros other Ho Hin. apply Hno. by exists other.
    + intros (Hs & Hav & Hno). split; [|done]. split; [done |].
      intros [other [Ho Hin]]. by apply (Hno other).
  - by apply extensionRemoveCommand_world.
  - rewrite Hlog, !filter_app, (filter_quiet before), (filter_quiet after)
      by done.
    cbn [app]. rewrite app_nil_r.
    destruct (0 <? length toRestore); [apply filter_installSkills | done].
Qed.

Lemma extensionRemoveCommand_restores_witness :
  let st' := exec (extensionRemoveCommand Demo.collaborators (lit "hello-commit"))
               Demo.helloInstalled in
  Demo.placed (aux (world st'))
  = [(lit "claude", lit "aif-commit", lit "base");
     (lit "codex", lit "aif-commit", lit "base")]
  /\ filter (fun e => isInstallSkills e = true) (since Demo.helloInstalled st')
     = [InstallSkills (lit "claude") [lit "aif-commit"];
        InstallSkills (lit "codex") [lit "aif-commit"]].
Proof.
  destruct (extensionRemoveCommand_restores Demo.collaborators (lit "hello-commit")
              Demo.helloInstalled
              (Demo.configOf [Demo.agent "claude"; Demo.agent "codex"]
                 [Demo.record "hello-commit" (Some [lit "aif-commit"])])
              0 (Demo.record "hello-commit" (Some [lit "aif-commit"])))
    as (_ & _ & Hworld & Hcalls).
  - reflexivity.
  - reflexivity.
  - reflexivity.
  - split.
    + rewrite Hworld. vm_compute. reflexivity.
    + rewrite Hcalls. vm_compute. reflexivity.
Defined.

Section UpdateFacts.
Context {X R J : Type} (C : Collaborators X R J).
Implicit Types st : State X.

Lemma owned_withReplacedSkills (ext : ExtensionRecord) (rs : list text) :
  owned (withReplacedSkills ext rs) = rs.
Proof. done. Qed.

(** One visit of the loop over the records: the record keeps its name and
    owns no more than before. *)
Lemma reinstallReplacements_eval (agentList : list AgentInstallation)
    (acc : list text * list ExtensionRecord) (ext : ExtensionRecord) st :
  exists released ext',
    eval (reinstallReplacements C agentList acc ext) st
    = (acc.1 ++ released, acc.2 ++ [ext'])
    /\ ext_name ext' = ext_name ext
    /\ owned ext' ⊆ owned ext.
Proof.
  unfold reinstallReplacements. cbv zeta.
  destruct (hasLength (replacedSkills ext)); simpl negb; cbv iota.
  - rewrite eval_bind, eval_ask.
    destruct (loadExtensionManifest C (world st) _ ≫= replaces) as [entries|].
    + rewrite eval_bind, eval_ret.
      destruct (0 <? length _).
      * eexists _, _. split; [done |]. split; [done |].
        rewrite owned_withReplacedSkills. intros s Hs.
        by apply list_elem_of_filter in Hs as [_ ?].
      * exists [], ext. by rewrite app_nil_r.
    + rewrite eval_ret. eexists _, _. split; [done |]. split; [done |].
      rewrite owned_withReplacedSkills. by intros s Hs%elem_of_nil.
  - rewrite eval_ret. exists [], ext. by rewrite app_nil_r.
Qed.

Lemma reinstallLoop_eval (agentList : list AgentInstallation)
    (exts : list ExtensionRecord) (acc : list text * list ExtensionRecord) st :
  exists released exts',
    eval (foldM (reinstallReplacements C agentList) acc exts) st
    = (acc.1 ++ released, acc.2 ++ exts')
    /\ shrunk exts exts'.
Proof.
  revert acc st. induction exts as [|ext exts IH]; intros acc st.
  - exists [], []. rewrite !app_nil_r. split; [by destruct acc | constructor].
  - cbn [foldM]. rewrite eval_bind.
    destruct (reinstallReplacements_eval agentList acc ext st)
      as [released [ext' [He [Hname Hsub]]]].
    rewrite He.
    destruct (IH (acc.1 ++ released, acc.2 ++ [ext'])
                 (exec (reinstallReplacements C agentList acc ext) st))
      as [released' [exts' [He' Hshrunk]]].
    rewrite He'. exists (released ++ released'), (ext' :: exts').
    cbn [fst snd]. rewrite <- !app_assoc. split; [done |]. by constructor.
Qed.

Lemma emits_reinstallReplacements agentList acc ext :
  emits isNotSave (reinstallReplacements C agentList acc ext).
Proof. emits_all. Qed.

(** What a run of [updateCommand] does. *)
Lemma updateCommand_run st (config : AiFactoryConfig) :
  disk st = Some config ->
  let run := updateCommand C in
  eval run st = Done /\
  exists before agentList exts',
    let config' :=
      {| cfg_version := getCurrentVersion C;
         agents := agentList;
         extensions := match extensions config with
                       | Some _ => Some exts'
                       | None => None
                       end |} in
    log (exec run st) = log st ++ before ++ [SaveConfig config']
    /\ disk (exec run st) = Some config'
    /\ shrunk (orEmpty (extensions config)) exts'
    /\ forallb isNotSave before = true.
Proof.
  intros Hdisk run. subst run. unfold updateCommand.
  rewrite eval_bind, exec_bind, eval_loadConfig, exec_loadConfig, Hdisk.
  set (exts := orEmpty (extensions config)).
  set (refresh := foldM _ [] (agents config)).
  rewrite !eval_bind, !exec_bind, !eval_ret, !exec_ret.
  split; [done |].
  assert (emits isNotSave refresh) as Hrefresh by (subst refresh; emits_all).
  destruct (Hrefresh st) as [Hd1 [l1 [Hl1 HP1]]].
  set (agentList := eval refresh st) in *.
  set (st1 := exec refresh st) in *.
  destruct (reinstallLoop_eval agentList exts ([], []) st1)
    as [released [exts' [He Hshrunk]]].
  assert (emits isNotSave (foldM (reinstallReplacements C agentList) ([], []) exts))
    as Hloop by (apply emits_foldM; intros; apply emits_reinstallReplacements).
  destruct (Hloop st1) as [Hd2 [l2 [Hl2 HP2]]].
  set (st2 := exec (foldM (reinstallReplacements C agentList) ([], []) exts) st1) in *.
  rewrite He. cbn [fst snd app].
  assert (emits isNotSave (restoreFailedReplacements C agentList released exts'))
    as Hrestore by emits_all.
  destruct (Hrestore st2) as [Hd3 [l3 [Hl3 HP3]]].
  set (st3 := exec (restoreFailedReplacements C agentList released exts') st2) in *.
  set (inject := if hasLength (extensions config) then _ else ret tt).
  assert (emits isNotSave inject) as Hinject by (subst inject; emits_all).
  destruct (Hinject st3) as [Hd4 [l4 [Hl4 HP4]]].
  set (st4 := exec inject st3) in *.
  exists (l1 ++ l2 ++ l3 ++ l4), agentList, exts'. cbv zeta.
  split; [|split; [done | split; [done |]]].
  - cbn [log exec saveConfig snd]. rewrite Hl4, Hl3, Hl2, Hl1.
    by rewrite <- !app_assoc.
  - by rewrite !forallb_app, HP1, HP2, HP3, HP4.
Qed.
End UpdateFacts.

(** * Ownership of base skills *)

Lemma findIndex_Some (name : text) (exts : list ExtensionRecord) (i : nat) :
  findIndex name exts = Some i ->
  exists r, exts !! i = Some r /\ ext_name r = name.
Proof.
  revert i. induction exts as [|e exts IH]; intros i; simpl; [done |].
  destruct (bool_decide_reflect (ext_name e = name)) as [He|He].
  - intros [= <-]. by exists e.
  - destruct (findIndex name exts) as [j|]; [|done].
    intros [= <-]. by apply IH.
Qed.

Lemma findIndex_None (name : text) (exts : list ExtensionRecord) :
  findIndex name exts = None -> name ∉ map ext_name exts.
Proof.
  induction exts as [|e exts IH]; simpl; [intros _; apply not_elem_of_nil |].
  destruct (bool_decide_reflect (ext_name e = name)) as [He|He]; [done |].
  destruct (findIndex name exts) as [j|]; [done |].
  intros _ [?|?]%elem_of_cons; [done | by apply IH].
Qed.

Lemma names_distinct (exts : list ExtensionRecord) (i j : nat)
    (r1 r2 : ExtensionRecord) :
  NoDup (map ext_name exts) -> i <> j ->
  exts !! i = Some r1 -> exts !! j = Some r2 -> ext_name r1 <> ext_name r2.
Proof.
  intros Hnd Hij H1 H2 Heq. apply Hij.
  apply (NoDup_lookup (map ext_name exts) i j (ext_name r1)); [done | |].
  - by rewrite list_lookup_fmap, H1.
  - by rewrite list_lookup_fmap, H2, Heq.
Qed.

Lemma shrunk_names (exts exts' : list ExtensionRecord) :
  shrunk exts exts' -> map ext_name exts' = map ext_name exts.
Proof.
  induction 1 as [|e e' exts exts' [Hname _] _ IH]; [done |].
  simpl. by rewrite Hname, IH.
Qed.

Lemma exclusive_shrunk (exts exts' : list ExtensionRecord) :
  shrunk exts exts' -> exclusive exts -> exclusive exts'.
Proof.
  intros Hs [Hnd Hex]. split; [by rewrite (shrunk_names exts exts') |].
  intros i j r1' r2' s Hij H1 H2 Hs1 Hs2.
  destruct (Forall2_lookup_r _ _ _ i r1' Hs H1) as [r1 [Hr1 [_ Hsub1]]].
  destruct (Forall2_lookup_r _ _ _ j r2' Hs H2) as [r2 [Hr2 [_ Hsub2]]].
  apply (Hex i j r1 r2 s); auto.
Qed.

Lemma exclusive_delete (exts : list ExtensionRecord) (index : nat) :
  exclusive exts -> exclusive (delete index exts).
Proof.
  intros [Hnd Hex]. split.
  - rewrite list_fmap_delete. eapply sublist_NoDup; [done | apply sublist_delete].
  - intros i j r1 r2 s Hij H1 H2.
    rewrite list_lookup_delete in H1, H2. intros Hs1 Hs2.
    eapply (Hex _ _ r1 r2 s); [| exact H1 | exact H2 | done | done].
    repeat case_decide; lia.
Qed.

Lemma exclusive_putRecord (exts : list ExtensionRecord) (record : ExtensionRecord) :
  exclusive exts ->
  (forall other s, other ∈ exts -> ext_name other <> ext_name record ->
                   s ∈ owned record -> s ∉ owned other) ->
  exclusive (putRecord exts (findIndex (ext_name record) exts) record).
Proof.
  intros [Hnd Hex] Hfree. unfold putRecord.
  destruct (findIndex (ext_name record) exts) as [k|] eqn:Hk.
  - destruct (findIndex_Some _ _ _ Hk) as [r0 [Hr0 Hname]].
    assert (k < length exts) as Hlt by (by apply lookup_lt_Some in Hr0).
    split.
    + rewrite list_fmap_insert, list_insert_id; [done |].
      rewrite list_lookup_fmap, Hr0. simpl. by rewrite Hname.
    + assert (forall j r, j <> k -> exts !! j = Some r ->
                          ext_name r <> ext_name record) as Hother.
      { intros j r Hj Hr. rewrite <- Hname.
        by apply (names_distinct exts j k). }
      intros i j r1 r2 s Hij H1 H2 Hs1 Hs2.
      destruct (decide (i = k)) as [->|Hi], (decide (j = k)) as [->|Hj]; [done | | |].
      * rewrite list_lookup_insert_eq in H1 by done. injection H1 as <-.
        rewrite list_lookup_insert_ne in H2 by done.
        apply (Hfree r2 s); eauto using list_elem_of_lookup_2.
      * rewrite list_lookup_insert_eq in H2 by done. injection H2 as <-.
        rewrite list_lookup_insert_ne in H1 by done.
        apply (Hfree r1 s); eauto using list_elem_of_lookup_2.
      * rewrite list_lookup_insert_ne in H1, H2 by done. by apply (Hex i j r1 r2 s).
  - apply findIndex_None in Hk. split.
    + rewrite fmap_app. apply NoDup_app. split; [done |]. split.
      * intros x Hx [->|[]%elem_of_nil]%elem_of_cons. done.
      * apply NoDup_singleton.
    + assert (forall j r, exts !! j = Some r -> ext_name r <> ext_name record)
        as Hother.
      { intros j r Hr Heq. apply Hk. rewrite <- Heq.
        apply list_elem_of_fmap. exists r. split; [done |].
        by apply list_elem_of_lookup_2 in Hr. }
      intros i j r1 r2 s Hij H1 H2 Hs1 Hs2.
      apply lookup_app_Some in H1 as [H1|[Hi H1]];
        apply lookup_app_Some in H2 as [H2|[Hj H2]].
      * by apply (Hex i j r1 r2 s).
      * apply list_lookup_singleton_Some in H2 as [_ <-].
        apply (Hfree r1 s); eauto using list_elem_of_lookup_2.
      * apply list_lookup_singleton_Some in H1 as [_ <-].
        apply (Hfree r2 s); eauto using list_elem_of_lookup_2.
      * apply list_lookup_singleton_Some in H1 as [? _].
        apply list_lookup_singleton_Some in H2 as [? _]. lia.
Qed.

Section Exclusive.
Context {X R J : Type} (C : Collaborators X R J).
Implicit Types st : State X.

Lemma extensionAddCommand_exclusive (source : text) st :
  storeExclusive (disk st) ->
  storeExclusive (disk (exec (extensionAddCommand C source) st)).
Proof.
  intros Hinv. destruct (disk st) as [config|] eqn:Hdisk.
  - destruct (resolveExtension C (world st) source) as [[manifest r]|] eqn:Hres.
    + destruct (findConflict (m_name manifest) (orEmpty (replaces manifest))
                  (orEmpty (extensions config))) as [[b o]|] eqn:Hconf.
      * assert (exec (extensionAddCommand C source) st = st) as ->; [|by rewrite Hdisk].
        unfold extensionAddCommand.
        rewrite exec_bind, eval_loadConfig, exec_loadConfig, Hdisk.
        rewrite exec_bind, eval_ask, exec_ask, Hres.
        cbn [fst]. rewrite exec_bind, Hconf.
        by destruct (findIndex (m_name manifest) (orEmpty (extensions config))).
      * destruct (extensionAddCommand_run C source st config manifest r
                    Hdisk Hres Hconf)
          as [_ [results [before [custom [after [_ [_ [Hd _]]]]]]]].
        rewrite Hd. simpl.
        set (replaced := fullyInstalled (agents config) results
                           (orEmpty (replaces manifest))).
        apply (exclusive_putRecord (orEmpty (extensions config))
                 (makeRecord manifest source replaced)); [done |].
        intros other s Hother Hname Hs. rewrite owned_makeRecord in Hs.
        apply list_elem_of_filter in Hs as [_ Hs].
        apply list_elem_of_fmap in Hs as [e [-> He]].
        rewrite findConflict_None in Hconf. by apply (Hconf e other).
    + assert (exec (extensionAddCommand C source) st = st) as ->; [|by rewrite Hdisk].
      unfold extensionAddCommand.
      rewrite exec_bind, eval_loadConfig, exec_loadConfig, Hdisk.
      by rewrite exec_bind, eval_ask, exec_ask, Hres.
  - assert (exec (extensionAddCommand C source) st = st) as ->; [|by rewrite Hdisk].
    unfold extensionAddCommand.
    by rewrite exec_bind, eval_loadConfig, exec_loadConfig, Hdisk.
Qed.

Lemma extensionRemoveCommand_exclusive (name : text) st :
  storeExclusive (disk st) ->
  storeExclusive (disk (exec (extensionRemoveCommand C name) st)).
Proof.
  intros Hinv. destruct (disk st) as [config|] eqn:Hdisk.
  - destruct (findIndex name (orEmpty (extensions config))) as [index|] eqn:Hindex.
    + destruct (findIndex_Some _ _ _ Hindex) as [extRecord [Hrecord _]].
      destruct (extensionRemoveCommand_run C name st config index extRecord
                  Hdisk Hindex Hrecord) as [_ [before [after [_ [Hd _]]]]].
      rewrite Hd. simpl. by apply exclusive_delete.
    + assert (exec (extensionRemoveCommand C name) st = st) as ->; [|by rewrite Hdisk].
      unfold extensionRemoveCommand.
      by rewrite exec_bind, eval_loadConfig, exec_loadConfig, Hdisk, Hindex.
  - assert (exec (extensionRemoveCommand C name) st = st) as ->; [|by rewrite Hdisk].
    unfold extensionRemoveCommand.
    by rewrite exec_bind, eval_loadConfig, exec_loadConfig, Hdisk.
Qed.

Lemma updateCommand_exclusive st :
  storeExclusive (disk st) -> storeExclusive (disk (exec (updateCommand C) st)).
Proof.
  intros Hinv. destruct (disk st) as [config|] eqn:Hdisk.
  - destruct (updateCommand_run C st config Hdisk)
      as [_ [before [agentList [exts' [_ [Hd [Hshrunk _]]]]]]].
    rewrite Hd. simpl. simpl in Hinv.
    destruct (extensions config) as [exts|]; simpl in *.
    + by apply (exclusive_shrunk exts).
    + done.
  - assert (exec (updateCommand C) st = st) as ->; [|by rewrite Hdisk].
    unfold updateCommand.
    by rewrite exec_bind, eval_loadConfig, exec_loadConfig, Hdisk.
Qed.
End Exclusive.

(** C5.  From a store in which no base skill is owned by two records (and
    a name identifies a record), every sequence of install, update and
    remove commands leads to such a store, whatever the collaborators do. *)
Theorem ownership_stays_exclusive {X R J : Type} (C : Collaborators X R J)
    (cs : list Command) (st : State X) :
  storeExclusive (disk st) -> storeExclusive (disk (runAll C cs st)).
Proof.
  revert st. induction cs as [|c cs IH]; intros st Hinv; [done |].
  simpl. apply IH. destruct c as [source| |name]; simpl.
  - by apply extensionAddCommand_exclusive.
  - by apply updateCommand_exclusive.
  - by apply extensionRemoveCommand_exclusive.
Qed.

Lemma ownership_stays_exclusive_witness :
  storeExclusive (disk (runAll Demo.collaborators Demo.session Demo.conflicting)).
Proof.
  apply (ownership_stays_exclusive Demo.collaborators Demo.session Demo.conflicting).
  simpl. split.
  - compute_done.
  - intros [|i] [|j] r1 r2 s Hij H1 H2; done.
Defined.

(** * When the store is written *)

(** C6, counterexample.  Installing an extension with an injection writes
    the store before the injection is applied to the agent's skill file.
    An update keeps [aif-commit] in the record of [hello-commit] although
    the call that reinstalls the replacement for the second agent returns
    nothing.  And an installation whose call for the first agent returns
    [aif-commit] twice records it as owned although the call for the second
    agent returns nothing. *)
Lemma store_written_before_injections :
  (let st' := exec (extensionAddCommand Demo.collaborators (lit "./notes"))
                Demo.notesProject in
   existsb isWriteFile (afterSave (since Demo.notesProject st')) = true)
  /\ (let st' := exec (updateCommand Demo.collaborators) Demo.reinstallFails in
      InstallExtensionSkills (lit "codex") [lit "skills/my-commit"]
        (Some [(lit "skills/my-commit", lit "aif-commit")]) []
        ∈ since Demo.reinstallFails st'
      /\ ownedInStore (disk st') = [(lit "hello-commit", [lit "aif-commit"])])
  /\ (let st' := exec (extensionAddCommand Demo.collaborators (lit "./twice"))
                   Demo.twoPaths in
      InstallExtensionSkills (lit "codex") [lit "skills/one"; lit "skills/two"]
        (Some [(lit "skills/one", lit "aif-commit");
               (lit "skills/two", lit "aif-commit")]) []
        ∈ since Demo.twoPaths st'
      /\ ownedInStore (disk st')
         = [(lit "twice", [lit "aif-commit"; lit "aif-commit"])]).
Proof.
  split; [by vm_compute |]. split.
  - split; [compute_done | by vm_compute].
  - split; [compute_done | by vm_compute].
Qed.

Lemma isOtherStep_isNotSave (l : list Event) :
  forallb isOtherStep l = true -> forallb isNotSave l = true.
Proof.
  intros Hl. rewrite forallb_forall in Hl |- *. intros e He.
  specialize (Hl e He). unfold isOtherStep in Hl.
  by apply andb_true_iff in Hl as [? _].
Qed.

Lemma isQuietStep_isNotSave (l : list Event) :
  forallb isQuietStep l = true -> forallb isNotSave l = true.
Proof.
  intros Hl. rewrite forallb_forall in Hl |- *. intros e He.
  specialize (Hl e He). unfold isQuietStep in Hl.
  by apply andb_true_iff in Hl as [? _].
Qed.

Lemma replacementEvents_isNotSave {X R J : Type} (C : Collaborators X R J)
    (agentList : list AgentInstallation) (entries : list (text * text))
    (results : list (list text)) :
  forallb isNotSave (replacementEvents C agentList entries results) = true.
Proof.
  unfold replacementEvents. destruct entries as [|e es]; [done |].
  rewrite forallb_app. apply andb_true_iff. split.
  - apply forallb_forall. intros x Hx%list_elem_of_In. unfold installEvents in Hx.
    by apply elem_of_zip_with in Hx as [a [res [-> _]]].
  - generalize (e :: es). intros entries.
    induction entries as [|x entries IH]; [done |].
    cbn [flat_map]. rewrite forallb_app, IH, andb_true_r.
    unfold rollbackEvents. repeat case_match; try done.
    + rewrite forallb_app. apply andb_true_iff.
      split; apply forallb_forall; intros y [z [<- _]]%in_map_iff; done.
    + rewrite app_nil_r. apply forallb_forall. by intros y [z [<- _]]%in_map_iff.
Qed.

Section WrittenOnce.
Context {X R J : Type} (C : Collaborators X R J).
Implicit Types st : State X.

Lemma extensionAddCommand_Done (source : text) st :
  eval (extensionAddCommand C source) st = Done ->
  exists config manifest r,
    disk st = Some config
    /\ resolveExtension C (world st) source = Some (manifest, r)
    /\ findConflict (m_name manifest) (orEmpty (replaces manifest))
         (orEmpty (extensions config)) = None.
Proof.
  unfold extensionAddCommand.
  rewrite eval_bind, eval_loadConfig, exec_loadConfig.
  destruct (disk st) as [config|] eqn:Hdisk; [|discriminate].
  rewrite eval_bind, eval_ask, exec_ask.
  destruct (resolveExtension C (world st) source) as [[manifest r]|] eqn:Hres;
    [|discriminate].
  cbn [fst]. rewrite eval_bind.
  destruct (findConflict (m_name manifest) (orEmpty (replaces manifest))
              (orEmpty (extensions config))) as [[b o]|] eqn:Hconf; [discriminate |].
  intros _. by exists config, manifest, r.
Qed.

Lemma extensionRemoveCommand_written_last (name : text) st :
  eval (extensionRemoveCommand C name) st = Done ->
  exists before config',
    since st (exec (extensionRemoveCommand C name) st) = before ++ [SaveConfig config']
    /\ disk (exec (extensionRemoveCommand C name) st) = Some config'
    /\ forallb isNotSave before = true.
Proof.
  intros Hdone. destruct (disk st) as [config|] eqn:Hdisk.
  2: { exfalso. revert Hdone. unfold extensionRemoveCommand.
       rewrite eval_bind, eval_loadConfig, exec_loadConfig, Hdisk. discriminate. }
  destruct (findIndex name (orEmpty (extensions config))) as [index|] eqn:Hindex.
  2: { exfalso. revert Hdone. unfold extensionRemoveCommand.
       rewrite eval_bind, eval_loadConfig, exec_loadConfig, Hdisk, Hindex.
       discriminate. }
  destruct (findIndex_Some _ _ _ Hindex) as [extRecord [Hrecord _]].
  destruct (extensionRemoveCommand_run C name st config index extRecord
              Hdisk Hindex Hrecord) as [_ [before [after [Hlog [Hd [Hb Ha]]]]]].
  apply since_app in Hlog.
  set (toRestore := restoredAfterRemoval C (orEmpty (extensions config)) index
                      extRecord) in *.
  set (restore := if 0 <? length toRestore
                  then map (fun agent => InstallSkills (agent_id agent) toRestore)
                         (agents config)
                  else []) in *.
  exists (before ++ restore ++ after), (withExtensions config
                                          (delete index (orEmpty (extensions config)))).
  split; [rewrite Hlog, <- !app_assoc; reflexivity |]. split; [exact Hd |].
  rewrite !forallb_app, (isQuietStep_isNotSave _ Hb), (isQuietStep_isNotSave _ Ha).
  rewrite andb_true_r. cbn [andb]. subst restore.
  destruct (0 <? length toRestore); [|reflexivity].
  apply forallb_forall. intros y [z [<- _]]%in_map_iff. reflexivity.
Qed.
End WrittenOnce.

Lemma replacementEvents_isSkillStep {X R J : Type} (C : Collaborators X R J)
    (agentList : list AgentInstallation) (entries : list (text * text))
    (results : list (list text)) :
  forallb isSkillStep (replacementEvents C agentList entries results) = true.
Proof.
  unfold replacementEvents. destruct entries as [|e es]; [done |].
  rewrite forallb_app. apply andb_true_iff. split.
  - apply forallb_forall. intros x Hx%list_elem_of_In. unfold installEvents in Hx.
    by apply elem_of_zip_with in Hx as [a [res [-> _]]].
  - generalize (e :: es). intros entries.
    induction entries as [|x entries IH]; [done |].
    cbn [flat_map]. rewrite forallb_app, IH, andb_true_r.
    unfold rollbackEvents. repeat case_match; try done.
    + rewrite forallb_app. apply andb_true_iff.
      split; apply forallb_forall; intros y [z [<- _]]%in_map_iff; done.
    + rewrite app_nil_r. apply forallb_forall. by intros y [z [<- _]]%in_map_iff.
Qed.

Lemma forallb_weaken {A : Type} (P Q : A -> bool) (l : list A) :
  (forall x, P x = true -> Q x = true) ->
  forallb P l = true -> forallb Q l = true.
Proof. rewrite !forallb_forall. auto. Qed.

Section Saved.
Context {X R J : Type} (C : Collaborators X R J).
Implicit Types st : State X.

(** The state in which [extensionAddCommand] has just written the store:
    what it has done until then is to install and to remove skills and to
    strip injections. *)
Lemma extensionAddCommand_saved (source : text) st (config : AiFactoryConfig)
    (manifest : ExtensionManifest) (r : R) :
  let exts := orEmpty (extensions config) in
  let agentList := agents config in
  let dir := extensionDirOf (m_name manifest) in
  let prepared := exec (prepareInstall C config (manifest, r)) st in
  let install := installReplacementSkills C agentList dir manifest in
  let customDone :=
    exec (installCustomSkills C agentList dir manifest (eval install prepared).2)
      (exec install prepared) in
  let config' :=
    withExtensions config
      (putRecord exts (findIndex (m_name manifest) exts)
         (makeRecord manifest source (eval install prepared).1)) in
  let saved :=
    exec (saveRecord config exts (findIndex (m_name manifest) exts) manifest
            source (eval install prepared).1) customDone in
  exists before,
    log saved = log st ++ before ++ [SaveConfig config']
    /\ disk saved = Some config'
    /\ forallb (fun e => isSkillStep e || isWriteFile e) before = true.
Proof.
  intros exts agentList dir prepared install customDone config' saved.
  destruct (emits_prepareInstall C config (manifest, r) st) as [_ [l1 [Hl1 HP1]]].
  fold prepared in Hl1.
  destruct (installReplacementSkills_spec C agentList dir manifest prepared)
    as [results [_ [_ [Hl2 _]]]].
  fold install in Hl2.
  destruct (emits_installCustomSkills_skills C agentList dir manifest
              (eval install prepared).2 (exec install prepared))
    as [_ [l3 [Hl3 HP3]]].
  fold customDone in Hl3.
  exists (l1 ++ replacementEvents C agentList (orEmpty (replaces manifest)) results
            ++ l3).
  split; [|split; [done |]].
  - subst saved. unfold saveRecord. cbv zeta. fold config'.
    destruct (exec_saveConfig config' customDone) as [_ ->].
    rewrite Hl3, Hl2, Hl1. by rewrite <- !app_assoc.
  - rewrite !forallb_app, HP1. cbn [andb]. apply andb_true_iff. split.
    + apply (forallb_weaken isSkillStep); [by intros e -> |].
      apply replacementEvents_isSkillStep.
    + apply (forallb_weaken isSkillStep); [by intros e -> | done].
Qed.

Lemma emits_applyInjectionsAndMcp agentList dir manifest :
  emits isInjectionOrMcp (applyInjectionsAndMcp C agentList dir manifest).
Proof.
  unfold applyInjectionsAndMcp. apply emits_bind.
  - destruct (hasLength (injections manifest)); [|apply emits_ret].
    apply emits_bind; [apply emits_applyInjections | intros _; apply emits_ret].
  - intros _. destruct (hasLength (mcpServers manifest)); [|apply emits_ret].
    apply emits_bind; [apply emits_applyExtensionMcp | intros _; apply emits_ret].
Qed.

(** The replacements the record of an installation lists. *)
Lemma recorded_replacements (agentList : list AgentInstallation) (dir : path)
    (manifest : ExtensionManifest) st :
  let entries := orEmpty (replaces manifest) in
  let results :=
    (replaceOnAgents C agentList dir (map fst entries) entries (world st)).1 in
  let recorded := (eval (installReplacementSkills C agentList dir manifest) st).1 in
  (entries = [] -> recorded = [])
  /\ (entries <> [] -> Forall NoDup results ->
      forall b, b ∈ recorded <->
                b ∈ map snd entries /\ installedOnAll results b = true).
Proof.
  intros entries results recorded. split.
  - subst recorded entries. unfold installReplacementSkills.
    by destruct (replaces manifest) as [[|e es]|].
  - intros Hne Hdistinct b.
    destruct (installReplacementSkills_world C agentList dir manifest st Hne)
      as (Hlen & Heval & _).
    subst recorded. rewrite Heval. cbn [fst].
    rewrite (fullyInstalled_all agentList _ Hlen Hdistinct), list_elem_of_filter.
    tauto.
Qed.
End Saved.

(** C6 (amended).  A command that ends normally writes the store once.
    [updateCommand] and [extensionRemoveCommand] write it last.
    [extensionAddCommand] writes it when it has installed, removed and
    rolled back the skills, and the injections are applied and the MCP
    servers configured from the state it has then: after the write.  The
    record an installation writes lists, when no call of
    [installExtensionSkills] returns a name twice, the replacements of
    the manifest that were installed for every agent; a removal writes the
    store without the record of the extension; an update writes the
    records with their names, each owning no more than before. *)
Theorem store_written_once {X R J : Type} (C : Collaborators X R J)
    (c : Command) (st : State X) :
  eval (runCommand C c) st = Done ->
  let st' := exec (runCommand C c) st in
  exists config before config' after,
    disk st = Some config
    /\ since st st' = before ++ [SaveConfig config'] ++ after
    /\ disk st' = Some config'
    /\ forallb isNotSave before = true
    /\ forallb isInjectionOrMcp after = true
    /\ let exts := orEmpty (extensions config) in
       let agentList := agents config in
       match c with
       | CmdAdd source =>
           exists manifest r,
             let entries := orEmpty (replaces manifest) in
             let dir := extensionDirOf (m_name manifest) in
             let prepared := exec (prepareInstall C config (manifest, r)) st in
             let results :=
               (replaceOnAgents C agentList dir (map fst entries) entries
                  (world prepared)).1 in
             let install := installReplacementSkills C agentList dir manifest in
             let recorded := (eval install prepared).1 in
             let saved :=
               exec (saveRecord config exts (findIndex (m_name manifest) exts)
                       manifest source recorded)
                 (exec (installCustomSkills C agentList dir manifest
                          (eval install prepared).2)
                    (exec install prepared)) in
             resolveExtension C (world st) source = Some (manifest, r)
             /\ st' = exec (applyInjectionsAndMcp C agentList dir manifest) saved
             /\ since st saved = before ++ [SaveConfig config']
             /\ forallb (fun e => isSkillStep e || isWriteFile e) before = true
             /\ config' = withExtensions config
                            (putRecord exts (findIndex (m_name manifest) exts)
                               (makeRecord manifest source recorded))
             /\ (entries = [] -> recorded = [])
             /\ (entries <> [] -> Forall NoDup results ->
                 forall b, b ∈ recorded <->
                           b ∈ map snd entries /\ installedOnAll results b = true)
       | CmdUpdate =>
           after = [] /\ shrunk exts (orEmpty (extensions config'))
       | CmdRemove name =>
           after = []
           /\ exists index, findIndex name exts = Some index
                            /\ config' = withExtensions config (delete index exts)
       end.
Proof.
  intros Hdone st'. subst st'. destruct c as [source| |name]; cbn [runCommand] in *.
  - destruct (extensionAddCommand_Done C source st Hdone)
      as (config & manifest & r & Hdisk & Hres & Hconf).
    pose proof (extensionAddCommand_parts C source st config manifest r
                  Hdisk Hres Hconf) as Hparts. cbv zeta in Hparts.
    destruct (extensionAddCommand_saved C source st config manifest r)
      as (before & Hlog & Hd & Hbefore).
    set (exts := orEmpty (extensions config)) in *.
    set (agentList := agents config) in *.
    set (dir := extensionDirOf (m_name manifest)) in *.
    set (prepared := exec (prepareInstall C config (manifest, r)) st) in *.
    set (install := installReplacementSkills C agentList dir manifest) in *.
    set (recorded := (eval install prepared).1) in *.
    set (saved := exec (saveRecord _ _ _ _ _ _) _) in *.
    set (config' := withExtensions config _) in *.
    destruct (emits_applyInjectionsAndMcp C agentList dir manifest saved)
      as [Hd' [after [Hl' Hafter]]].
    assert (exec (extensionAddCommand C source) st
            = exec (applyInjectionsAndMcp C agentList dir manifest) saved) as Hexec
      by (unfold exec at 1; by rewrite Hparts).
    exists config, before, config', after.
    split; [done |]. split; [|split; [|split; [|split; [done |]]]].
    + apply since_app. rewrite Hexec, Hl', Hlog. by rewrite <- !app_assoc.
    + by rewrite Hexec, Hd'.
    + apply (forallb_weaken (fun e => isSkillStep e || isWriteFile e)); [|done].
      by intros [].
    + cbv zeta. exists manifest, r. fold exts agentList dir prepared install recorded.
      split; [done |]. split; [done |]. split; [by apply since_app |].
      split; [done |]. split; [done |].
      apply (recorded_replacements C agentList dir manifest prepared).
  - destruct (disk st) as [config|] eqn:Hdisk.
    2: { exfalso. revert Hdone. unfold updateCommand.
         rewrite eval_bind, eval_loadConfig, exec_loadConfig, Hdisk. discriminate. }
    destruct (updateCommand_run C st config Hdisk)
      as [_ [before [agentList [exts' [Hlog [Hd [Hshrunk Hb]]]]]]].
    apply since_app in Hlog. eexists config, before, _, [].
    split; [done |]. split; [exact Hlog |]. split; [exact Hd |].
    split; [exact Hb |]. split; [done |]. cbv zeta. split; [done |].
    cbn [extensions]. destruct (extensions config) as [l|] eqn:Hexts; [done |].
    constructor.
  - destruct (disk st) as [config|] eqn:Hdisk.
    2: { exfalso. revert Hdone. unfold extensionRemoveCommand.
         rewrite eval_bind, eval_loadConfig, exec_loadConfig, Hdisk. discriminate. }
    destruct (findIndex name (orEmpty (extensions config))) as [index|] eqn:Hindex.
    2: { exfalso. revert Hdone. unfold extensionRemoveCommand.
         rewrite eval_bind, eval_loadConfig, exec_loadConfig, Hdisk, Hindex.
         discriminate. }
    destruct (extensionRemoveCommand_written_last C name st Hdone)
      as [before [config' [Hlog [Hd Hb]]]].
    destruct (findIndex_Some _ _ _ Hindex) as [extRecord [Hrecord _]].
    destruct (extensionRemoveCommand_run C name st config index extRecord
                Hdisk Hindex Hrecord) as [_ [? [? [_ [Hd' _]]]]].
    exists config, before, config', [].
    split; [done |]. split; [exact Hlog |]. split; [exact Hd |].
    split; [exact Hb |]. split; [done |]. cbv zeta. split; [done |].
    exists index. split; [done |]. congruence.
Qed.

Lemma store_written_once_witness :
  let st' := exec (extensionAddCommand Demo.collaborators (lit "./notes"))
               Demo.notesProject in
  exists before config' after,
    since Demo.notesProject st' = before ++ [SaveConfig config'] ++ after
    /\ disk st' = Some config'
    /\ forallb isNotSave before = true
    /\ forallb isInjectionOrMcp after = true.
Proof.
  destruct (store_written_once Demo.collaborators (CmdAdd (lit "./notes"))
              Demo.notesProject)
    as (config & before & config' & after & _ & Hlog & Hd & Hb & Ha & _).
  - vm_compute. reflexivity.
  - exists before, config', after. repeat split; assumption.
Defined.

(** * Restoring base skills on update *)

(** C7 (code defect).  The record of [haunted] owns [ghost], which is not
    in the catalog of base skills, and the manifest of [haunted] cannot be
    loaded.  [updateCommand] clears the ownership and calls [installSkills]
    with [ghost] for the agent; [extensionRemoveCommand] on the same project
    calls [installSkills] for no skill, because there the released ids are
    filtered by the catalog. *)
Theorem update_restores_outside_catalog :
  let afterUpdate := exec (updateCommand Demo.collaborators) Demo.ghostOwner in
  let afterRemove :=
    exec (extensionRemoveCommand Demo.collaborators (lit "haunted")) Demo.ghostOwner in
  (lit "ghost" ∉ getAvailableSkills Demo.collaborators)
  /\ (InstallSkills (lit "claude") [lit "ghost"] ∈ since Demo.ghostOwner afterUpdate)
  /\ ownedInStore (disk afterUpdate) = [(lit "haunted", [])]
  /\ existsb isInstallSkills (since Demo.ghostOwner afterRemove) = false.
Proof.
  split; [compute_done |]. split; [compute_done |]. split; by vm_compute.
Qed.

(** * Marker blocks after a removal *)

(** ** The file tree *)

Lemma nodeName_writeAt (p : path) (c : text) (n : Node) :
  nodeName (writeAt p c n) = nodeName n.
Proof. by destruct p, n. Qed.

Lemma lookupEntry_updateEntry (s : text) (f : Node -> Node) (es : list Node) :
  (forall n, nodeName (f n) = nodeName n) ->
  lookupEntry s (updateEntry s f es) = f <$> lookupEntry s es.
Proof.
  intros Hf. induction es as [|child es IH]; [done |].
  cbn [updateEntry lookupEntry].
  destruct (bool_decide (nodeName child = s)) eqn:Hc; cbn [lookupEntry].
  - by rewrite Hf, Hc.
  - by rewrite Hc.
Qed.

Lemma lookupEntry_updateEntry_ne (s s' : text) (f : Node -> Node)
    (es : list Node) :
  s <> s' -> (forall n, nodeName (f n) = nodeName n) ->
  lookupEntry s' (updateEntry s f es) = lookupEntry s' es.
Proof.
  intros Hs Hf. induction es as [|child es IH]; [done |].
  cbn [updateEntry lookupEntry].
  destruct (bool_decide (nodeName child = s)) eqn:Hc; cbn [lookupEntry].
  - apply bool_decide_eq_true in Hc.
    rewrite Hf, !bool_decide_eq_false_2 by congruence. done.
  - by destruct (bool_decide (nodeName child = s')).
Qed.

Lemma readAt_cons (s : text) (p : path) (n : Node) :
  readAt (s :: p) n =
  match n with
  | Directory _ entries =>
      match lookupEntry s entries with
      | Some child => readAt p child
      | None => None
      end
  | File _ _ => None
  end.
Proof.
  unfold readAt. cbn [nodeAt]. destruct n as [|name entries]; [done |].
  by destruct (lookupEntry s entries).
Qed.

(** A file that has been written holds what was written. *)
Lemma readAt_writeAt (p : path) (c c0 : text) (n : Node) :
  readAt p n = Some c0 -> readAt p (writeAt p c n) = Some c.
Proof.
  revert n. induction p as [|s p IH]; intros n H.
  - by destruct n.
  - rewrite readAt_cons in H. destruct n as [|name entries]; [done |].
    cbn [writeAt]. rewrite readAt_cons.
    rewrite lookupEntry_updateEntry by (intros; apply nodeName_writeAt).
    destruct (lookupEntry s entries) as [child|]; [|done].
    by apply IH.
Qed.

(** Writing a file changes no other file. *)
Lemma readAt_writeAt_ne (p q : path) (c : text) (n : Node) :
  p <> q -> readAt q (writeAt p c n) = readAt q n.
Proof.
  revert q n. induction p as [|s p IH]; intros q n Hpq.
  - destruct n as [name c0|]; [|done]. cbn [writeAt].
    destruct q; [done |]. by rewrite !readAt_cons.
  - destruct n as [|name entries]; [done |]. cbn [writeAt].
    destruct q as [|s' q]; [done |]. rewrite !readAt_cons.
    destruct (decide (s = s')) as [<-|Hs].
    + rewrite lookupEntry_updateEntry by (intros; apply nodeName_writeAt).
      destruct (lookupEntry s entries) as [child|]; [|done].
      apply IH. congruence.
    + rewrite lookupEntry_updateEntry_ne; [done | done |].
      intros; apply nodeName_writeAt.
Qed.

Lemma markdownFilesOf_Directory (dir : path) (name : text) (entries : list Node) :
  markdownFilesOf dir (Directory name entries) =
  flat_map (fun entry =>
              match entry with
              | Directory _ _ => markdownFilesOf (dir ++ [nodeName entry]) entry
              | File name _ =>
                  if endsWith (lit ".md") name then [dir ++ [nodeName entry]]
                  else []
              end) entries.
Proof. done. Qed.

Lemma markdownFilesOf_writeAt (p : path) (c : text) (n : Node) (dir : path) :
  markdownFilesOf dir (writeAt p c n) = markdownFilesOf dir n.
Proof.
  revert n dir. induction p as [|s p IH]; intros n dir.
  - by destruct n.
  - destruct n as [|name entries]; [done |]. cbn [writeAt].
    rewrite !markdownFilesOf_Directory.
    induction entries as [|child entries IHentries]; [done |].
    cbn [updateEntry]. destruct (bool_decide (nodeName child = s)).
    + cbn [flat_map]. f_equal. rewrite nodeName_writeAt.
      destruct child as [name' c'|name' entries'].
      * by destruct p.
      * rewrite IH. by destruct p.
    + cbn [flat_map]. f_equal. apply IHentries.
Qed.

Lemma listing_writeAt (p : path) (c : text) (n : Node) (d dir : path) :
  match nodeAt d (writeAt p c n) with
  | Some m => markdownFilesOf dir m
  | None => []
  end =
  match nodeAt d n with
  | Some m => markdownFilesOf dir m
  | None => []
  end.
Proof.
  revert p n. induction d as [|s d IH]; intros p n.
  - cbn [nodeAt]. apply markdownFilesOf_writeAt.
  - destruct n as [name c0|name entries].
    + by destruct p.
    + destruct p as [|s0 p]; [done |]. cbn [writeAt nodeAt].
      destruct (decide (s0 = s)) as [->|Hs].
      * rewrite lookupEntry_updateEntry by (intros; apply nodeName_writeAt).
        destruct (lookupEntry s entries) as [child|]; [|done].
        apply IH.
      * rewrite lookupEntry_updateEntry_ne; [done | done |].
        intros; apply nodeName_writeAt.
Qed.

(** Writing a file changes no listing. *)
Lemma findMarkdownFiles_writeAt (p : path) (c : text) (n : Node) (d : path) :
  findMarkdownFiles (writeAt p c n) d = findMarkdownFiles n d.
Proof. apply listing_writeAt. Qed.

(** ** The texts the stripping leaves *)

(** ** The loops of the stripping step *)

Section StripFacts.
Context {X R J : Type} (C : Collaborators X R J).
Implicit Types st : State X.

Lemma forEach_invariant {A : Type} (I : State X -> Prop) (xs : list A)
    (body : A -> M unit) :
  (forall x st, x ∈ xs -> I st -> I (exec (body x) st)) ->
  forall st, I st -> I (exec (forEach xs body) st).
Proof.
  induction xs as [|x xs IH]; intros Hbody st HI; [done |].
  cbn [forEach]. rewrite exec_bind. apply IH.
  - intros y st' Hy. apply Hbody. by right.
  - apply Hbody; [by left | done].
Qed.

(** A loop reaches [D] when one of its rounds establishes it and the
    others keep it, all of them keeping [I]. *)
Lemma forEach_reaches {A : Type} (I D : State X -> Prop) (xs : list A)
    (body : A -> M unit) (x0 : A) :
  x0 ∈ xs ->
  (forall x st, x ∈ xs -> I st -> I (exec (body x) st)) ->
  (forall x st, x ∈ xs -> I st -> D st -> D (exec (body x) st)) ->
  (forall st, I st -> D (exec (body x0) st)) ->
  forall st, I st -> D (exec (forEach xs body) st).
Proof.
  induction xs as [|x xs IH]; intros Hx0 HI HD H0 st Hst.
  - by apply elem_of_nil in Hx0.
  - cbn [forEach]. rewrite exec_bind.
    apply elem_of_cons in Hx0 as [<-|Hx0].
    + apply (forEach_invariant (fun st => I st /\ D st)).
      * intros y st' Hy [HIy HDy]. split.
        -- apply HI; [by right | done].
        -- apply HD; [by right | done | done].
      * split; [apply HI; [by left | done] | by apply H0].
    + apply IH; try done.
      * intros y st' Hy. apply HI. by right.
      * intros y st' Hy. apply HD. by right.
      * apply HI; [by left | done].
Qed.

Lemma tree_writeTextFile (q : path) (c : text) st :
  tree (world (exec (writeTextFile q c) st)) = writeAt q c (tree (world st)).
Proof. done. Qed.

(** What [stripOneInjection] does to the files: only the skill file of
    the directive changes, and it holds its former text stripped of the
    triple of the directive. *)
Lemma stripOneInjection_spec (agent : AgentInstallation) (name : text)
    (injection : Injection) st :
  let q := getSkillFilePath C agent (target injection) in
  let st' := exec (stripOneInjection C agent name injection) st in
  (forall p, p <> q -> readAt p (tree (world st')) = readAt p (tree (world st)))
  /\ readAt q (tree (world st')) =
       (fun c => stripInjection c name (target injection)
                   (positionText (position injection)))
         <$> readAt q (tree (world st)).
Proof.
  cbv zeta. unfold stripOneInjection. cbv zeta.
  rewrite exec_bind. unfold readTextFile. rewrite eval_ask, exec_ask.
  destruct (readAt _ (tree (world st))) as [[|c s]|] eqn:Hread.
  - rewrite exec_ret, Hread. done.
  - destruct (bool_decide_reflect
                (stripInjection (c :: s) name (target injection)
                   (positionText (position injection)) <> c :: s)) as [Hne|Heq].
    + cbn [when]. rewrite tree_writeTextFile. split.
      * intros p Hp. by apply readAt_writeAt_ne.
      * by apply (readAt_writeAt _ _ (c :: s)).
    + cbn [when]. rewrite exec_ret, Hread. split; [done |].
      apply dec_stable in Heq. cbn [fmap option_fmap option_map].
      by rewrite Heq.
  - rewrite exec_ret, Hread. done.
Qed.

(** What [stripMarkersInFile] does to the files. *)
Lemma stripMarkersInFile_spec (name : text) (q : path) st :
  let st' := exec (stripMarkersInFile name q) st in
  (forall p, p <> q -> readAt p (tree (world st')) = readAt p (tree (world st)))
  /\ readAt q (tree (world st')) =
       (fun c => if includes (markerToken name) c
                 then stripAllMarkersForExtension c name else c)
         <$> readAt q (tree (world st))
  /\ (forall d, findMarkdownFiles (tree (world st')) d
                = findMarkdownFiles (tree (world st)) d).
Proof.
  cbv zeta. unfold stripMarkersInFile.
  rewrite exec_bind. unfold readTextFile. rewrite eval_ask, exec_ask.
  destruct (readAt _ (tree (world st))) as [[|c s]|] eqn:Hread.
  - rewrite exec_ret, Hread. done.
  - destruct (includes (markerToken name) (c :: s)) eqn:Htoken.
    + cbv zeta.
      destruct (bool_decide_reflect
                  (stripAllMarkersForExtension (c :: s) name <> c :: s))
        as [Hne|Heq].
      * cbn [when]. rewrite tree_writeTextFile. split; [|split].
        -- intros p Hp. by apply readAt_writeAt_ne.
        -- cbn [fmap option_fmap option_map]. rewrite Htoken.
           by apply (readAt_writeAt _ _ (c :: s)).
        -- intros d. apply findMarkdownFiles_writeAt.
      * cbn [when]. rewrite exec_ret, Hread. split; [done | split; [|done]].
        apply dec_stable in Heq. cbn [fmap option_fmap option_map].
        by rewrite Htoken, Heq.
    + rewrite exec_ret, Hread. cbn [fmap option_fmap option_map].
      by rewrite Htoken.
  - rewrite exec_ret, Hread. done.
Qed.

(** A loop whose rounds map the text of the file at [p] maps it by the
    rounds one after the other. *)
Lemma forEach_readAt {A : Type} (p : path) (f : A -> text -> text)
    (xs : list A) (body : A -> M unit) :
  (forall x st, readAt p (tree (world (exec (body x) st)))
                = f x <$> readAt p (tree (world st))) ->
  forall st, readAt p (tree (world (exec (forEach xs body) st)))
             = (fun c => foldl (fun c x => f x c) c xs)
                 <$> readAt p (tree (world st)).
Proof.
  intros Hbody. induction xs as [|x xs IH]; intros st.
  - cbn [forEach foldl]. rewrite exec_ret.
    by destruct (readAt p (tree (world st))).
  - cbn [forEach foldl]. rewrite exec_bind, IH, Hbody.
    by destruct (readAt p (tree (world st))).
Qed.

Lemma foldl_filter {A B : Type} (P : B -> Prop) `{!forall x, Decision (P x)}
    (g : A -> B -> A) (l : list B) (a : A) :
  foldl (fun a x => if decide (P x) then g a x else a) a l
  = foldl g a (filter P l).
Proof.
  revert a. induction l as [|x l IH]; intros a; [done |].
  cbn [foldl]. rewrite filter_cons. destruct (decide (P x)); cbn [foldl]; apply IH.
Qed.

Lemma foldl_flat_map {A B D : Type} (g : A -> B -> A) (h : D -> list B)
    (l : list D) (a : A) :
  foldl (fun a x => foldl g a (h x)) a l = foldl g a (flat_map h l).
Proof.
  revert a. induction l as [|x l IH]; intros a; [done |].
  cbn [foldl flat_map]. by rewrite foldl_app, IH.
Qed.

(** With the manifest: the file at [p] ends up holding its text stripped
    of the triple of every directive that resolves to it, one pass for
    every agent and directive. *)
Lemma stripForRemoval_visits (agentList : list AgentInstallation)
    (name : text) (m : ExtensionManifest) (p : path) st :
  readAt p (tree (world (exec (stripForRemoval C agentList name (Some m)) st)))
  = (fun c => foldl (fun c d => stripInjection c name (target d)
                                  (positionText (position d)))
                c (visits C agentList m p))
      <$> readAt p (tree (world st)).
Proof.
  unfold stripForRemoval, visits.
  rewrite (forEach_readAt p
             (fun agent c =>
                foldl (fun c d => stripInjection c name (target d)
                                    (positionText (position d)))
                  c (filter (fun d => getSkillFilePath C agent (target d) = p)
                       (orEmpty (injections m))))).
  - destruct (readAt p (tree (world st))) as [c|]; [|done].
    cbn [fmap option_fmap option_map]. f_equal.
    apply (foldl_flat_map
             (fun c d => stripInjection c name (target d)
                           (positionText (position d)))).
  - intros agent st'. unfold stripAllExtensionInjections.
    assert (hasLength (injections m) = false -> orEmpty (injections m) = [])
      as Hnone.
    { by destruct (injections m) as [[|? ?]|]. }
    destruct (hasLength (injections m)).
    + rewrite (forEach_readAt p
                 (fun d c =>
                    if decide (getSkillFilePath C agent (target d) = p)
                    then stripInjection c name (target d)
                           (positionText (position d))
                    else c)).
      * destruct (readAt p (tree (world st'))) as [c|]; [|done].
        cbn [fmap option_fmap option_map]. f_equal.
        apply (foldl_filter (fun d => getSkillFilePath C agent (target d) = p)
                 (fun c d => stripInjection c name (target d)
                               (positionText (position d)))).
      * intros d st''.
        destruct (stripOneInjection_spec agent name d st'') as [Hother Hsame].
        destruct (decide (getSkillFilePath C agent (target d) = p)) as [<-|Hq].
        -- apply Hsame.
        -- rewrite Hother by congruence.
           by destruct (readAt p (tree (world st''))).
    + rewrite Hnone, exec_ret by done.
      by destruct (readAt p (tree (world st'))).
Qed.

(** Without the manifest: a [.md] file under the configuration directory
    of an agent ends up holding its text stripped of every block of the
    extension, when no name token is left in it. *)
Lemma stripForRemoval_byName (agentList : list AgentInstallation)
    (name : text) (agent : AgentInstallation) (p : path) (c0 : text) st :
  agent ∈ agentList ->
  p ∈ findMarkdownFiles (tree (world st))
        (configDir (getAgentConfig C (agent_id agent))) ->
  readAt p (tree (world st)) = Some c0 ->
  let c1 := if includes (markerToken name) c0
            then stripAllMarkersForExtension c0 name else c0 in
  includes (markerToken name) c1 = false ->
  readAt p (tree (world (exec (stripForRemoval C agentList name None) st)))
  = Some c1.
Proof.
  intros Hagent Hp Hread c1 Hclean.
  set (D := fun st' : State X => readAt p (tree (world st')) = Some c1).
  set (I := fun st' : State X =>
              (forall d, findMarkdownFiles (tree (world st')) d
                         = findMarkdownFiles (tree (world st)) d)
              /\ (readAt p (tree (world st')) = Some c0 \/ D st')).
  assert (forall q st', I st' ->
            I (exec (stripMarkersInFile name q) st')
            /\ (D st' -> D (exec (stripMarkersInFile name q) st'))
            /\ (q = p -> D (exec (stripMarkersInFile name q) st'))) as Hstep.
  { intros q st' [Hlist HI].
    destruct (stripMarkersInFile_spec name q st') as [Hother [Hsame Hlist']].
    assert (forall d, findMarkdownFiles
                        (tree (world (exec (stripMarkersInFile name q) st'))) d
                      = findMarkdownFiles (tree (world st)) d) as Hl
      by (intros d; by rewrite Hlist').
    destruct (decide (q = p)) as [->|Hq].
    - assert (D (exec (stripMarkersInFile name p) st')) as HD.
      { unfold D. rewrite Hsame.
        destruct HI as [->| ->]; cbn [fmap option_fmap option_map]; [done |].
        by rewrite Hclean. }
      split; [split; [done | by right] | done].
    - assert (readAt p (tree (world (exec (stripMarkersInFile name q) st')))
              = readAt p (tree (world st'))) as Heq by (apply Hother; congruence).
      unfold I, D. rewrite Heq. done. }
  assert (forall agent' st', I st' ->
            I (exec (stripInjectionsByExtensionName C agent' name) st')
            /\ (D st' -> D (exec (stripInjectionsByExtensionName C agent' name) st')))
    as Hagents.
  { intros agent' st' HI. unfold stripInjectionsByExtensionName. cbv zeta.
    rewrite exec_bind, eval_ask, exec_ask. split.
    - apply (forEach_invariant I); [|done].
      intros q st'' _ HI'. by destruct (Hstep q st'' HI') as (? & _ & _).
    - intros HD.
      apply (forEach_invariant (fun st => I st /\ D st)); [|done].
      intros q st'' _ [HI' HD'].
      destruct (Hstep q st'' HI') as (? & ? & _). auto. }
  unfold stripForRemoval.
  apply (forEach_reaches I D _ _ agent); try done.
  - intros agent' st' _ HI. by destruct (Hagents agent' st' HI).
  - intros agent' st' _ HI HD. destruct (Hagents agent' st' HI) as [_ H]. auto.
  - intros st' HI. unfold stripInjectionsByExtensionName. cbv zeta.
    rewrite exec_bind, eval_ask, exec_ask.
    apply (forEach_reaches I D _ _ p); try done.
    + destruct HI as [Hlist _]. by rewrite Hlist.
    + intros q st'' _ HI'. by destruct (Hstep q st'' HI') as (? & _ & _).
    + intros q st'' _ HI' HD'. destruct (Hstep q st'' HI') as (_ & ? & _). auto.
    + intros st'' HI'. destruct (Hstep p st'' HI') as (_ & _ & ?). auto.
  - split; [done | by left].
Qed.
End StripFacts.




(** * Further properties of the marker codec *)

(** ** Texts without a block *)

Section Unterminated.
Variables ps pe : text -> option nat.

Lemma lazyToEnd_None (r : text) :
  (forall b1 b2, r = b1 ++ nl :: b2 -> pe b2 = None) -> lazyToEnd pe r = None.
Proof.
  induction r as [|c r IH]; intros H; [done |].
  cbn [lazyToEnd]. rewrite IH by (intros b1 b2 ->; by apply (H (c :: b1))).
  destruct (N.eqb_spec c nl) as [->|_]; [|done].
  by rewrite (H [] r).
Qed.

Lemma matchBody_unterminated (s : text) :
  (forall x1 x2, s = x1 ++ nl :: x2 -> pe x2 = None) -> matchBody ps pe s = None.
Proof.
  intros H. unfold matchBody. destruct (ps s) as [n1|]; [|done].
  destruct (drop n1 s) as [|c r] eqn:Hdrop; [done |].
  destruct (N.eqb c nl); [|done].
  rewrite lazyToEnd_None; [done |].
  intros b1 b2 ->. apply (H (take n1 s ++ c :: b1)).
  rewrite <- (take_drop n1 s) at 1. rewrite Hdrop.
  by rewrite <- app_assoc.
Qed.

(** Where END follows no line feed, nothing is replaced. *)
Lemma replaceAll_unterminated (s : text) :
  (forall x1 x2, s = x1 ++ nl :: x2 -> pe x2 = None) -> replaceAll ps pe s = s.
Proof.
  intros H. rewrite <- (app_nil_r s) at 1.
  rewrite replaceAll_skip; [by rewrite app_nil_r |].
  intros x1 c x2 ->. rewrite app_nil_r.
  assert (matchBody ps pe (c :: x2) = None) as Hbody.
  { apply matchBody_unterminated. intros y1 y2 Hy. apply (H (x1 ++ y1)).
    by rewrite Hy, <- app_assoc. }
  assert (matchBody ps pe x2 = None) as Htail.
  { apply matchBody_unterminated. intros y1 y2 ->. apply (H (x1 ++ c :: y1)).
    by rewrite <- app_assoc. }
  unfold matchAt. rewrite Hbody, Htail. by destruct (N.eqb c nl).
Qed.
End Unterminated.

(** X1.  [stripInjection] gives back the text it is given when the text
    does not hold the start marker of the triple, and also when no line
    feed of the text is followed by the end marker: a start marker alone
    is no block. *)
Theorem stripInjection_no_block (content ext skill pos : text) :
  includes (startMarker ext skill pos) content = false
  \/ includes (nl :: endMarker ext skill pos) content = false ->
  stripInjection content ext skill pos = content.
Proof.
  intros [H|H].
  - by apply strip_host.
  - apply replaceAll_unterminated. intros x1 x2 ->. apply literal_None.
    apply (startsWith_suffix _ x1) in H. cbn [startsWith] in H.
    by rewrite N.eqb_refl in H.
Qed.

Lemma stripInjection_no_block_witness :
  let S := startMarker (lit "hello") (lit "aif-commit") (lit "append") in
  stripInjection (lit "Commit the staged changes." ++ [nl])
    (lit "hello") (lit "aif-commit") (lit "append")
  = lit "Commit the staged changes." ++ [nl]
  /\ stripInjection (lit "Commit." ++ [nl] ++ S ++ [nl] ++ lit "Lint first.")
       (lit "hello") (lit "aif-commit") (lit "append")
     = lit "Commit." ++ [nl] ++ S ++ [nl] ++ lit "Lint first.".
Proof.
  split.
  - apply (stripInjection_no_block _ (lit "hello") (lit "aif-commit") (lit "append")).
    left. vm_compute; reflexivity.
  - apply (stripInjection_no_block _ (lit "hello") (lit "aif-commit") (lit "append")).
    right. vm_compute; reflexivity.
Defined.

(** ** Blocks of other triples *)

(** A text without line feed that is in none of the parts of an applied
    injection is not in the text [applyInjection] builds. *)
Lemma applyInjection_clean (P F B ext skill : text) (pos : Position) :
  includes [nl] P = false -> P <> [] ->
  includes (startMarker ext skill (positionText pos)) F = false ->
  includes P F = false -> includes P B = false ->
  includes P (startMarker ext skill (positionText pos)) = false ->
  includes P (endMarker ext skill (positionText pos)) = false ->
  includes P (applyInjection F B pos ext skill) = false.
Proof.
  intros Hline Hne HFS HF HB HS HE. rewrite applyInjection_shape by done.
  cbv zeta.
  pose proof (includes_trimEnd P B HB) as HB'.
  pose proof (includes_nil_false P Hne) as Hnil.
  set (S := startMarker ext skill (positionText pos)) in *.
  set (E := endMarker ext skill (positionText pos)) in *.
  assert (forall R, includes P R = false ->
            includes P (S ++ nl :: trimEnd B ++ nl :: E ++ nl :: R) = false)
    as Hblock.
  { intros R HR. apply includes_across_nl; [done | done |].
    apply includes_across_nl; [done | done |].
    by apply includes_across_nl. }
  destruct pos; [|destruct (frontMatter F) as [afterFm|]].
  - replace (trimEnd F ++ [nl; nl] ++ (S ++ [nl] ++ trimEnd B ++ [nl] ++ E) ++ [nl])
      with (trimEnd F ++ nl :: [] ++ nl :: S ++ nl :: trimEnd B ++ nl :: E ++ nl :: [])
      by (repeat (rewrite <- ?app_assoc; cbn [app]); done).
    apply includes_across_nl; [done | by apply includes_trimEnd |].
    apply includes_across_nl; [done | done |]. by apply Hblock.
  - replace (take afterFm F ++ [nl] ++ (S ++ [nl] ++ trimEnd B ++ [nl] ++ E)
               ++ [nl] ++ drop afterFm F)
      with (take afterFm F ++ nl :: S ++ nl :: trimEnd B ++ nl :: E
              ++ nl :: drop afterFm F)
      by (repeat (rewrite <- ?app_assoc; cbn [app]); done).
    rewrite <- (take_drop afterFm F) in HF.
    apply includes_false_app in HF as [Ht Hd].
    apply includes_across_nl; [done | done |]. by apply Hblock.
  - replace ((S ++ [nl] ++ trimEnd B ++ [nl] ++ E) ++ [nl; nl] ++ F)
      with (S ++ nl :: trimEnd B ++ nl :: E ++ nl :: [] ++ nl :: F)
      by (repeat (rewrite <- ?app_assoc; cbn [app]); done).
    apply Hblock. by apply includes_across_nl.
Qed.

(** X2.  Stripping a triple leaves the applied injection of another triple
    as it is, when the start marker of the stripped triple is in none of
    the host text, the injected text and the two markers of the block. *)
Theorem stripInjection_other_triple (F B ext skill : text) (pos : Position)
    (ext' skill' : text) (pos' : Position) :
  includes [nl] ext' = false -> includes [nl] skill' = false ->
  includes (startMarker ext skill (positionText pos)) F = false ->
  let S' := startMarker ext' skill' (positionText pos') in
  includes S' F = false -> includes S' B = false ->
  includes S' (startMarker ext skill (positionText pos)) = false ->
  includes S' (endMarker ext skill (positionText pos)) = false ->
  stripInjection (applyInjection F B pos ext skill) ext' skill' (positionText pos')
  = applyInjection F B pos ext skill.
Proof.
  intros Hext Hskill HFS S' HF HB HS HE. apply strip_host.
  apply applyInjection_clean; try done.
  apply startMarker_line; auto using positionText_line.
Qed.

Lemma stripInjection_other_triple_witness :
  let F := lit "Plan the work." ++ [nl] in
  let B := lit "Keep notes." ++ [nl] in
  stripInjection (applyInjection F B append (lit "notes") (lit "aif-plan"))
    (lit "hello") (lit "aif-plan") (lit "append")
  = applyInjection F B append (lit "notes") (lit "aif-plan").
Proof.
  apply (stripInjection_other_triple _ _ (lit "notes") (lit "aif-plan") append
           (lit "hello") (lit "aif-plan") append);
    vm_compute; reflexivity.
Defined.

(** ** Applying again with another text *)

(** X3.  Applying an injection to a file that holds the injection of the
    same triple with an older text gives what applying it to the host text
    gives: the block is replaced, not added a second time.  (Names without
    line feed, a host text without the start marker, an older text in which
    no line feed is followed by the end marker; for the prepend position a
    host text with front matter.) *)
Theorem applyInjection_replaces (F B B' ext skill : text) (pos : Position) :
  includes [nl] ext = false -> includes [nl] skill = false ->
  includes (startMarker ext skill (positionText pos)) F = false ->
  includes (nl :: endMarker ext skill (positionText pos)) B = false ->
  (pos = prepend -> frontMatter F <> None) ->
  applyInjection (applyInjection F B pos ext skill) B' pos ext skill
  = applyInjection F B' pos ext skill.
Proof.
  intros Hext Hskill HF HB Hfm.
  unfold applyInjection at 1. cbv zeta.
  rewrite (stripInjection_applied F B ext skill pos) by done.
  rewrite (applyInjection_shape F B') by done. cbv zeta.
  destruct pos.
  - by rewrite trimEnd_app_whitespace, trimEnd_idem.
  - destruct (frontMatter F) as [n|] eqn:Hn; [|by destruct Hfm].
    by rewrite Hn.
Qed.

Lemma applyInjection_replaces_witness :
  let F := lit "---" ++ [nl] ++ lit "name: aif-commit" ++ [nl] ++ lit "---"
             ++ [nl] ++ lit "Commit the staged changes." ++ [nl] in
  let hello := lit "hello" in
  let skill := lit "aif-commit" in
  applyInjection (applyInjection F (lit "Run the tests.") append hello skill)
    (lit "Run the linter.") append hello skill
  = applyInjection F (lit "Run the linter.") append hello skill
  /\ applyInjection (applyInjection F (lit "Run the tests.") prepend hello skill)
       (lit "Run the linter.") prepend hello skill
     = applyInjection F (lit "Run the linter.") prepend hello skill.
Proof.
  split.
  - apply (applyInjection_replaces _ _ _ (lit "hello") (lit "aif-commit") append);
      [reflexivity | reflexivity | vm_compute; reflexivity
      | vm_compute; reflexivity | intros H; discriminate H].
  - apply (applyInjection_replaces _ _ _ (lit "hello") (lit "aif-commit") prepend);
      [reflexivity | reflexivity | vm_compute; reflexivity
      | vm_compute; reflexivity | intros _; vm_compute; discriminate].
Defined.

(** ** Stripping by extension name *)

(** X4.  Stripping by extension name takes the block of an applied
    injection out whatever its target and position are (a target that is
    not empty and has no colon, a name without line feed, a host text and
    an injected text without the name token): what is left is the host
    text, with its trailing white space replaced by one line feed after an
    append and with a line feed before it after a prepend without front
    matter. *)
Theorem stripAllMarkersForExtension_applyInjection (F B ext skill : text)
    (pos : Position) :
  includes [nl] ext = false ->
  skill <> [] -> includes [colon] skill = false ->
  includes (markerToken ext) F = false ->
  includes (markerToken ext) B = false ->
  stripAllMarkersForExtension (applyInjection F B pos ext skill) ext
  = match pos with
    | append => trimEnd F ++ [nl]
    | prepend =>
        match frontMatter F with
        | Some _ => F
        | None => nl :: F
        end
    end.
Proof. apply stripAllMarkers_applied. Qed.

Lemma stripAllMarkersForExtension_applyInjection_witness :
  let F := lit "---" ++ [nl] ++ lit "name: aif-commit" ++ [nl] ++ lit "---"
             ++ [nl] ++ lit "Commit the staged changes." ++ [nl] in
  let B := lit "Run the linter first." ++ [nl] in
  stripAllMarkersForExtension
    (applyInjection F B prepend (lit "hello") (lit "aif-commit")) (lit "hello")
  = F
  /\ stripAllMarkersForExtension
       (applyInjection F B append (lit "hello") (lit "aif-commit")) (lit "hello")
     = trimEnd F ++ [nl].
Proof.
  intros F B. split.
  - apply (stripAllMarkersForExtension_applyInjection F B (lit "hello")
             (lit "aif-commit") prepend);
      [reflexivity | discriminate | reflexivity | vm_compute; reflexivity
      | vm_compute; reflexivity].
  - apply (stripAllMarkersForExtension_applyInjection F B (lit "hello")
             (lit "aif-commit") append);
      [reflexivity | discriminate | reflexivity | vm_compute; reflexivity
      | vm_compute; reflexivity].
Defined.

(** X5.  A text without the name token of an extension is left as it is
    by the stripping by extension name: the test for the token in
    [stripInjectionsByExtensionName] skips no file the stripping would
    change. *)
Theorem stripAllMarkersForExtension_no_token (content ext : text) :
  includes (markerToken ext) content = false ->
  stripAllMarkersForExtension content ext = content.
Proof.
  intros H. unfold stripAllMarkersForExtension.
  apply (anchored_clean _ _ (lit "<!-- aif-ext:" ++ ext ++ lit ":")).
  - apply markerOf_anchor.
  - by apply anchor_token.
Qed.

Lemma stripAllMarkersForExtension_no_token_witness :
  let content := applyInjection (lit "Plan the work." ++ [nl])
                   (lit "Keep notes." ++ [nl]) append (lit "notes")
                   (lit "aif-plan") in
  stripAllMarkersForExtension content (lit "hello") = content.
Proof.
  apply (stripAllMarkersForExtension_no_token _ (lit "hello")).
  vm_compute; reflexivity.
Defined.

(** * Further properties of the injection engine *)

(** ** The listing of the markdown files *)

Lemma markdownFilesOf_paths :
  forall (n : Node) (dir p : path),
    p ∈ markdownFilesOf dir n ->
    exists rest name,
      p = dir ++ rest ++ [name] /\ endsWith (lit ".md") name = true.
Proof.
  fix IH 1. intros [name c|name entries] dir p.
  - by intros H%elem_of_nil.
  - rewrite markdownFilesOf_Directory. revert p.
    induction entries as [|entry entries IHentries]; intros p.
    + by intros H%elem_of_nil.
    + cbn [flat_map]. intros [H|H]%elem_of_app; [|by apply IHentries].
      pose proof (IH entry (dir ++ [nodeName entry]) p) as Hentry.
      destruct entry as [name' c'|name' entries'].
      * destruct (endsWith (lit ".md") name') eqn:Hmd;
          [|by apply elem_of_nil in H].
        apply list_elem_of_singleton in H as ->. by exists [], name'.
      * destruct (Hentry H) as [rest [nm [-> Hmd]]].
        exists (name' :: rest), nm.
        split; [|done]. by rewrite <- app_assoc.
Qed.

(** X6.  Every path [findMarkdownFiles] lists is below the directory that
    was asked for and names an entry whose name ends in [.md]. *)
Theorem findMarkdownFiles_paths (root : Node) (dir p : path) :
  p ∈ findMarkdownFiles root dir ->
  exists rest name,
    p = dir ++ rest ++ [name] /\ endsWith (lit ".md") name = true.
Proof.
  unfold findMarkdownFiles. destruct (nodeAt dir root) as [n|].
  - apply markdownFilesOf_paths.
  - by intros H%elem_of_nil.
Qed.

Lemma findMarkdownFiles_paths_witness :
  exists rest name,
    Demo.skillFile "claude" "aif-plan" = [lit ".claude"] ++ rest ++ [name]
    /\ endsWith (lit ".md") name = true.
Proof.
  apply (findMarkdownFiles_paths (tree (world Demo.notesApplied))).
  change (findMarkdownFiles (tree (world Demo.notesApplied)) [lit ".claude"])
    with [Demo.skillFile "claude" "aif-plan"].
  apply list_elem_of_here.
Defined.

Section EngineFacts.
Context {X R J : Type} (C : Collaborators X R J).
Implicit Types st : State X.

(** ** What the stripping leaves alone *)

(** X7.  [stripAllExtensionInjections] changes no file but the skill files
    its directives resolve to, and it leaves the store as it is. *)
Theorem stripAllExtensionInjections_frame (agent : AgentInstallation)
    (name : text) (m : ExtensionManifest) (p : path) st :
  (forall d, d ∈ orEmpty (injections m) ->
             getSkillFilePath C agent (target d) <> p) ->
  let st' := exec (stripAllExtensionInjections C agent name m) st in
  readAt p (tree (world st')) = readAt p (tree (world st))
  /\ disk st' = disk st.
Proof.
  intros Hother st'. split.
  - subst st'. unfold stripAllExtensionInjections.
    destruct (hasLength (injections m)); [|done].
    apply (forEach_invariant
             (fun s => readAt p (tree (world s)) = readAt p (tree (world st))));
      [|done].
    intros d s Hd Hs.
    destruct (stripOneInjection_spec C agent name d s) as [Hframe _].
    rewrite Hframe; [done |]. intros ->. by apply (Hother d).
  - by destruct (emits_stripAllExtensionInjections C agent name m st).
Qed.

(** X8.  [stripInjectionsByExtensionName] changes neither a file that is
    not among the markdown files below the configuration directory of the
    agent nor a file without the name token of the extension; the markdown
    files that are listed stay the same, and so does the store. *)
Theorem stripInjectionsByExtensionName_frame (agent : AgentInstallation)
    (name : text) (p : path) st :
  p ∉ findMarkdownFiles (tree (world st))
        (configDir (getAgentConfig C (agent_id agent)))
  \/ (exists c, readAt p (tree (world st)) = Some c
                /\ includes (markerToken name) c = false) ->
  let st' := exec (stripInjectionsByExtensionName C agent name) st in
  readAt p (tree (world st')) = readAt p (tree (world st))
  /\ (forall d, findMarkdownFiles (tree (world st')) d
                = findMarkdownFiles (tree (world st)) d)
  /\ disk st' = disk st.
Proof.
  intros Hp st'. subst st'. split; [|split].
  - unfold stripInjectionsByExtensionName. cbv zeta.
    rewrite exec_bind, eval_ask, exec_ask.
    apply (forEach_invariant
             (fun s => readAt p (tree (world s)) = readAt p (tree (world st))));
      [|done].
    intros q s Hq Hs.
    destruct (stripMarkersInFile_spec name q s) as [Hframe [Hsame _]].
    destruct (decide (q = p)) as [->|Hne]; [|by rewrite Hframe].
    destruct Hp as [Hp|[c [Hc Hclean]]]; [done |].
    rewrite Hsame, Hs, Hc. cbn [fmap option_fmap option_map].
    by rewrite Hclean.
  - unfold stripInjectionsByExtensionName. cbv zeta.
    rewrite exec_bind, eval_ask, exec_ask.
    apply (forEach_invariant
             (fun s => forall d, findMarkdownFiles (tree (world s)) d
                                 = findMarkdownFiles (tree (world st)) d));
      [|done].
    intros q s _ Hs d.
    destruct (stripMarkersInFile_spec name q s) as [_ [_ Hlist]].
    by rewrite Hlist.
  - by destruct (emits_stripInjectionsByExtensionName C agent name st).
Qed.

(** ** Applying the injections of one extension *)

Lemma applyOneInjection_spec (agent : AgentInstallation) (dir : path)
    (name : text) (count : nat) (d : Injection) st :
  let q := getSkillFilePath C agent (target d) in
  let run := applyOneInjection C agent dir name count d in
  match readAt q (tree (world st)), readAt (dir ++ file d) (tree (world st)) with
  | Some (c :: s), Some (c' :: b) =>
      let updated := applyInjection (c :: s) (c' :: b) (position d) name (target d) in
      run st = (S count, exec (writeTextFile q updated) st)
  | _, _ => run st = (count, st)
  end.
Proof.
  cbv zeta. unfold applyOneInjection. cbv zeta. unfold bind, readTextFile, ask.
  cbn [fst snd].
  destruct (readAt _ (tree (world st))) as [[|c s]|];
    [| destruct (readAt (dir ++ file d) _) as [[|c' b]|] |]; done.
Qed.

Lemma applyLoop_count (agent : AgentInstallation) (dir : path) (name : text)
    (ds all : list Injection) (count : nat) st :
  (forall d, d ∈ ds -> d ∈ all) ->
  let run := foldM (applyOneInjection C agent dir name) count ds in
  exists l,
    log (exec run st) = log st ++ l
    /\ eval run st = count + length l
    /\ forall e, e ∈ l ->
         exists d content,
           d ∈ all /\ e = WriteFile (getSkillFilePath C agent (target d)) content.
Proof.
  revert count st. induction ds as [|d ds IH]; intros count st Hall run.
  - exists []. subst run. cbn. rewrite app_nil_r. repeat split; [lia |].
    by intros e H%elem_of_nil.
  - subst run. cbn [foldM]. rewrite exec_bind, eval_bind.
    pose proof (applyOneInjection_spec agent dir name count d st) as Hstep.
    cbv zeta in Hstep.
    assert (forall d', d' ∈ ds -> d' ∈ all) as Hrest
      by (intros d' Hd'; apply Hall; by right).
    destruct (readAt _ (tree (world st))) as [[|c s]|];
      [| destruct (readAt (dir ++ file d) _) as [[|c' b]|] |].
    all: unfold eval, exec in *; rewrite Hstep; cbn [fst snd].
    all: try (destruct (IH count st Hrest) as [l [Hl [He Hin]]];
              exists l; by repeat split).
    destruct (IH (S count) (writeTextFile (getSkillFilePath C agent (target d))
                   (applyInjection (c :: s) (c' :: b) (position d) name (target d))
                   st).2 Hrest) as [l [Hl [He Hin]]].
    eexists (WriteFile _ _ :: l). unfold eval, exec in *.
    rewrite Hl, He. cbn [writeTextFile]. split; [|split].
    + cbn. by rewrite <- app_assoc.
    + cbn [length]. lia.
    + intros e [->|He']%elem_of_cons; [|by apply Hin].
      eexists d, _. split; [apply Hall; by left | done].
Qed.

(** X9.  The number [applySingleExtensionInjections] returns is the number
    of files it has written, and every file it writes is the skill file of
    one of the directives of the manifest; nothing else is done. *)
Theorem applySingleExtensionInjections_count (agent : AgentInstallation)
    (dir : path) (m : ExtensionManifest) st :
  let run := applySingleExtensionInjections C agent dir m in
  exists l,
    log (exec run st) = log st ++ l
    /\ eval run st = length l
    /\ forall e, e ∈ l ->
         exists d content,
           d ∈ orEmpty (injections m)
           /\ e = WriteFile (getSkillFilePath C agent (target d)) content.
Proof.
  cbv zeta. unfold applySingleExtensionInjections.
  destruct (hasLength (injections m)).
  - destruct (applyLoop_count agent dir (m_name m) (orEmpty (injections m))
                (orEmpty (injections m)) 0 st) as [l Hl]; [done |].
    by exists l.
  - exists []. cbn. rewrite app_nil_r. repeat split.
    by intros e H%elem_of_nil.
Qed.

(** X10.  A directive is passed over when the skill file of its target is
    missing or empty for the agent, or when its own file is: with only
    such directives [applySingleExtensionInjections] returns 0 and changes
    nothing. *)
Theorem applySingleExtensionInjections_skips (agent : AgentInstallation)
    (dir : path) (m : ExtensionManifest) st :
  (forall d, d ∈ orEmpty (injections m) ->
     readAt (getSkillFilePath C agent (target d)) (tree (world st)) = None
     \/ readAt (getSkillFilePath C agent (target d)) (tree (world st)) = Some []
     \/ readAt (dir ++ file d) (tree (world st)) = None
     \/ readAt (dir ++ file d) (tree (world st)) = Some []) ->
  applySingleExtensionInjections C agent dir m st = (0, st).
Proof.
  intros Hall. unfold applySingleExtensionInjections.
  destruct (hasLength (injections m)); [|done].
  generalize 0. induction (orEmpty (injections m)) as [|d ds IH]; intros count.
  - done.
  - cbn [foldM]. unfold bind.
    pose proof (applyOneInjection_spec agent dir (m_name m) count d st) as Hstep.
    cbv zeta in Hstep.
    assert (applyOneInjection C agent dir (m_name m) count d st = (count, st))
      as ->.
    { assert (d ∈ d :: ds) as Hd by (by left).
      destruct (Hall d Hd) as [H|[H|[H|H]]]; rewrite H in Hstep; try done.
      - by destruct (readAt _ (tree (world st))) as [[|? ?]|].
      - by destruct (readAt _ (tree (world st))) as [[|? ?]|]. }
    apply IH. intros d' Hd'. apply Hall. by right.
Qed.

(** ** Applying and stripping *)

(** X11.  For an extension with one directive: after
    [applySingleExtensionInjections] and then [stripAllExtensionInjections]
    the skill file holds its former text again, with its trailing white
    space replaced by one line feed for the append position.  (The skill
    file and the file of the directive are two files that are not empty;
    names without line feed, a skill file without the start marker, an
    injected text in which no line feed is followed by the end marker, and
    front matter in the skill file for the prepend position.) *)
Theorem apply_then_strip (agent : AgentInstallation) (dir : path)
    (m : ExtensionManifest) (d : Injection) (F B : text) st :
  injections m = Some [d] ->
  let q := getSkillFilePath C agent (target d) in
  q <> dir ++ file d ->
  readAt q (tree (world st)) = Some F -> F <> [] ->
  readAt (dir ++ file d) (tree (world st)) = Some B -> B <> [] ->
  includes [nl] (m_name m) = false -> includes [nl] (target d) = false ->
  includes (startMarker (m_name m) (target d) (positionText (position d))) F
    = false ->
  includes (nl :: endMarker (m_name m) (target d) (positionText (position d))) B
    = false ->
  (position d = prepend -> frontMatter F <> None) ->
  let applied := exec (applySingleExtensionInjections C agent dir m) st in
  let stripped :=
    exec (stripAllExtensionInjections C agent (m_name m) m) applied in
  eval (applySingleExtensionInjections C agent dir m) st = 1
  /\ readAt q (tree (world applied))
     = Some (applyInjection F B (position d) (m_name m) (target d))
  /\ readAt q (tree (world stripped))
     = Some match position d with
            | append => trimEnd F ++ [nl]
            | prepend => F
            end.
Proof.
  intros Hm q Hq HF HFne HB HBne Hname Htarget HFclean HBclean Hfm applied stripped.
  assert (applySingleExtensionInjections C agent dir m st
          = (1, exec (writeTextFile q
                        (applyInjection F B (position d) (m_name m) (target d)))
                   st)) as Happly.
  { unfold applySingleExtensionInjections. rewrite Hm.
    change (orEmpty (Some [d])) with [d]. cbn [hasLength foldM]. unfold bind.
    pose proof (applyOneInjection_spec agent dir (m_name m) 0 d st) as Hstep.
    cbv zeta in Hstep. fold q in Hstep. rewrite HF, HB in Hstep.
    destruct F as [|c s]; [done |]. destruct B as [|c' b]; [done |].
    by rewrite Hstep. }
  assert (readAt q (tree (world applied))
          = Some (applyInjection F B (position d) (m_name m) (target d)))
    as Hread.
  { subst applied. unfold exec at 1. rewrite Happly. cbn [snd].
    rewrite tree_writeTextFile. by apply (readAt_writeAt _ _ F). }
  split; [by unfold eval; rewrite Happly |]. split; [done |].
  subst stripped. unfold stripAllExtensionInjections. rewrite Hm.
  change (orEmpty (Some [d])) with [d]. cbn [hasLength forEach].
  rewrite exec_bind, exec_ret.
  destruct (stripOneInjection_spec C agent (m_name m) d applied) as [_ Hsame].
  fold q in Hsame. rewrite Hsame, Hread. cbn [fmap option_fmap option_map].
  rewrite stripInjection_applied by done. f_equal.
  destruct (position d); [done |].
  destruct (frontMatter F); [done | by destruct Hfm].
Qed.
End EngineFacts.

Lemma stripAllExtensionInjections_frame_witness :
  let bait := getExtensionsDir ++ [lit "notes"; lit "extra.md"] in
  let st' := exec (stripAllExtensionInjections Demo.collaborators
                     (Demo.agent "claude") (lit "notes") Demo.notes)
               Demo.notesApplied in
  readAt bait (tree (world st')) = readAt bait (tree (world Demo.notesApplied))
  /\ disk st' = disk Demo.notesApplied.
Proof.
  apply (stripAllExtensionInjections_frame Demo.collaborators
           (Demo.agent "claude") (lit "notes") Demo.notes
           (getExtensionsDir ++ [lit "notes"; lit "extra.md"]) Demo.notesApplied).
  intros d Hd. apply list_elem_of_singleton in Hd. rewrite Hd.
  vm_compute. discriminate.
Defined.

Lemma stripInjectionsByExtensionName_frame_witness :
  let bait := getExtensionsDir ++ [lit "notes"; lit "extra.md"] in
  let st' := exec (stripInjectionsByExtensionName Demo.collaborators
                     (Demo.agent "claude") (lit "notes")) Demo.notesApplied in
  readAt bait (tree (world st')) = readAt bait (tree (world Demo.notesApplied))
  /\ (forall d, findMarkdownFiles (tree (world st')) d
                = findMarkdownFiles (tree (world Demo.notesApplied)) d)
  /\ disk st' = disk Demo.notesApplied.
Proof.
  apply (stripInjectionsByExtensionName_frame Demo.collaborators
           (Demo.agent "claude") (lit "notes")
           (getExtensionsDir ++ [lit "notes"; lit "extra.md"]) Demo.notesApplied).
  left.
  change (findMarkdownFiles (tree (world Demo.notesApplied))
            (configDir (getAgentConfig Demo.collaborators
                          (agent_id (Demo.agent "claude")))))
    with [Demo.skillFile "claude" "aif-plan"].
  intros H. apply list_elem_of_singleton in H. vm_compute in H. discriminate H.
Defined.

Lemma applySingleExtensionInjections_skips_witness :
  applySingleExtensionInjections Demo.collaborators (Demo.agent "codex")
    (extensionDirOf (lit "notes")) Demo.notes Demo.notesProject
  = (0, Demo.notesProject).
Proof.
  apply (applySingleExtensionInjections_skips Demo.collaborators
           (Demo.agent "codex") (extensionDirOf (lit "notes")) Demo.notes
           Demo.notesProject).
  intros d Hd. apply list_elem_of_singleton in Hd. rewrite Hd.
  left. reflexivity.
Defined.

Lemma apply_then_strip_witness :
  let agent := Demo.agent "claude" in
  let dir := extensionDirOf (lit "notes") in
  let skillFile := Demo.skillFile "claude" "aif-plan" in
  let applied := exec (applySingleExtensionInjections Demo.collaborators agent
                         dir Demo.notes) Demo.notesProject in
  let stripped := exec (stripAllExtensionInjections Demo.collaborators agent
                          (lit "notes") Demo.notes) applied in
  eval (applySingleExtensionInjections Demo.collaborators agent dir Demo.notes)
    Demo.notesProject = 1
  /\ readAt skillFile (tree (world applied))
     = Some (applyInjection (lit "Plan the work." ++ [nl])
               (lit "Keep notes." ++ [nl]) append (lit "notes") (lit "aif-plan"))
  /\ readAt skillFile (tree (world stripped))
     = Some (trimEnd (lit "Plan the work." ++ [nl]) ++ [nl]).
Proof.
  apply (apply_then_strip Demo.collaborators (Demo.agent "claude")
           (extensionDirOf (lit "notes")) Demo.notes
           {| target := lit "aif-plan"; position := append;
              file := [lit "extra.md"] |}
           (lit "Plan the work." ++ [nl]) (lit "Keep notes." ++ [nl])
           Demo.notesProject).
  - reflexivity.
  - vm_compute. discriminate.
  - reflexivity.
  - discriminate.
  - reflexivity.
  - discriminate.
  - reflexivity.
  - reflexivity.
  - vm_compute; reflexivity.
  - vm_compute; reflexivity.
  - intros H; discriminate H.
Defined.

(** * Further properties of the commands *)

Lemma findIndex_elem (name : text) (exts : list ExtensionRecord) :
  name ∈ map ext_name exts -> exists i, findIndex name exts = Some i.
Proof.
  intros H. destruct (findIndex name exts) as [i|] eqn:Hi; [by exists i |].
  by apply findIndex_None in Hi.
Qed.

Lemma findIndex_first (name : text) (exts : list ExtensionRecord) (i : nat) :
  findIndex name exts = Some i -> name ∉ map ext_name (take i exts).
Proof.
  revert i. induction exts as [|e exts IH]; intros i; [done |].
  cbn [findIndex]. destruct (bool_decide_reflect (ext_name e = name)) as [He|He].
  - intros [= <-]. cbn. apply not_elem_of_nil.
  - destruct (findIndex name exts) as [j|]; [|done]. intros [= <-].
    cbn [take map]. intros [H|H]%elem_of_cons; [done |]. by apply (IH j).
Qed.

Lemma findIndex_app_new (name : text) (exts : list ExtensionRecord)
    (record : ExtensionRecord) :
  findIndex name exts = None -> ext_name record = name ->
  findIndex name (exts ++ [record]) = Some (length exts).
Proof.
  intros Hnone Hname. induction exts as [|e exts IH]; cbn [findIndex app length].
  - by rewrite bool_decide_eq_true_2.
  - cbn [findIndex] in Hnone.
    destruct (bool_decide (ext_name e = name)); [done |].
    destruct (findIndex name exts); [done |]. by rewrite IH.
Qed.

Lemma delete_named (name : text) (exts : list ExtensionRecord) (i : nat)
    (r : ExtensionRecord) :
  NoDup (map ext_name exts) -> exts !! i = Some r -> ext_name r = name ->
  delete i exts = filter (fun e => ext_name e <> name) exts.
Proof.
  revert i. induction exts as [|e exts IH]; intros i Hnodup Hr Hname; [done |].
  cbn [map] in Hnodup. apply NoDup_cons in Hnodup as [Hfresh Hnodup].
  destruct i as [|i].
  - injection Hr as ->. cbn [delete]. rewrite filter_cons, decide_False
      by (intros H; by apply H).
    symmetry. apply filter_all. intros e He Hn. apply Hfresh.
    rewrite Hname, <- Hn. by apply list_elem_of_fmap_2.
  - cbn in Hr. rewrite filter_cons, decide_True.
    + change (delete (S i) (e :: exts)) with (e :: delete i exts).
      f_equal. by apply IH.
    + intros He. apply Hfresh. rewrite He, <- Hname.
      apply list_elem_of_fmap_2. by apply list_elem_of_lookup_2 in Hr.
Qed.

Section CommandFacts.
Context {X R J : Type} (C : Collaborators X R J).
Implicit Types st : State X.

(** ** Commands that fail *)

Lemma extensionAddCommand_failed (source : text) st (f : Failure) :
  eval (extensionAddCommand C source) st = Exit f ->
  exec (extensionAddCommand C source) st = st.
Proof.
  destruct (disk st) as [config|] eqn:Hdisk.
  - destruct (resolveExtension C (world st) source) as [[manifest r]|] eqn:Hres.
    + destruct (findConflict (m_name manifest) (orEmpty (replaces manifest))
                  (orEmpty (extensions config))) as [[b o]|] eqn:Hconf.
      * intros _. unfold extensionAddCommand.
        rewrite exec_bind, eval_loadConfig, exec_loadConfig, Hdisk.
        rewrite exec_bind, eval_ask, exec_ask, Hres.
        cbn [fst]. rewrite exec_bind, Hconf.
        by destruct (findIndex (m_name manifest) (orEmpty (extensions config))).
      * destruct (extensionAddCommand_run C source st config manifest r
                    Hdisk Hres Hconf) as [Hdone _].
        cbv zeta in Hdone. by rewrite Hdone.
    + intros _. unfold extensionAddCommand.
      rewrite exec_bind, eval_loadConfig, exec_loadConfig, Hdisk.
      by rewrite exec_bind, eval_ask, exec_ask, Hres.
  - intros _. unfold extensionAddCommand.
    by rewrite exec_bind, eval_loadConfig, exec_loadConfig, Hdisk.
Qed.

Lemma extensionRemoveCommand_failed (name : text) st (f : Failure) :
  eval (extensionRemoveCommand C name) st = Exit f ->
  exec (extensionRemoveCommand C name) st = st.
Proof.
  destruct (disk st) as [config|] eqn:Hdisk.
  - destruct (findIndex name (orEmpty (extensions config))) as [i|] eqn:Hi.
    + destruct (findIndex_Some _ _ _ Hi) as [r [Hr _]].
      destruct (extensionRemoveCommand_run C name st config i r Hdisk Hi Hr)
        as [Hdone _].
      cbv zeta in Hdone. by rewrite Hdone.
    + intros _. unfold extensionRemoveCommand.
      rewrite exec_bind, eval_loadConfig, exec_loadConfig, Hdisk.
      cbv zeta. by rewrite Hi.
  - intros _. unfold extensionRemoveCommand.
    by rewrite exec_bind, eval_loadConfig, exec_loadConfig, Hdisk.
Qed.

Lemma updateCommand_failed st (f : Failure) :
  eval (updateCommand C) st = Exit f -> exec (updateCommand C) st = st.
Proof.
  destruct (disk st) as [config|] eqn:Hdisk.
  - destruct (updateCommand_run C st config Hdisk) as [Hdone _].
    cbv zeta in Hdone. by rewrite Hdone.
  - intros _. unfold updateCommand.
    by rewrite exec_bind, eval_loadConfig, exec_loadConfig, Hdisk.
Qed.

(** X12.  A command that ends through one of its own error exits (no
    configuration, a source that does not resolve, a conflict, a name that
    is not installed) has changed nothing: not the files, not the
    extension storage, not the store. *)
Theorem failed_command_changes_nothing (c : Command) st (f : Failure) :
  eval (runCommand C c) st = Exit f -> exec (runCommand C c) st = st.
Proof.
  destruct c as [source| |name]; cbn [runCommand].
  - apply extensionAddCommand_failed.
  - apply updateCommand_failed.
  - apply extensionRemoveCommand_failed.
Qed.

(** ** The records of the store *)

(** X13.  With a configuration, [extensionRemoveCommand] ends normally
    exactly when a record of the store has the name; otherwise it reports
    that the extension is not installed. *)
Theorem extensionRemoveCommand_needs_record (name : text) st
    (config : AiFactoryConfig) :
  disk st = Some config ->
  (name ∈ map ext_name (orEmpty (extensions config)) ->
   eval (extensionRemoveCommand C name) st = Done)
  /\ (name ∉ map ext_name (orEmpty (extensions config)) ->
      eval (extensionRemoveCommand C name) st = Exit (NotInstalled name)).
Proof.
  intros Hdisk. split.
  - intros [i Hi]%findIndex_elem.
    destruct (findIndex_Some _ _ _ Hi) as [r [Hr _]].
    by destruct (extensionRemoveCommand_run C name st config i r Hdisk Hi Hr).
  - intros Hname.
    destruct (findIndex name (orEmpty (extensions config))) as [i|] eqn:Hi.
    + destruct (findIndex_Some _ _ _ Hi) as [r [Hr Hn]].
      exfalso. apply Hname. rewrite <- Hn.
      apply list_elem_of_fmap_2. by apply list_elem_of_lookup_2 in Hr.
    + unfold extensionRemoveCommand.
      rewrite eval_bind, eval_loadConfig, exec_loadConfig, Hdisk.
      cbv zeta. by rewrite Hi.
Qed.

(** X14.  After [extensionRemoveCommand] the store holds the agents and
    the version it held, and of the records, whose names are distinct,
    those with another name, in their order. *)
Theorem extensionRemoveCommand_deletes_record (name : text) st
    (config : AiFactoryConfig) :
  disk st = Some config ->
  NoDup (map ext_name (orEmpty (extensions config))) ->
  name ∈ map ext_name (orEmpty (extensions config)) ->
  disk (exec (extensionRemoveCommand C name) st)
  = Some (withExtensions config
            (filter (fun r => ext_name r <> name) (orEmpty (extensions config)))).
Proof.
  intros Hdisk Hnodup [i Hi]%findIndex_elem.
  destruct (findIndex_Some _ _ _ Hi) as [r [Hr Hn]].
  destruct (extensionRemoveCommand_run C name st config i r Hdisk Hi Hr)
    as [_ (before & after & _ & -> & _)].
  do 2 f_equal. by apply (delete_named name _ i r).
Qed.

Lemma extensionAddCommand_store (source : text) st (config : AiFactoryConfig)
    (manifest : ExtensionManifest) (r : R) :
  disk st = Some config ->
  resolveExtension C (world st) source = Some (manifest, r) ->
  eval (extensionAddCommand C source) st = Done ->
  let exts := orEmpty (extensions config) in
  exists replaced,
    disk (exec (extensionAddCommand C source) st)
    = Some (withExtensions config
              (putRecord exts (findIndex (m_name manifest) exts)
                 (makeRecord manifest source replaced))).
Proof.
  intros Hdisk Hres Hdone exts.
  destruct (extensionAddCommand_Done C source st Hdone)
    as (config' & manifest' & r' & Hdisk' & Hres' & Hconf).
  rewrite Hdisk in Hdisk'. injection Hdisk' as <-.
  rewrite Hres in Hres'. injection Hres' as <- <-.
  destruct (extensionAddCommand_run C source st config manifest r
              Hdisk Hres Hconf) as [_ (results & ? & ? & ? & _ & _ & Hd & _)].
  eexists. apply Hd.
Qed.

(** X15.  After an installation the store holds one more record, the last
    one, when no record had the name of the manifest, and as many records
    as before when one had it; a record with that name holds the source and
    the version of the manifest, and the records with other names are as
    they were. *)
Theorem extensionAddCommand_records (source : text) st
    (config : AiFactoryConfig) (manifest : ExtensionManifest) (r : R) :
  disk st = Some config ->
  resolveExtension C (world st) source = Some (manifest, r) ->
  eval (extensionAddCommand C source) st = Done ->
  let exts := orEmpty (extensions config) in
  let name := m_name manifest in
  exists exts',
    disk (exec (extensionAddCommand C source) st)
    = Some (withExtensions config exts')
    /\ map ext_name exts'
       = (if bool_decide (name ∈ map ext_name exts)
          then map ext_name exts else map ext_name exts ++ [name])
    /\ (exists record,
          record ∈ exts' /\ ext_name record = name
          /\ ext_source record = source
          /\ ext_version record = m_version manifest)
    /\ (forall other, other ∈ exts -> ext_name other <> name -> other ∈ exts').
Proof.
  intros Hdisk Hres Hdone exts name.
  destruct (extensionAddCommand_store source st config manifest r
              Hdisk Hres Hdone) as [replaced Hd].
  fold exts name in Hd. eexists. split; [apply Hd |].
  set (record := makeRecord manifest source replaced).
  destruct (findIndex name exts) as [i|] eqn:Hi; cbn [putRecord].
  - destruct (findIndex_Some _ _ _ Hi) as [r0 [Hr0 Hn0]].
    assert (name ∈ map ext_name exts) as Hin.
    { rewrite <- Hn0. apply list_elem_of_fmap_2.
      by apply list_elem_of_lookup_2 in Hr0. }
    rewrite bool_decide_eq_true_2 by done. split; [|split].
    + rewrite list_fmap_insert. apply list_insert_id.
      rewrite list_lookup_fmap, Hr0. cbn. by rewrite Hn0.
    + exists record. split; [|done].
      apply (list_elem_of_lookup_2 _ i). apply list_lookup_insert_eq.
      by apply lookup_lt_Some in Hr0.
    + intros other [j Hj]%list_elem_of_lookup_1 Hne.
      apply (list_elem_of_lookup_2 _ j). rewrite list_lookup_insert_ne; [done |].
      intros <-. rewrite Hr0 in Hj. injection Hj as <-. done.
  - apply findIndex_None in Hi.
    rewrite bool_decide_eq_false_2 by done. split; [|split].
    + by rewrite fmap_app.
    + exists record. split; [|done]. apply elem_of_app. right. by left.
    + intros other Hother _. apply elem_of_app. by left.
Qed.

(** X16.  With a configuration and a source that resolves,
    [extensionAddCommand] ends normally exactly when no record with
    another name owns a base skill that the manifest replaces: the record
    of the extension itself never stands in the way of installing it
    again. *)
Theorem extensionAddCommand_succeeds_iff (source : text) st
    (config : AiFactoryConfig) (manifest : ExtensionManifest) (r : R) :
  disk st = Some config ->
  resolveExtension C (world st) source = Some (manifest, r) ->
  eval (extensionAddCommand C source) st = Done
  <-> (forall e other,
         e ∈ orEmpty (replaces manifest) ->
         other ∈ orEmpty (extensions config) ->
         ext_name other <> m_name manifest -> e.2 ∉ owned other).
Proof.
  intros Hdisk Hres. rewrite <- findConflict_None. split.
  - intros Hdone.
    destruct (extensionAddCommand_Done C source st Hdone)
      as (config' & manifest' & r' & Hdisk' & Hres' & Hconf).
    rewrite Hdisk in Hdisk'. injection Hdisk' as <-.
    rewrite Hres in Hres'. by injection Hres' as <- <-.
  - intros Hconf.
    by destruct (extensionAddCommand_run C source st config manifest r
                   Hdisk Hres Hconf).
Qed.

(** X17.  Installing an extension of a name that no record has, and
    removing it again, leaves the store with the records, the agents and
    the version it had. *)
Theorem add_then_remove_store (source : text) st (config : AiFactoryConfig)
    (manifest : ExtensionManifest) (r : R) :
  disk st = Some config ->
  resolveExtension C (world st) source = Some (manifest, r) ->
  eval (extensionAddCommand C source) st = Done ->
  m_name manifest ∉ map ext_name (orEmpty (extensions config)) ->
  let installed := exec (extensionAddCommand C source) st in
  let remove := extensionRemoveCommand C (m_name manifest) in
  eval remove installed = Done
  /\ disk (exec remove installed)
     = Some (withExtensions config (orEmpty (extensions config))).
Proof.
  intros Hdisk Hres Hdone Hnew installed remove.
  destruct (extensionAddCommand_store source st config manifest r
              Hdisk Hres Hdone) as [replaced Hd].
  fold installed in Hd.
  set (exts := orEmpty (extensions config)) in *.
  set (record := makeRecord manifest source replaced) in *.
  assert (findIndex (m_name manifest) exts = None) as Hnone.
  { destruct (findIndex (m_name manifest) exts) as [i|] eqn:Hi; [|done].
    destruct (findIndex_Some _ _ _ Hi) as [r0 [Hr0 Hn0]].
    exfalso. apply Hnew. rewrite <- Hn0. apply list_elem_of_fmap_2.
    by apply list_elem_of_lookup_2 in Hr0. }
  rewrite Hnone in Hd. cbn [putRecord] in Hd.
  assert (findIndex (m_name manifest) (exts ++ [record]) = Some (length exts))
    as Hindex by (by apply findIndex_app_new).
  assert ((exts ++ [record]) !! length exts = Some record) as Hrecord
    by (by rewrite lookup_app_r, Nat.sub_diag by lia).
  destruct (extensionRemoveCommand_run C (m_name manifest) installed
              (withExtensions config (exts ++ [record])) (length exts) record
              Hd Hindex Hrecord) as [Hrem (before & after & _ & Hd' & _)].
  split; [done |]. subst remove. rewrite Hd'.
  unfold withExtensions. cbn [agents cfg_version extensions].
  change (orEmpty (Some (exts ++ [record]))) with (exts ++ [record]).
  by rewrite delete_middle, app_nil_r.
Qed.
End CommandFacts.

Lemma failed_command_changes_nothing_witness :
  exec (runCommand Demo.collaborators (CmdRemove (lit "notes")))
    Demo.helloInstalled
  = Demo.helloInstalled.
Proof.
  apply (failed_command_changes_nothing Demo.collaborators
           (CmdRemove (lit "notes")) Demo.helloInstalled
           (NotInstalled (lit "notes"))).
  vm_compute; reflexivity.
Defined.

Lemma extensionRemoveCommand_needs_record_witness :
  let names := [lit "hello-commit"] in
  (lit "hello-commit" ∈ names ->
   eval (extensionRemoveCommand Demo.collaborators (lit "hello-commit"))
     Demo.helloInstalled = Done)
  /\ (lit "hello-commit" ∉ names ->
      eval (extensionRemoveCommand Demo.collaborators (lit "hello-commit"))
        Demo.helloInstalled = Exit (NotInstalled (lit "hello-commit"))).
Proof.
  apply (extensionRemoveCommand_needs_record Demo.collaborators
           (lit "hello-commit") Demo.helloInstalled
           (Demo.configOf [Demo.agent "claude"; Demo.agent "codex"]
              [Demo.record "hello-commit" (Some [lit "aif-commit"])])).
  reflexivity.
Defined.

Lemma extensionRemoveCommand_deletes_record_witness :
  disk (exec (extensionRemoveCommand Demo.collaborators (lit "hello-commit"))
          Demo.helloInstalled)
  = Some (Demo.configOf [Demo.agent "claude"; Demo.agent "codex"] []).
Proof.
  apply (extensionRemoveCommand_deletes_record Demo.collaborators
           (lit "hello-commit") Demo.helloInstalled
           (Demo.configOf [Demo.agent "claude"; Demo.agent "codex"]
              [Demo.record "hello-commit" (Some [lit "aif-commit"])])).
  - reflexivity.
  - apply NoDup_singleton.
  - apply list_elem_of_here.
Defined.

Lemma extensionAddCommand_records_witness :
  exists exts',
    disk (exec (extensionAddCommand Demo.collaborators (lit "./notes"))
            Demo.notesProject)
    = Some (withExtensions (Demo.configOf [Demo.agent "claude"] []) exts')
    /\ map ext_name exts'
       = (if bool_decide (lit "notes" ∈ map ext_name ([] : list ExtensionRecord))
          then [] else [] ++ [lit "notes"])
    /\ (exists record,
          record ∈ exts' /\ ext_name record = lit "notes"
          /\ ext_source record = lit "./notes"
          /\ ext_version record = lit "1.0.0")
    /\ (forall other, other ∈ ([] : list ExtensionRecord) ->
                      ext_name other <> lit "notes" -> other ∈ exts').
Proof.
  apply (extensionAddCommand_records Demo.collaborators (lit "./notes")
           Demo.notesProject (Demo.configOf [Demo.agent "claude"] [])
           Demo.notes tt).
  - reflexivity.
  - reflexivity.
  - vm_compute; reflexivity.
Defined.

Lemma extensionAddCommand_succeeds_iff_witness :
  eval (extensionAddCommand Demo.collaborators (lit "./b")) Demo.conflicting
  = Done
  <-> (forall e other,
         e ∈ orEmpty (replaces (Demo.claimsShared "b")) ->
         other ∈ [Demo.record "a" (Some [lit "shared"])] ->
         ext_name other <> lit "b" -> e.2 ∉ owned other).
Proof.
  apply (extensionAddCommand_succeeds_iff Demo.collaborators (lit "./b")
           Demo.conflicting
           (Demo.configOf [Demo.agent "claude"; Demo.agent "codex"]
              [Demo.record "a" (Some [lit "shared"])])
           (Demo.claimsShared "b") tt).
  - reflexivity.
  - reflexivity.
Defined.

Lemma add_then_remove_store_witness :
  let installed := exec (extensionAddCommand Demo.collaborators (lit "./notes"))
                     Demo.notesProject in
  let remove := extensionRemoveCommand Demo.collaborators (lit "notes") in
  eval remove installed = Done
  /\ disk (exec remove installed)
     = Some (withExtensions (Demo.configOf [Demo.agent "claude"] []) []).
Proof.
  apply (add_then_remove_store Demo.collaborators (lit "./notes")
           Demo.notesProject (Demo.configOf [Demo.agent "claude"] [])
           Demo.notes tt).
  - reflexivity.
  - reflexivity.
  - vm_compute; reflexivity.
  - apply not_elem_of_nil.
Defined.

(** * Further properties of updateCommand and of the MCP configuration *)

Lemma elem_of_distinct (s : text) (xs : list text) : s ∈ distinct xs <-> s ∈ xs.
Proof.
  induction xs as [|x xs IH]; [done |]. cbn [distinct].
  rewrite !elem_of_cons, list_elem_of_filter, IH.
  destruct (decide (s = x)) as [->|Hne]; [by split; left |].
  split; [intros [?|[_ ?]]; auto | intros [?|?]; auto].
Qed.

Lemma NoDup_distinct (xs : list text) : NoDup (distinct xs).
Proof.
  induction xs as [|x xs IH]; [constructor |]. cbn [distinct].
  apply NoDup_cons. split.
  - intros [Hne _]%list_elem_of_filter. by apply Hne.
  - by apply NoDup_filter.
Qed.

Lemma filter_none {A : Type} (P : A -> Prop) `{!forall x, Decision (P x)}
    (l : list A) :
  (forall x, x ∈ l -> ~ P x) -> filter P l = [].
Proof.
  induction l as [|x l IH]; intros Hnone; [done |].
  rewrite filter_cons, decide_False by (apply Hnone; by left).
  apply IH. intros y Hy. apply Hnone. by right.
Qed.

Lemma elem_of_flat_map {A B : Type} (f : A -> list B) (l : list A) (y : B) :
  y ∈ flat_map f l <-> exists x, x ∈ l /\ y ∈ f x.
Proof.
  rewrite list_elem_of_In, in_flat_map. split.
  - intros [x [Hx Hy]]. exists x. by rewrite !list_elem_of_In.
  - intros [x [Hx Hy]]. exists x. by rewrite <- !list_elem_of_In.
Qed.

Section UpdateMore.
Context {X R J : Type} (C : Collaborators X R J).
Implicit Types st : State X.

(** The record of [ext] after its visit in the loop "Re-install replacement
    skills from extensions", when [manifest] is what was loaded for it. *)
Let recordAfter (ext : ExtensionRecord) (manifest : option ExtensionManifest)
    : ExtensionRecord :=
  if negb (hasLength (replacedSkills ext)) then ext
  else match manifest ≫= replaces with
       | None => withReplacedSkills ext []
       | Some entries =>
           if 0 <? length (filter (fun s => s ∉ map snd entries) (owned ext))
           then withReplacedSkills ext
                  (filter (fun s => s ∈ map snd entries) (owned ext))
           else ext
       end.

Lemma reinstallReplacements_record (agentList : list AgentInstallation)
    (acc : list text * list ExtensionRecord) (ext : ExtensionRecord) st :
  (eval (reinstallReplacements C agentList acc ext) st).2
  = acc.2 ++ [recordAfter ext
                (loadExtensionManifest C (world st) (extensionDirOf (ext_name ext)))].
Proof.
  unfold reinstallReplacements, recordAfter. cbv zeta.
  destruct (hasLength (replacedSkills ext)); simpl negb; cbv iota; [|done].
  rewrite eval_bind, eval_ask.
  destruct (loadExtensionManifest C (world st) _ ≫= replaces) as [entries|];
    [|done].
  rewrite eval_bind, eval_ret. cbn [snd]. unfold owned.
  by destruct (0 <? length _).
Qed.

Lemma reinstallLoop_records (agentList : list AgentInstallation)
    (exts : list ExtensionRecord) (acc : list text * list ExtensionRecord) st :
  exists exts',
    (eval (foldM (reinstallReplacements C agentList) acc exts) st).2
    = acc.2 ++ exts'
    /\ Forall2 (fun ext ext' =>
                  exists w, ext' = recordAfter ext
                                     (loadExtensionManifest C w
                                        (extensionDirOf (ext_name ext))))
         exts exts'.
Proof.
  revert acc st. induction exts as [|ext exts IH]; intros acc st.
  - exists []. rewrite app_nil_r. split; [done | constructor].
  - cbn [foldM]. rewrite eval_bind.
    pose proof (reinstallReplacements_record agentList acc ext st) as Hrec.
    destruct (IH (eval (reinstallReplacements C agentList acc ext) st)
                 (exec (reinstallReplacements C agentList acc ext) st))
      as [exts' [He Hall]].
    rewrite He, Hrec. eexists (_ :: exts'). rewrite <- app_assoc.
    split; [done |]. constructor; [by exists (world st) | done].
Qed.

Lemma doUpdateSkills_spec (agent : AgentInstallation) (excluded : list text) st :
  log (exec (doUpdateSkills C agent excluded) st)
  = log st ++ [UpdateSkills (agent_id agent) excluded].
Proof.
  unfold doUpdateSkills, exec, eval, bind, act, emit, ret. simpl.
  by destruct (updateSkills C agent excluded (world st)).
Qed.

Lemma refresh_spec (excluded : list text) (agentList acc : list AgentInstallation) st :
  let run :=
    foldM (fun updated agent =>
             bind (doUpdateSkills C agent excluded) (fun installed =>
             ret (updated ++ [{| agent_id := agent_id agent;
                                 skillsDir := skillsDir agent;
                                 installedSkills := installed |}])))
      acc agentList in
  (exists l,
     eval run st = acc ++ l
     /\ Forall2 (fun a a' => agent_id a' = agent_id a /\ skillsDir a' = skillsDir a)
          agentList l)
  /\ log (exec run st)
     = log st ++ map (fun agent => UpdateSkills (agent_id agent) excluded) agentList.
Proof.
  revert acc st. induction agentList as [|agent agentList IH]; intros acc st.
  - cbn. rewrite app_nil_r. split; [|done]. exists []. by rewrite app_nil_r.
  - cbn [foldM].
    repeat (rewrite ?eval_bind, ?exec_bind, ?eval_ret, ?exec_ret).
    set (st1 := exec (doUpdateSkills C agent excluded) st).
    set (acc1 := acc ++ [_]).
    destruct (IH acc1 st1) as [[l [He Hall]] Hl]. cbv zeta in He, Hl.
    split.
    + eexists (_ :: l). rewrite He. subst acc1. rewrite <- app_assoc.
      split; [done |]. by constructor.
    + rewrite Hl. subst st1. rewrite doUpdateSkills_spec.
      by rewrite <- app_assoc.
Qed.

(** What [updateCommand] does, step by step. *)
Lemma updateCommand_steps st (config : AiFactoryConfig) :
  disk st = Some config ->
  let exts := orEmpty (extensions config) in
  let allReplacedSkills :=
    distinct (flat_map (fun ext => orEmpty (replacedSkills ext)) exts) in
  exists agentList exts' rest,
    let config' :=
      {| cfg_version := getCurrentVersion C;
         agents := agentList;
         extensions := match extensions config with
                       | Some _ => Some exts'
                       | None => None
                       end |} in
    disk (exec (updateCommand C) st) = Some config'
    /\ log (exec (updateCommand C) st)
       = log st
           ++ map (fun agent => UpdateSkills (agent_id agent) allReplacedSkills)
                (agents config)
           ++ rest ++ [SaveConfig config']
    /\ forallb (fun e => negb (isUpdateSkills e)) rest = true
    /\ Forall2 (fun a a' => agent_id a' = agent_id a /\ skillsDir a' = skillsDir a)
         (agents config) agentList
    /\ Forall2 (fun ext ext' =>
                  exists w, ext' = recordAfter ext
                                     (loadExtensionManifest C w
                                        (extensionDirOf (ext_name ext))))
         exts exts'.
Proof.
  intros Hdisk exts allReplacedSkills. unfold updateCommand.
  rewrite exec_bind, eval_loadConfig, exec_loadConfig, Hdisk.
  fold exts. fold allReplacedSkills.
  set (refresh := foldM _ [] (agents config)).
  rewrite !exec_bind, !exec_ret.
  destruct (refresh_spec allReplacedSkills (agents config) [] st)
    as [[agentList [He1 Hagents]] Hl1].
  cbv zeta in He1, Hl1. fold refresh in He1, Hl1. cbn [app] in He1.
  rewrite He1.
  set (st1 := exec refresh st) in *.
  set (P := fun e => negb (isUpdateSkills e)).
  destruct (reinstallLoop_records agentList exts ([], []) st1)
    as [exts' [He2 Hrecords]]. cbn [snd app] in He2.
  assert (emits P (foldM (reinstallReplacements C agentList) ([], []) exts))
    as Hloop by (apply emits_foldM; intros; emits_all).
  destruct (Hloop st1) as [_ [l2 [Hl2 HP2]]].
  set (result := eval (foldM (reinstallReplacements C agentList) ([], []) exts) st1)
    in *.
  set (st2 := exec (foldM (reinstallReplacements C agentList) ([], []) exts) st1)
    in *.
  assert (emits P (restoreFailedReplacements C agentList result.1 result.2))
    as Hrestore by emits_all.
  destruct (Hrestore st2) as [_ [l3 [Hl3 HP3]]].
  set (st3 := exec (restoreFailedReplacements C agentList result.1 result.2) st2)
    in *.
  set (inject := if hasLength (extensions config) then _ else ret tt).
  assert (emits P inject) as Hinject by (subst inject; emits_all).
  destruct (Hinject st3) as [_ [l4 [Hl4 HP4]]].
  set (st4 := exec inject st3) in *.
  exists agentList, exts', (l2 ++ l3 ++ l4). cbv zeta. rewrite <- He2.
  split; [done |]. split; [|split; [|by rewrite He2]].
  - cbn [log exec saveConfig snd]. rewrite Hl4, Hl3, Hl2, Hl1.
    by rewrite <- !app_assoc.
  - by rewrite !forallb_app, HP2, HP3, HP4.
Qed.

Lemma recordAfter_shrinks (ext : ExtensionRecord)
    (manifest : option ExtensionManifest) :
  let ext' := recordAfter ext manifest in
  ext_name ext' = ext_name ext /\ ext_source ext' = ext_source ext
  /\ ext_version ext' = ext_version ext /\ owned ext' ⊆ owned ext.
Proof.
  cbv zeta. unfold recordAfter.
  destruct (hasLength (replacedSkills ext)); simpl negb; cbv iota; [|done].
  destruct (manifest ≫= replaces) as [entries|].
  - destruct (0 <? length _); [|done]. repeat split.
    rewrite owned_withReplacedSkills. intros s Hs.
    by apply list_elem_of_filter in Hs as [_ ?].
  - repeat split. rewrite owned_withReplacedSkills. by intros s Hs%elem_of_nil.
Qed.

(** X18.  [updateCommand] writes a store with the version of the package,
    the agents it had, with their ids and skill directories, and the
    records it had, in their order and with their names, sources and
    versions, each owning no base skill that it did not own before. *)
Theorem updateCommand_store st (config : AiFactoryConfig) :
  disk st = Some config ->
  exists config',
    disk (exec (updateCommand C) st) = Some config'
    /\ cfg_version config' = getCurrentVersion C
    /\ Forall2 (fun a a' => agent_id a' = agent_id a /\ skillsDir a' = skillsDir a)
         (agents config) (agents config')
    /\ Forall2 (fun ext ext' =>
                  ext_name ext' = ext_name ext /\ ext_source ext' = ext_source ext
                  /\ ext_version ext' = ext_version ext
                  /\ owned ext' ⊆ owned ext)
         (orEmpty (extensions config)) (orEmpty (extensions config')).
Proof.
  intros Hdisk.
  destruct (updateCommand_steps st config Hdisk)
    as (agentList & exts' & rest & Hd & _ & _ & Hagents & Hrecords).
  eexists. split; [apply Hd |]. split; [done |]. split; [done |].
  cbn [extensions].
  assert (Forall2 (fun ext ext' =>
                     ext_name ext' = ext_name ext /\ ext_source ext' = ext_source ext
                     /\ ext_version ext' = ext_version ext
                     /\ owned ext' ⊆ owned ext)
            (orEmpty (extensions config)) exts') as Hall.
  { eapply Forall2_impl; [apply Hrecords |].
    intros ext ext' [w ->]. apply recordAfter_shrinks. }
  destruct (extensions config) as [exts|]; [done |].
  apply Forall2_nil_inv_l in Hall as ->. constructor.
Qed.

(** X19.  [updateCommand] calls [updateSkills] once for every agent, in
    the order of the configuration, and every call excludes the base
    skills that the records of the store own: a base skill that an
    extension replaces is not refreshed. *)
Theorem updateCommand_excludes_owned st (config : AiFactoryConfig) :
  disk st = Some config ->
  let exts := orEmpty (extensions config) in
  let events := since st (exec (updateCommand C) st) in
  exists excluded,
    filter (fun e => isUpdateSkills e = true) events
    = map (fun agent => UpdateSkills (agent_id agent) excluded) (agents config)
    /\ NoDup excluded
    /\ forall s, s ∈ excluded <-> exists ext, ext ∈ exts /\ s ∈ owned ext.
Proof.
  intros Hdisk exts events.
  destruct (updateCommand_steps st config Hdisk)
    as (agentList & exts' & rest & _ & Hl & Hrest & _ & _).
  eexists. split; [|split].
  - subst events. rewrite (since_app _ _ _ Hl). rewrite !filter_app.
    rewrite filter_all.
    + assert (filter (fun e => isUpdateSkills e = true) rest = []) as ->.
      { apply filter_none. rewrite forallb_forall in Hrest.
        intros e He%list_elem_of_In%Hrest. by destruct (isUpdateSkills e). }
      rewrite filter_cons, decide_False by done. by rewrite app_nil_r.
    + by intros e [ag [-> _]]%list_elem_of_fmap.
  - apply NoDup_distinct.
  - intros s. by rewrite elem_of_distinct, elem_of_flat_map.
Qed.


End UpdateMore.

Lemma updateCommand_store_witness :
  let config := Demo.configOf [Demo.agent "claude"; Demo.agent "codex"]
                  [Demo.record "hello-commit" (Some [lit "aif-commit"])] in
  exists config',
    disk (exec (updateCommand Demo.collaborators) Demo.helloInstalled)
    = Some config'
    /\ cfg_version config' = lit "2.2.0"
    /\ Forall2 (fun a a' => agent_id a' = agent_id a /\ skillsDir a' = skillsDir a)
         (agents config) (agents config')
    /\ Forall2 (fun ext ext' =>
                  ext_name ext' = ext_name ext /\ ext_source ext' = ext_source ext
                  /\ ext_version ext' = ext_version ext
                  /\ owned ext' ⊆ owned ext)
         (orEmpty (extensions config)) (orEmpty (extensions config')).
Proof.
  apply (updateCommand_store Demo.collaborators Demo.helloInstalled
           (Demo.configOf [Demo.agent "claude"; Demo.agent "codex"]
              [Demo.record "hello-commit" (Some [lit "aif-commit"])])).
  reflexivity.
Defined.

Lemma updateCommand_excludes_owned_witness :
  let config := Demo.configOf [Demo.agent "claude"; Demo.agent "codex"]
                  [Demo.record "hello-commit" (Some [lit "aif-commit"])] in
  let events := since Demo.helloInstalled
                  (exec (updateCommand Demo.collaborators) Demo.helloInstalled) in
  exists excluded,
    filter (fun e => isUpdateSkills e = true) events
    = map (fun agent => UpdateSkills (agent_id agent) excluded) (agents config)
    /\ NoDup excluded
    /\ forall s, s ∈ excluded
                 <-> exists ext, ext ∈ orEmpty (extensions config) /\ s ∈ owned ext.
Proof.
  apply (updateCommand_excludes_owned Demo.collaborators Demo.helloInstalled
           (Demo.configOf [Demo.agent "claude"; Demo.agent "codex"]
              [Demo.record "hello-commit" (Some [lit "aif-commit"])])).
  reflexivity.
Defined.



(** ** applyExtensionMcp *)

Section McpFacts.
Context {X R J : Type} (C : Collaborators X R J).
Implicit Types st : State X.

Lemma foldM_eval_invariant {A B : Type} (I : B -> Prop)
    (body : B -> A -> M B) (xs : list A) (b : B) st :
  (forall b x s, x ∈ xs -> I b -> I (eval (body b x) s)) ->
  I b -> I (eval (foldM body b xs) st).
Proof.
  revert b st. induction xs as [|x xs IH]; intros b st Hbody Hb; [done |].
  cbn [foldM]. rewrite eval_bind. apply IH.
  - intros b' y s Hy. apply Hbody. by right.
  - apply Hbody; [by left | done].
Qed.

Lemma emits_foldM_elem {A B : Type} (P : Event -> bool)
    (body : B -> A -> M B) (b : B) (xs : list A) :
  (forall b x, x ∈ xs -> emits (X:=X) P (body b x)) ->
  emits (X:=X) P (foldM body b xs).
Proof.
  revert b. induction xs as [|x xs IH]; intros b Hbody; cbn [foldM].
  - apply emits_ret.
  - apply emits_bind; [apply Hbody; by left |].
    intros b'. apply IH. intros b'' y Hy. apply Hbody. by right.
Qed.

(** X22.  The keys [applyExtensionMcp] returns are keys of the MCP servers
    of the manifest, and none is returned twice. *)
Theorem applyExtensionMcp_keys (agentIds : list text) (dir : path)
    (m : ExtensionManifest) st :
  let configured := eval (applyExtensionMcp C agentIds dir m) st in
  NoDup configured
  /\ forall k, k ∈ configured -> k ∈ map key (orEmpty (mcpServers m)).
Proof.
  cbv zeta. unfold applyExtensionMcp.
  destruct (hasLength (mcpServers m));
    [|split; [constructor | by intros k H%elem_of_nil]].
  set (keys := map key (orEmpty (mcpServers m))).
  apply (foldM_eval_invariant
           (fun acc => NoDup acc /\ forall k, k ∈ acc -> k ∈ keys)).
  - intros acc srv s Hsrv Hacc. rewrite eval_bind, eval_ask.
    destruct (readJsonFile C (world s) _) as [tpl|]; [|done].
    apply foldM_eval_invariant; [|done].
    intros acc' agentId s' _ [Hnodup Hsub].
    destruct (supportsMcp (getAgentConfig C agentId)); [|done].
    repeat (rewrite ?eval_bind, ?exec_bind, ?eval_ret, ?exec_ret).
    destruct (0 <? length _); [|done].
    destruct (bool_decide_reflect (key srv ∈ acc')) as [Hin|Hin]; [done |].
    cbn [andb negb]. rewrite eval_ret. split.
    + apply NoDup_app. repeat split; [done | | apply NoDup_singleton].
      intros k Hk ->%list_elem_of_singleton. done.
    + intros k [Hk| ->%list_elem_of_singleton]%elem_of_app; [by apply Hsub |].
      by apply list_elem_of_fmap_2.
  - split; [constructor | by intros k H%elem_of_nil].
Qed.

(** X23.  All that [applyExtensionMcp] does is to configure MCP servers:
    for agents among those it is given that support MCP, and with keys of
    the servers of the manifest.  The store stays as it is. *)
Theorem applyExtensionMcp_supported (agentIds : list text) (dir : path)
    (m : ExtensionManifest) st :
  let st' := exec (applyExtensionMcp C agentIds dir m) st in
  disk st' = disk st
  /\ forall e, e ∈ since st st' ->
       exists agentId k,
         e = ConfigureMcp agentId k
         /\ agentId ∈ agentIds
         /\ supportsMcp (getAgentConfig C agentId) = true
         /\ k ∈ map key (orEmpty (mcpServers m)).
Proof.
  cbv zeta.
  set (P := fun e =>
              match e with
              | ConfigureMcp agentId k =>
                  bool_decide (agentId ∈ agentIds)
                  && supportsMcp (getAgentConfig C agentId)
                  && bool_decide (k ∈ map key (orEmpty (mcpServers m)))
              | _ => false
              end).
  assert (emits P (applyExtensionMcp C agentIds dir m)) as Hemits.
  { unfold applyExtensionMcp. destruct (hasLength (mcpServers m));
      [|apply emits_ret].
    apply emits_foldM_elem. intros acc srv Hsrv.
    apply emits_bind; [apply emits_ask |]. intros [tpl|]; [|apply emits_ret].
    apply emits_foldM_elem. intros acc' agentId Hagent.
    destruct (supportsMcp (getAgentConfig C agentId)) eqn:Hsup;
      [|apply emits_ret].
    apply emits_bind; [apply emits_act |]. intros configured.
    apply emits_bind.
    - apply emits_emit. unfold P.
      rewrite Hsup, !bool_decide_eq_true_2; [done | | done].
      by apply list_elem_of_fmap_2.
    - intros _. destruct (_ && _); apply emits_ret. }
  destruct (Hemits st) as [Hd [l [Hl HP]]]. split; [done |].
  rewrite (since_app _ _ _ Hl). intros e He.
  rewrite forallb_forall in HP. apply list_elem_of_In, HP in He.
  destruct e; try done. unfold P in He.
  apply andb_true_iff in He as [[Ha Hs]%andb_true_iff Hk].
  apply bool_decide_eq_true in Ha, Hk. by eexists _, _.
Qed.
End McpFacts.

(** ** The order of a removal *)

Section RemoveOrder.
Context {X R J : Type} (C : Collaborators X R J).
Implicit Types st : State X.

Lemma doRemoveExtensionFiles_spec (name : text) st :
  log (exec (doRemoveExtensionFiles C name) st) = log st ++ [RemoveFiles name]
  /\ disk (exec (doRemoveExtensionFiles C name) st) = disk st.
Proof. done. Qed.

End RemoveOrder.


(** * The source of a remote skill *)

Lemma includes_char_cons (c d : char) (s : text) :
  includes [c] (d :: s) = N.eqb c d || includes [c] s.
Proof. cbn [includes startsWith]. by rewrite andb_true_r. Qed.

Lemma split_nonempty (sep : char) (s : text) : splitBy sep s <> [].
Proof.
  induction s as [|c s IH]; [done |]. cbn [splitBy].
  destruct (N.eqb c sep); [done |]. by destruct (splitBy sep s).
Qed.

Lemma split_clean (sep : char) (a : text) :
  includes [sep] a = false -> splitBy sep a = [a].
Proof.
  induction a as [|c a IH]; [done |]. rewrite includes_char_cons.
  intros [Hc Ha]%orb_false_iff. cbn [splitBy].
  rewrite N.eqb_sym, Hc. by rewrite IH.
Qed.

Lemma split_app (sep : char) (a r : text) :
  includes [sep] a = false -> splitBy sep (a ++ sep :: r) = a :: splitBy sep r.
Proof.
  induction a as [|c a IH].
  - intros _. cbn [app splitBy]. by rewrite N.eqb_refl.
  - rewrite includes_char_cons. intros [Hc Ha]%orb_false_iff.
    cbn [app splitBy]. rewrite N.eqb_sym, Hc. by rewrite IH.
Qed.

Lemma join_split (sep : char) (s : text) : joinWith [sep] (splitBy sep s) = s.
Proof.
  induction s as [|c s IH]; [done |]. cbn [splitBy].
  destruct (N.eqb_spec c sep) as [->|Hc].
  - pose proof (split_nonempty sep s) as Hne.
    destruct (splitBy sep s) as [|part parts]; [done |].
    cbn [joinWith app] in IH |- *. by rewrite IH.
  - pose proof (split_nonempty sep s) as Hne.
    destruct (splitBy sep s) as [|part parts]; [done |].
    destruct parts as [|part' parts]; cbn [joinWith app] in IH |- *; by rewrite IH.
Qed.

Lemma split_parts (sep : char) (s part : text) :
  part ∈ splitBy sep s -> includes [sep] part = false.
Proof.
  revert part. induction s as [|c s IH]; intros part.
  - by intros ->%list_elem_of_singleton.
  - cbn [splitBy]. destruct (N.eqb_spec c sep) as [->|Hc].
    + intros [->|H]%elem_of_cons; [done | by apply IH].
    + pose proof (split_nonempty sep s) as Hne.
      destruct (splitBy sep s) as [|part' parts]; [done |].
      intros [->|H]%elem_of_cons.
      * rewrite includes_char_cons. apply orb_false_iff. split.
        -- apply N.eqb_neq. congruence.
        -- apply IH. by left.
      * apply IH. by right.
Qed.

Lemma indexOf_char_None (c : char) (s : text) :
  includes [c] s = false -> indexOf [c] s = None.
Proof.
  induction s as [|d s IH]; [done |]. rewrite includes_char_cons.
  intros [Hd Hs]%orb_false_iff. cbn [indexOf startsWith].
  rewrite Hd. cbn [andb]. by rewrite IH.
Qed.

Lemma indexOf_char_None_inv (c : char) (s : text) :
  indexOf [c] s = None -> includes [c] s = false.
Proof.
  induction s as [|d s IH]; [done |].
  cbn [indexOf startsWith]. rewrite andb_true_r, includes_char_cons.
  destruct (N.eqb c d); [done |]. cbn [orb].
  destruct (indexOf [c] s); [done |]. intros _. by apply IH.
Qed.

Lemma indexOf_char_app (c : char) (a r : text) :
  includes [c] a = false -> indexOf [c] (a ++ c :: r) = Some (length a).
Proof.
  induction a as [|d a IH].
  - intros _. cbn [app indexOf startsWith]. by rewrite N.eqb_refl.
  - rewrite includes_char_cons. intros [Hd Ha]%orb_false_iff.
    cbn [app indexOf startsWith]. rewrite Hd. cbn [andb]. by rewrite IH.
Qed.

Lemma indexOf_char_Some (c : char) (s : text) (i : nat) :
  indexOf [c] s = Some i ->
  includes [c] (take i s) = false /\ s = take i s ++ c :: drop (i + 1) s.
Proof.
  revert i. induction s as [|d s IH]; intros i; [done |].
  cbn [indexOf startsWith]. rewrite andb_true_r.
  destruct (N.eqb_spec c d) as [->|Hd].
  - intros [= <-]. done.
  - destruct (indexOf [c] s) as [j|]; [|done]. intros [= <-].
    destruct (IH j eq_refl) as [Hclean Heq]. cbn [take drop Nat.add app]. split.
    + rewrite includes_char_cons. apply orb_false_iff. split; [|done].
      by apply N.eqb_neq.
    + by rewrite <- Heq.
Qed.

(** X25.  [parseRemoteSource] gives back the source that [formatSourceUri]
    has formatted, when the owner and the repository hold neither a slash
    nor a hash sign, the skill path, if there is one, is not empty and
    holds no hash sign, and the ref is not [main]. *)
Theorem parseRemoteSource_formatSourceUri (source : RemoteSource) :
  includes [slash] (owner source) = false ->
  includes [hash] (owner source) = false ->
  includes [slash] (repo source) = false ->
  includes [hash] (repo source) = false ->
  (forall p, skillPath source = Some p -> p <> [] /\ includes [hash] p = false) ->
  ref source <> lit "main" ->
  parseRemoteSource (formatSourceUri source) = inr source.
Proof.
  destruct source as [o r sp rf]. cbn [owner repo skillPath ref].
  intros Ho1 Ho2 Hr1 Hr2 Hsp Hrf.
  set (tail := match sp with Some (c :: p) => slash :: c :: p | _ => [] end).
  assert (includes [hash] (o ++ slash :: r ++ tail) = false) as Hbody.
  { apply includes_char_app; [done |]. rewrite includes_char_cons.
    apply orb_false_iff. split; [done |]. apply includes_char_app; [done |].
    subst tail. destruct sp as [[|c p]|]; [done | | done].
    destruct (Hsp (c :: p) eq_refl) as [_ Hp]. by rewrite includes_char_cons. }
  assert (match splitBy slash (o ++ slash :: r ++ tail) with
          | owner :: repo :: rest =>
              inr {| owner := owner; repo := repo;
                     skillPath := match rest with
                                  | [] => None
                                  | _ :: _ => Some (joinWith [slash] rest)
                                  end;
                     ref := rf |}
          | _ => inl InvalidGitHubSource
          end = inr {| owner := o; repo := r; skillPath := sp; ref := rf |})
    as Hparts.
  { rewrite split_app by done. subst tail.
    destruct sp as [[|c p]|].
    - by destruct (Hsp [] eq_refl).
    - rewrite split_app by done.
      pose proof (split_nonempty slash (c :: p)) as Hne.
      pose proof (join_split slash (c :: p)) as Hjoin.
      destruct (splitBy slash (c :: p)); [done |]. by rewrite Hjoin.
    - by rewrite app_nil_r, split_clean. }
  unfold formatSourceUri, parseRemoteSource. cbn [owner repo skillPath ref].
  replace (match sp with
           | Some (c :: p) => (lit "github:" ++ o ++ [slash] ++ r) ++ [slash] ++ c :: p
           | _ => lit "github:" ++ o ++ [slash] ++ r
           end) with (lit "github:" ++ o ++ slash :: r ++ tail)
    by (subst tail; destruct sp as [[|c p]|];
        repeat (rewrite <- ?app_assoc; cbn [app]); by rewrite ?app_nil_r).
  destruct ((0 <? length rf) && negb (bool_decide (rf = lit "main"))) eqn:Href.
  - replace ((lit "github:" ++ o ++ slash :: r ++ tail) ++ [hash] ++ rf)
      with (lit "github:" ++ (o ++ slash :: r ++ tail) ++ hash :: rf)
      by (repeat (rewrite <- ?app_assoc; cbn [app]); done).
    rewrite startsWith_app, drop_app_length. cbv zeta. cbn [negb].
    rewrite indexOf_char_app by done.
    rewrite take_app_length.
    rewrite drop_field. apply Hparts.
  - rewrite startsWith_app, drop_app_length. cbv zeta. cbn [negb].
    rewrite indexOf_char_None by done.
    assert (rf = []) as ->; [|apply Hparts].
    destruct rf as [|c rf]; [done |]. cbn [length Nat.ltb Nat.leb andb] in Href.
    apply negb_false_iff, bool_decide_eq_true in Href. done.
Qed.

Lemma parseRemoteSource_formatSourceUri_witness :
  let source := {| owner := lit "acme"; repo := lit "skills";
                   skillPath := Some (lit "review/security");
                   ref := lit "dev" |} in
  parseRemoteSource (formatSourceUri source) = inr source.
Proof.
  apply (parseRemoteSource_formatSourceUri
           {| owner := lit "acme"; repo := lit "skills";
              skillPath := Some (lit "review/security"); ref := lit "dev" |}).
  - reflexivity.
  - reflexivity.
  - reflexivity.
  - reflexivity.
  - intros p H. injection H as <-. split; [discriminate | reflexivity].
  - discriminate.
Defined.

(** X26.  Every text [parseRemoteSource] accepts begins with [github:]
    and has a slash before its first hash sign.  The owner and the
    repository it returns hold neither a slash nor a hash sign, the skill
    path holds no hash sign, and the text is [github:], the owner, a
    slash, the repository, then a slash and the skill path if there is
    one, then a hash sign and the ref if the text holds a hash sign (the
    ref is empty if it holds none). *)
Theorem parseRemoteSource_parts (uri : text) (source : RemoteSource) :
  parseRemoteSource uri = inr source ->
  includes [slash] (owner source) = false
  /\ includes [hash] (owner source) = false
  /\ includes [slash] (repo source) = false
  /\ includes [hash] (repo source) = false
  /\ (forall p, skillPath source = Some p -> includes [hash] p = false)
  /\ exists tail,
       uri = lit "github:" ++ owner source ++ [slash] ++ repo source
               ++ match skillPath source with
                  | Some p => slash :: p
                  | None => []
                  end ++ tail
       /\ (tail = [] /\ ref source = [] \/ tail = hash :: ref source).
Proof.
  unfold parseRemoteSource.
  destruct (startsWith (lit "github:") uri) eqn:Hstart; [|done].
  apply startsWith_spec in Hstart as [rest ->]. cbn [negb].
  rewrite drop_app_length. cbv zeta.
  set (body := match indexOf [hash] rest with
               | Some i => take i rest
               | None => rest
               end).
  set (rf := match indexOf [hash] rest with
             | Some i => drop (i + 1) rest
             | None => []
             end).
  assert (includes [hash] body = false
          /\ exists tail, rest = body ++ tail
                          /\ (tail = [] /\ rf = [] \/ tail = hash :: rf))
    as [Hclean [tail [Hrest Htail]]].
  { subst body rf. destruct (indexOf [hash] rest) as [i|] eqn:Hi.
    - destruct (indexOf_char_Some _ _ _ Hi) as [Hclean Heq].
      split; [done |]. exists (hash :: drop (i + 1) rest). split; [done |].
      by right.
    - split; [by apply indexOf_char_None_inv |].
      exists []. rewrite app_nil_r. split; [done |]. by left. }
  pose proof (join_split slash body) as Hjoin.
  pose proof (split_parts slash body) as Hparts.
  assert (forall part, part ∈ splitBy slash body -> includes [hash] part = false)
    as Hhash.
  { intros part Hpart. revert Hclean. rewrite <- Hjoin at 1. clear -Hpart.
    induction (splitBy slash body) as [|x xs IH]; [by apply elem_of_nil in Hpart |].
    destruct xs as [|y ys].
    - apply list_elem_of_singleton in Hpart as ->. done.
    - cbn [joinWith]. intros [Hx Hrest]%includes_false_app.
      apply elem_of_cons in Hpart as [->|Hpart]; [done |].
      apply IH; [done |]. by apply includes_false_app in Hrest as [_ ?]. }
  destruct (splitBy slash body) as [|o [|r parts]] eqn:Hsplit; [done | done |].
  intros [= <-]. cbn [owner repo skillPath ref].
  assert (includes [hash] (joinWith [slash] parts) = false) as Hsp.
  { revert Hclean. rewrite <- Hjoin. cbn [joinWith].
    destruct parts as [|x xs]; [done |].
    intros [_ [_ H]%includes_false_app]%includes_false_app.
    by apply includes_false_app in H as [_ ?]. }
  repeat split.
  - apply Hparts. by left.
  - apply Hhash. by left.
  - apply Hparts. right. by left.
  - apply Hhash. right. by left.
  - intros p Hp. destruct parts; [done |]. by injection Hp as <-.
  - exists tail. split; [|done]. rewrite Hrest, <- Hjoin. cbn [joinWith].
    destruct parts as [|x xs]; repeat (rewrite <- ?app_assoc; cbn [app]); done.
Qed.

Lemma parseRemoteSource_parts_witness :
  let source := {| owner := lit "acme"; repo := lit "skills";
                   skillPath := None; ref := lit "main" |} in
  includes [slash] (owner source) = false
  /\ includes [hash] (owner source) = false
  /\ includes [slash] (repo source) = false
  /\ includes [hash] (repo source) = false
  /\ (forall p, skillPath source = Some p -> includes [hash] p = false)
  /\ exists tail,
       lit "github:acme/skills#main"
       = lit "github:" ++ owner source ++ [slash] ++ repo source
           ++ match skillPath source with
              | Some p => slash :: p
              | None => []
              end ++ tail
       /\ (tail = [] /\ ref source = [] \/ tail = hash :: ref source).
Proof.
  apply (parseRemoteSource_parts (lit "github:acme/skills#main")
           {| owner := lit "acme"; repo := lit "skills";
              skillPath := None; ref := lit "main" |}).
  reflexivity.
Defined.
